(** * Progressive story generation and playback

    A shallow embedding of the journey story application: the [App]
    component (look-ahead scheduler, single-flight background generation,
    journey start and reset), the [StoryPlayer] component (playback engine,
    buffering, progress signal), the progress clamp and the marker effect
    of [InlineMap], the [RoutePlanner] component, and the outline and
    landmark requests of the content service.

    Conventions of the embedding.

    - JavaScript numbers that hold counts and indices are [nat]; numbers
      that hold seconds or fractions are exact rationals [Q]; durations of
      timers are [N] milliseconds.
    - React state and refs of a component are the fields of one record.
      An event handler runs to completion and the render it causes, with
      the effects whose dependencies it changed, is committed before the
      next event is handled: that is one [step].
    - Every suspended [async] call is a record kept in the state and
      resumed by an event that carries what the awaited promise settled
      to, so that all interleavings of completions are runs of [step].
    - A closure that outlives its render keeps what it captured: the
      [onended] handler of a source holds the [story] prop of the render
      that started it.
    - The directions callback of the planner calls [onRouteFound] without
      looking at the state of the page, and a call of [playSegment] waits
      while the audio context is suspended.  [step] takes a route in every
      state and lets the context suspend; the runs in which routes only
      arrive while the planner's button is enabled and the context keeps
      running are the orderly runs.  What is proved of every run is
      stated with [reachable], what is proved of orderly runs with
      [orderly]. *)

From Stdlib Require Import List Arith NArith ZArith Bool Lia String QArith Qminmax Lqa.
From Stdlib Require Import Sorted Permutation Qabs.
Import ListNotations.

Local Open Scope nat_scope.

Set Implicit Arguments.

(** An equation between results of a handler, taken apart. *)
Ltac settled :=
  let E := fresh "E" in intros E; inversion E; subst; clear E.

(** * Data model (types.ts) *)

Inductive StoryStyle := GUIDE | CHILDREN | HISTORICAL | MYTHOLOGY.

Record RouteDetails := {
  startAddress : string;
  endAddress : string;
  distance : string;
  duration : string;
  durationSeconds : nat;
  travelMode : string;
  voiceName : string;
  storyStyle : StoryStyle;
  withFamily : bool;
  kidsCount : nat
}.

(** A decoded Web Audio buffer: at least one sample frame at a positive
    sample rate; its duration in seconds is frames / rate. *)
Record AudioBuffer := {
  frames : positive;
  sampleRate : positive
}.

Definition bufferDuration (b : AudioBuffer) : Q := Zpos (frames b) # sampleRate b.

Record StorySegment := {
  index : nat;
  text : string;
  audioBuffer : option AudioBuffer
}.

Record AudioStory := {
  totalSegmentsEstimate : nat;
  outline : list string;
  segments : list StorySegment;
  landmarkImages : list string
}.

Inductive AppState :=
| PLANNING
| CALCULATING_ROUTE
| ROUTE_CONFIRMED
| GENERATING_INITIAL_SEGMENT
| READY_TO_PLAY
| PLAYING.

(** The numeric value of an enum member. *)
Definition AppState_value (s : AppState) : nat :=
  match s with
  | PLANNING => 0
  | CALCULATING_ROUTE => 1
  | ROUTE_CONFIRMED => 2
  | GENERATING_INITIAL_SEGMENT => 3
  | READY_TO_PLAY => 4
  | PLAYING => 5
  end.

Definition isSome {A : Type} (o : option A) : bool :=
  match o with Some _ => true | None => false end.

(** * Promises raced against a timer (withTimeout) *)

(** How a provider promise settles, with the time in milliseconds after the
    call at which it does. *)
Inductive Settle (T : Type) :=
| Resolves (ms : N) (v : T)
| Rejects (ms : N) (msg : string)
| NeverSettles.

Arguments Rejects {T} ms msg.
Arguments NeverSettles {T}.

Inductive Outcome (T : Type) :=
| Fulfilled (v : T)
| Thrown (msg : string).

Arguments Thrown {T} msg.

(** [Promise.race] of the promise and a timer that rejects after [ms]: the
    promise wins when it settles before the timer fires. *)
Definition withTimeout {T : Type} (p : Settle T) (ms : N) (errorMsg : string)
  : Outcome T :=
  match p with
  | Resolves t v => if (t <? ms)%N then Fulfilled v else Thrown errorMsg
  | Rejects t msg => if (t <? ms)%N then Thrown msg else Thrown errorMsg
  | NeverSettles => Thrown errorMsg
  end.

Definition TEXT_TIMEOUT_MS : N := 60000%N.
Definition AUDIO_TIMEOUT_MS : N := 100000%N.

(** * Content service (services/geminiService) *)

Definition calculateTotalSegments (durationSeconds : nat) : nat :=
  let ceilMinutes :=
    durationSeconds / 60 + (if durationSeconds mod 60 =? 0 then 0 else 1) in
  let calculated := Nat.max 2 ceilMinutes in
  Nat.min calculated 4.

(** [generateSegment] resolves to a segment carrying the requested index,
    the generated text and no audio yet. *)
Definition segmentData (segmentIndex : nat) (txt : string) : StorySegment :=
  {| index := segmentIndex; text := txt; audioBuffer := None |}.

(** The object spread [{ ...segmentData, audioBuffer }]. *)
Definition withAudio (seg : StorySegment) (buf : AudioBuffer) : StorySegment :=
  {| index := index seg; text := text seg; audioBuffer := Some buf |}.

(** * The App component *)

(** A suspended call of [generateNextSegment]: the index it was called
    with and the [await] it is parked at. *)
Inductive AttemptPhase :=
| AwaitingText
| AwaitingAudio (data : StorySegment).

Record Attempt := {
  att_index : nat;
  att_phase : AttemptPhase
}.

Record App := {
  appState : AppState;
  route : option RouteDetails;
  story : option AudioStory;
  loadingMessage : string;
  scriptError : bool;
  generationError : option string;
  isKeyRequired : bool;
  isGeneratingRef : bool;
  isBackgroundGenerating : bool;
  currentPlayingIndex : nat;
  smoothProgress : Q;
  (* suspended generateNextSegment calls *)
  inflight : list Attempt;
  (* suspended handleGenerateStory calls *)
  starting : list RouteDetails
}.

Definition initialApp : App :=
  {| appState := PLANNING; route := None; story := None;
     loadingMessage := "";
     scriptError := false; generationError := None; isKeyRequired := false;
     isGeneratingRef := false; isBackgroundGenerating := false;
     currentPlayingIndex := 0; smoothProgress := 0%Q;
     inflight := []; starting := [] |}.

Definition setAppState (v : AppState) (a : App) : App :=
  {| appState := v; route := route a; story := story a;
     loadingMessage := loadingMessage a;
     scriptError := scriptError a; generationError := generationError a;
     isKeyRequired := isKeyRequired a; isGeneratingRef := isGeneratingRef a;
     isBackgroundGenerating := isBackgroundGenerating a;
     currentPlayingIndex := currentPlayingIndex a;
     smoothProgress := smoothProgress a;
     inflight := inflight a; starting := starting a |}.

Definition setRoute (v : option RouteDetails) (a : App) : App :=
  {| appState := appState a; route := v; story := story a;
     loadingMessage := loadingMessage a;
     scriptError := scriptError a; generationError := generationError a;
     isKeyRequired := isKeyRequired a; isGeneratingRef := isGeneratingRef a;
     isBackgroundGenerating := isBackgroundGenerating a;
     currentPlayingIndex := currentPlayingIndex a;
     smoothProgress := smoothProgress a;
     inflight := inflight a; starting := starting a |}.

Definition setStory (v : option AudioStory) (a : App) : App :=
  {| appState := appState a; route := route a; story := v;
     loadingMessage := loadingMessage a;
     scriptError := scriptError a; generationError := generationError a;
     isKeyRequired := isKeyRequired a; isGeneratingRef := isGeneratingRef a;
     isBackgroundGenerating := isBackgroundGenerating a;
     currentPlayingIndex := currentPlayingIndex a;
     smoothProgress := smoothProgress a;
     inflight := inflight a; starting := starting a |}.

Definition setLoadingMessage (v : string) (a : App) : App :=
  {| appState := appState a; route := route a; story := story a;
     loadingMessage := v;
     scriptError := scriptError a; generationError := generationError a;
     isKeyRequired := isKeyRequired a; isGeneratingRef := isGeneratingRef a;
     isBackgroundGenerating := isBackgroundGenerating a;
     currentPlayingIndex := currentPlayingIndex a;
     smoothProgress := smoothProgress a;
     inflight := inflight a; starting := starting a |}.

Definition setScriptError (v : bool) (a : App) : App :=
  {| appState := appState a; route := route a; story := story a;
     loadingMessage := loadingMessage a;
     scriptError := v; generationError := generationError a;
     isKeyRequired := isKeyRequired a; isGeneratingRef := isGeneratingRef a;
     isBackgroundGenerating := isBackgroundGenerating a;
     currentPlayingIndex := currentPlayingIndex a;
     smoothProgress := smoothProgress a;
     inflight := inflight a; starting := starting a |}.

Definition setGenerationError (v : option string) (a : App) : App :=
  {| appState := appState a; route := route a; story := story a;
     loadingMessage := loadingMessage a;
     scriptError := scriptError a; generationError := v;
     isKeyRequired := isKeyRequired a; isGeneratingRef := isGeneratingRef a;
     isBackgroundGenerating := isBackgroundGenerating a;
     currentPlayingIndex := currentPlayingIndex a;
     smoothProgress := smoothProgress a;
     inflight := inflight a; starting := starting a |}.

Definition setIsKeyRequired (v : bool) (a : App) : App :=
  {| appState := appState a; route := route a; story := story a;
     loadingMessage := loadingMessage a;
     scriptError := scriptError a; generationError := generationError a;
     isKeyRequired := v; isGeneratingRef := isGeneratingRef a;
     isBackgroundGenerating := isBackgroundGenerating a;
     currentPlayingIndex := currentPlayingIndex a;
     smoothProgress := smoothProgress a;
     inflight := inflight a; starting := starting a |}.

(** The lock and its mirror for the UI are always written together. *)
Definition setGenerating (v : bool) (a : App) : App :=
  {| appState := appState a; route := route a; story := story a;
     loadingMessage := loadingMessage a;
     scriptError := scriptError a; generationError := generationError a;
     isKeyRequired := isKeyRequired a; isGeneratingRef := v;
     isBackgroundGenerating := v;
     currentPlayingIndex := currentPlayingIndex a;
     smoothProgress := smoothProgress a;
     inflight := inflight a; starting := starting a |}.

Definition setCurrentPlayingIndex (v : nat) (a : App) : App :=
  {| appState := appState a; route := route a; story := story a;
     loadingMessage := loadingMessage a;
     scriptError := scriptError a; generationError := generationError a;
     isKeyRequired := isKeyRequired a; isGeneratingRef := isGeneratingRef a;
     isBackgroundGenerating := isBackgroundGenerating a;
     currentPlayingIndex := v;
     smoothProgress := smoothProgress a;
     inflight := inflight a; starting := starting a |}.

Definition setSmoothProgress (v : Q) (a : App) : App :=
  {| appState := appState a; route := route a; story := story a;
     loadingMessage := loadingMessage a;
     scriptError := scriptError a; generationError := generationError a;
     isKeyRequired := isKeyRequired a; isGeneratingRef := isGeneratingRef a;
     isBackgroundGenerating := isBackgroundGenerating a;
     currentPlayingIndex := currentPlayingIndex a;
     smoothProgress := v;
     inflight := inflight a; starting := starting a |}.

Definition setInflight (v : list Attempt) (a : App) : App :=
  {| appState := appState a; route := route a; story := story a;
     loadingMessage := loadingMessage a;
     scriptError := scriptError a; generationError := generationError a;
     isKeyRequired := isKeyRequired a; isGeneratingRef := isGeneratingRef a;
     isBackgroundGenerating := isBackgroundGenerating a;
     currentPlayingIndex := currentPlayingIndex a;
     smoothProgress := smoothProgress a;
     inflight := v; starting := starting a |}.

Definition setStarting (v : list RouteDetails) (a : App) : App :=
  {| appState := appState a; route := route a; story := story a;
     loadingMessage := loadingMessage a;
     scriptError := scriptError a; generationError := generationError a;
     isKeyRequired := isKeyRequired a; isGeneratingRef := isGeneratingRef a;
     isBackgroundGenerating := isBackgroundGenerating a;
     currentPlayingIndex := currentPlayingIndex a;
     smoothProgress := smoothProgress a;
     inflight := inflight a; starting := v |}.

(** ** Sorting segments: [segments.sort((a, b) => a.index - b.index)]

    [Array.prototype.sort] is stable, so its result is the one of any
    stable sort; insertion sort is one. *)

Fixpoint insertByIndex (x : StorySegment) (l : list StorySegment)
  : list StorySegment :=
  match l with
  | [] => [x]
  | y :: l' =>
      if index x <=? index y then x :: y :: l' else y :: insertByIndex x l'
  end.

Fixpoint sortByIndex (l : list StorySegment) : list StorySegment :=
  match l with
  | [] => []
  | x :: l' => insertByIndex x (sortByIndex l')
  end.

Definition withSegments (st : AudioStory) (segs : list StorySegment)
  : AudioStory :=
  {| totalSegmentsEstimate := totalSegmentsEstimate st;
     outline := outline st;
     segments := segs;
     landmarkImages := landmarkImages st |}.

Definition hasIndex (i : nat) (segs : list StorySegment) : bool :=
  existsb (fun s => index s =? i) segs.

(** The functional updater passed to [setStory] by [generateNextSegment]. *)
Definition insertChapter (i : nat) (seg : StorySegment)
  (prev : option AudioStory) : option AudioStory :=
  match prev with
  | None => None
  | Some st =>
      if hasIndex i (segments st) then Some st
      else Some (withSegments st (sortByIndex (segments st ++ [seg])))
  end.

(** ** generateNextSegment, cut at its two awaits *)

(** From the call to the first [await].  The request sent to the content
    service (the tail of the previous text, the outline hint) only shapes
    the reply, which is an input here, so it is not part of the state. *)
Definition generateNextSegment (i : nat) (a : App) : App :=
  match route a, story a with
  | Some _, Some _ =>
      if isGeneratingRef a then a
      else
        let a1 := setGenerating true a in
        setInflight (inflight a1 ++ [ {| att_index := i; att_phase := AwaitingText |} ]) a1
  | _, _ => a
  end.

(** The [finally] block. *)
Definition releaseLock (a : App) : App := setGenerating false a.

Fixpoint removeNth {A : Type} (k : nat) (l : list A) : list A :=
  match k, l with
  | _, [] => []
  | O, _ :: l' => l'
  | S k', x :: l' => x :: removeNth k' l'
  end.

Fixpoint replaceNth {A : Type} (k : nat) (v : A) (l : list A) : list A :=
  match k, l with
  | _, [] => []
  | O, _ :: l' => v :: l'
  | S k', x :: l' => x :: replaceNth k' v l'
  end.

(** After the text request settles: either on to the audio request, or
    through [catch] and [finally]. *)
Definition resumeAfterText (k : nat) (reply : Settle string) (a : App)
  : option App :=
  match nth_error (inflight a) k with
  | Some {| att_index := i; att_phase := AwaitingText |} =>
      match withTimeout reply TEXT_TIMEOUT_MS "Text generation timeout" with
      | Fulfilled txt =>
          let parked :=
            {| att_index := i; att_phase := AwaitingAudio (segmentData i txt) |} in
          Some (setInflight (replaceNth k parked (inflight a)) a)
      | Thrown _ =>
          Some (releaseLock (setInflight (removeNth k (inflight a)) a))
      end
  | _ => None
  end.

(** Whether the updater of [insertChapter] returns a new story object
    rather than [prev] itself. *)
Definition chapterInserted (i : nat) (prev : option AudioStory) : bool :=
  match prev with
  | Some st => negb (hasIndex i (segments st))
  | None => false
  end.

(** After the audio request settles: the guarded insert, or [catch]; then
    [finally] in both cases.  The boolean tells whether the [story] state
    was replaced by a new object. *)
Definition resumeAfterAudio (k : nat) (reply : Settle AudioBuffer) (a : App)
  : option (App * bool) :=
  match nth_error (inflight a) k with
  | Some {| att_index := i; att_phase := AwaitingAudio data |} =>
      let a0 := setInflight (removeNth k (inflight a)) a in
      match withTimeout reply AUDIO_TIMEOUT_MS "Audio generation timeout" with
      | Fulfilled buf =>
          Some (releaseLock
                  (setStory (insertChapter i (withAudio data buf) (story a0)) a0),
                chapterInserted i (story a0))
      | Thrown _ => Some (releaseLock a0, false)
      end
  | _ => None
  end.

(** ** The look-ahead effect

    The body of the effect with dependencies
    [story, route, appState, currentPlayingIndex]: the argument of the
    [generateNextSegment] call it makes, if it makes one. *)
Definition schedulerTrigger (a : App) : option nat :=
  match story a, route a with
  | Some st, Some _ =>
      if AppState_value (appState a) <? AppState_value READY_TO_PLAY then None
      else
        let totalGenerated := List.length (segments st) in
        let neededBufferIndex := currentPlayingIndex a + 2 in
        if (totalGenerated <? neededBufferIndex)
           && (totalGenerated <? totalSegmentsEstimate st)
           && negb (isGeneratingRef a)
        then Some (totalGenerated + 1)
        else None
  | _, _ => None
  end.

Definition schedulerEffect (a : App) : App :=
  match schedulerTrigger a with
  | Some i => generateNextSegment i a
  | None => a
  end.

(** [setCurrentPlayingIndex], handed to the player as [onSegmentChange]:
    setting the value it already has causes no render; a new value is a
    changed dependency of the look-ahead effect. *)
Definition onSegmentChange (i : nat) (a : App) : App :=
  if i =? currentPlayingIndex a then a
  else schedulerEffect (setCurrentPlayingIndex i a).

(** ** handleGenerateStory *)

Record StartupReplies := {
  outlineReply : Settle (list string);
  firstTextReply : Settle string;
  firstAudioReply : Settle AudioBuffer;
  landmarksReply : Settle (list string)
}.

Definition includes (msg pat : string) : bool := isSome (String.index 0 pat msg).

(** The two messages of the loading panel. *)
Definition searchingTemples : string := "Sudarshan AI Labs: मंदिर खोज रहे हैं...".
Definition preparingStory : string := "पावन कथा तैयार हो रही है...".

(** From the call to the first [await].  It is not guarded: whatever the
    state of the page, a call sets the route and the state and parks at
    the outline request. *)
Definition handleGenerateStory (details : RouteDetails) (a : App) : App :=
  let a1 := setRoute (Some details) a in
  let a2 := setGenerationError None a1 in
  let a3 := setAppState GENERATING_INITIAL_SEGMENT a2 in
  let a4 := setLoadingMessage searchingTemples a3 in
  let a5 := setLoadingMessage preparingStory a4 in
  setStarting (starting a5 ++ [details]) a5.

(** The awaits of the [try] block in order; [None] when the last one, which
    has no timer, never settles. *)
Definition startupOutcome (details : RouteDetails) (r : StartupReplies)
  : option (Outcome AudioStory) :=
  let totalSegmentsEstimate := calculateTotalSegments (durationSeconds details) in
  match withTimeout (outlineReply r) 60000%N "Outline timeout" with
  | Thrown m => Some (Thrown m)
  | Fulfilled outline =>
  match withTimeout (firstTextReply r) 60000%N "Initial text timeout" with
  | Thrown m => Some (Thrown m)
  | Fulfilled txt =>
  let seg1Data := segmentData 1 txt in
  match withTimeout (firstAudioReply r) 100000%N "Initial audio timeout" with
  | Thrown m => Some (Thrown m)
  | Fulfilled seg1Audio =>
  match landmarksReply r with
  | NeverSettles => None
  | Rejects _ m => Some (Thrown m)
  | Resolves _ landmarkImages =>
      Some (Fulfilled
        {| totalSegmentsEstimate := totalSegmentsEstimate;
           outline := outline;
           segments := [withAudio seg1Data seg1Audio];
           landmarkImages := landmarkImages |})
  end end end end.

(** The rest of the [try] block, or the [catch] block. *)
Definition resumeStartup (k : nat) (r : StartupReplies) (a : App)
  : option App :=
  match nth_error (starting a) k with
  | Some details =>
      let a0 := setStarting (removeNth k (starting a)) a in
      match startupOutcome details r with
      | None => None
      | Some (Fulfilled st) =>
          Some (setAppState READY_TO_PLAY (setStory (Some st) a0))
      | Some (Thrown m) =>
          let a1 := setAppState PLANNING a0 in
          if includes m "Requested entity was not found" then
            Some (setGenerationError
                    (Some "High-quality visuals require a paid API key."%string)
                    (setIsKeyRequired true a1))
          else
            Some (setGenerationError
                    (Some "Failed to start story stream."%string) a1)
      end
  | None => None
  end.

(** ** handleReset *)
Definition handleReset (a : App) : App :=
  let a1 := setAppState PLANNING a in
  let a2 := setRoute None a1 in
  let a3 := setStory None a2 in
  let a4 := setCurrentPlayingIndex 0 a3 in
  let a5 := setSmoothProgress 0%Q a4 in
  setGenerationError None a5.

(** * The StoryPlayer component *)

(** The live buffer source node with the closure of its [onended]
    handler: the segment and start offset given to [playSegment], and the
    [story] prop of the render whose [handleSegmentEnd] the handler calls. *)
Record Source := {
  src_segment : StorySegment;
  src_buffer : AudioBuffer;
  src_offset : Q;
  src_story : AudioStory;
  src_ended : bool
}.

(** A call of [playSegment] parked at [await audioContextRef.current.resume()],
    with its arguments and the [story] prop of the render it was made from. *)
Record Resumption := {
  res_story : AudioStory;
  res_segment : StorySegment;
  res_buffer : AudioBuffer;
  res_offset : Q
}.

Record Player := {
  isPlaying : bool;
  currentSegmentIndex : nat;
  isBuffering : bool;
  autoScroll : bool;
  (* the audio context, as the reading of its clock *)
  audioContextRef : option Q;
  sourceRef : option Source;
  startTimeRef : Q;
  segmentOffsetRef : Q;
  indexRef : nat;
  (* the [state] of the audio context is 'suspended'; for a player that has
     no context yet, the state its context is created in *)
  contextSuspended : bool;
  (* suspended playSegment calls *)
  resuming : list Resumption
}.

Definition initialPlayer : Player :=
  {| isPlaying := false; currentSegmentIndex := 0; isBuffering := false;
     autoScroll := true; audioContextRef := None; sourceRef := None;
     startTimeRef := 0%Q; segmentOffsetRef := 0%Q; indexRef := 0;
     contextSuspended := false; resuming := [] |}.

Definition setIsPlaying (v : bool) (p : Player) : Player :=
  {| isPlaying := v; currentSegmentIndex := currentSegmentIndex p;
     isBuffering := isBuffering p; autoScroll := autoScroll p;
     audioContextRef := audioContextRef p; sourceRef := sourceRef p;
     startTimeRef := startTimeRef p; segmentOffsetRef := segmentOffsetRef p;
     indexRef := indexRef p;
     contextSuspended := contextSuspended p; resuming := resuming p |}.

Definition setCurrentSegmentIndex (v : nat) (p : Player) : Player :=
  {| isPlaying := isPlaying p; currentSegmentIndex := v;
     isBuffering := isBuffering p; autoScroll := autoScroll p;
     audioContextRef := audioContextRef p; sourceRef := sourceRef p;
     startTimeRef := startTimeRef p; segmentOffsetRef := segmentOffsetRef p;
     indexRef := indexRef p;
     contextSuspended := contextSuspended p; resuming := resuming p |}.

Definition setIsBuffering (v : bool) (p : Player) : Player :=
  {| isPlaying := isPlaying p; currentSegmentIndex := currentSegmentIndex p;
     isBuffering := v; autoScroll := autoScroll p;
     audioContextRef := audioContextRef p; sourceRef := sourceRef p;
     startTimeRef := startTimeRef p; segmentOffsetRef := segmentOffsetRef p;
     indexRef := indexRef p;
     contextSuspended := contextSuspended p; resuming := resuming p |}.

Definition setAutoScroll (v : bool) (p : Player) : Player :=
  {| isPlaying := isPlaying p; currentSegmentIndex := currentSegmentIndex p;
     isBuffering := isBuffering p; autoScroll := v;
     audioContextRef := audioContextRef p; sourceRef := sourceRef p;
     startTimeRef := startTimeRef p; segmentOffsetRef := segmentOffsetRef p;
     indexRef := indexRef p;
     contextSuspended := contextSuspended p; resuming := resuming p |}.

Definition setAudioContext (v : option Q) (p : Player) : Player :=
  {| isPlaying := isPlaying p; currentSegmentIndex := currentSegmentIndex p;
     isBuffering := isBuffering p; autoScroll := autoScroll p;
     audioContextRef := v; sourceRef := sourceRef p;
     startTimeRef := startTimeRef p; segmentOffsetRef := segmentOffsetRef p;
     indexRef := indexRef p;
     contextSuspended := contextSuspended p; resuming := resuming p |}.

Definition setSource (v : option Source) (p : Player) : Player :=
  {| isPlaying := isPlaying p; currentSegmentIndex := currentSegmentIndex p;
     isBuffering := isBuffering p; autoScroll := autoScroll p;
     audioContextRef := audioContextRef p; sourceRef := v;
     startTimeRef := startTimeRef p; segmentOffsetRef := segmentOffsetRef p;
     indexRef := indexRef p;
     contextSuspended := contextSuspended p; resuming := resuming p |}.

Definition setStartTime (v : Q) (p : Player) : Player :=
  {| isPlaying := isPlaying p; currentSegmentIndex := currentSegmentIndex p;
     isBuffering := isBuffering p; autoScroll := autoScroll p;
     audioContextRef := audioContextRef p; sourceRef := sourceRef p;
     startTimeRef := v; segmentOffsetRef := segmentOffsetRef p;
     indexRef := indexRef p;
     contextSuspended := contextSuspended p; resuming := resuming p |}.

Definition setSegmentOffset (v : Q) (p : Player) : Player :=
  {| isPlaying := isPlaying p; currentSegmentIndex := currentSegmentIndex p;
     isBuffering := isBuffering p; autoScroll := autoScroll p;
     audioContextRef := audioContextRef p; sourceRef := sourceRef p;
     startTimeRef := startTimeRef p; segmentOffsetRef := v;
     indexRef := indexRef p;
     contextSuspended := contextSuspended p; resuming := resuming p |}.

Definition setIndexRef (v : nat) (p : Player) : Player :=
  {| isPlaying := isPlaying p; currentSegmentIndex := currentSegmentIndex p;
     isBuffering := isBuffering p; autoScroll := autoScroll p;
     audioContextRef := audioContextRef p; sourceRef := sourceRef p;
     startTimeRef := startTimeRef p; segmentOffsetRef := segmentOffsetRef p;
     indexRef := v;
     contextSuspended := contextSuspended p; resuming := resuming p |}.

Definition setContextSuspended (v : bool) (p : Player) : Player :=
  {| isPlaying := isPlaying p; currentSegmentIndex := currentSegmentIndex p;
     isBuffering := isBuffering p; autoScroll := autoScroll p;
     audioContextRef := audioContextRef p; sourceRef := sourceRef p;
     startTimeRef := startTimeRef p; segmentOffsetRef := segmentOffsetRef p;
     indexRef := indexRef p;
     contextSuspended := v; resuming := resuming p |}.

Definition setResuming (v : list Resumption) (p : Player) : Player :=
  {| isPlaying := isPlaying p; currentSegmentIndex := currentSegmentIndex p;
     isBuffering := isBuffering p; autoScroll := autoScroll p;
     audioContextRef := audioContextRef p; sourceRef := sourceRef p;
     startTimeRef := startTimeRef p; segmentOffsetRef := segmentOffsetRef p;
     indexRef := indexRef p;
     contextSuspended := contextSuspended p; resuming := v |}.

(** [story.segments[i]?.audioBuffer] *)
Definition audioAt (st : AudioStory) (i : nat) : option AudioBuffer :=
  match nth_error (segments st) i with
  | Some seg => audioBuffer seg
  | None => None
  end.

Definition stopAudio (p : Player) : Player := setSource None p.

(** The part of [playSegment] after the context is known to run: the
    previous source is stopped and a new one is started at [offset]. *)
Definition startSource (st : AudioStory) (segment : StorySegment)
  (buf : AudioBuffer) (offset : Q) (p : Player) : Player :=
  let now := match audioContextRef p with Some t => t | None => 0%Q end in
  let p1 := stopAudio p in
  let source :=
    {| src_segment := segment; src_buffer := buf; src_offset := offset;
       src_story := st; src_ended := false |} in
  setStartTime (now - offset)%Q (setSource (Some source) p1).

(** [playSegment] called from a render whose [story] prop is [st].  A
    context is created on first use, its clock at zero.  On a suspended
    context the call parks at [await ...resume()] and the source is started
    when the context has resumed; on a running one it runs to its end. *)
Definition playSegment (st : AudioStory) (segment : StorySegment) (offset : Q)
  (p : Player) : Player :=
  match audioBuffer segment with
  | None => setIsBuffering true p
  | Some buf =>
      let now := match audioContextRef p with Some t => t | None => 0%Q end in
      let p0 := setAudioContext (Some now) p in
      if contextSuspended p0 then
        setResuming
          (resuming p0 ++
           [ {| res_story := st; res_segment := segment; res_buffer := buf;
                res_offset := offset |} ])
          p0
      else startSource st segment buf offset p0
  end.

(** The context has resumed: the parked calls of [playSegment] go on, in
    the order in which they were made. *)
Definition contextResumed (p : Player) : Player :=
  fold_left
    (fun q r =>
       startSource (res_story r) (res_segment r) (res_buffer r) (res_offset r) q)
    (resuming p)
    (setResuming [] (setContextSuspended false p)).

(** [handleSegmentEnd] of a render whose [story] prop is [st]. *)
Definition handleSegmentEnd (st : AudioStory) (p : Player) : Player :=
  let currentIndex := indexRef p in
  let nextIndex := currentIndex + 1 in
  if (nextIndex <? totalSegmentsEstimate st)
     || isSome (nth_error (segments st) nextIndex)
  then
    let p1 := setSegmentOffset 0%Q (setCurrentSegmentIndex nextIndex p) in
    match nth_error (segments st) nextIndex with
    | Some next =>
        if isSome (audioBuffer next) then playSegment st next 0%Q p1
        else setIsBuffering true p1
    | None => setIsBuffering true p1
    end
  else setIsPlaying false p.

(** The [onended] handler installed by [playSegment]. *)
Definition onended (src : Source) (p : Player) : Player :=
  let duration := bufferDuration (src_buffer src) in
  match audioContextRef p with
  | None => p
  | Some now =>
      let elapsed := (now - startTimeRef p)%Q in
      if Qle_bool (duration - (1 # 2)) elapsed
      then handleSegmentEnd (src_story src) p
      else p
  end.

Definition togglePlayback (st : AudioStory) (p : Player) : Player :=
  if isPlaying p then
    let p1 :=
      match audioContextRef p with
      | Some now =>
          if negb (isBuffering p)
          then setSegmentOffset (now - startTimeRef p)%Q p
          else p
      | None => p
      end in
    setAutoScroll false (setIsPlaying false (stopAudio p1))
  else
    let p1 := setIsPlaying true p in
    match nth_error (segments st) (currentSegmentIndex p) with
    | Some currentSegment =>
        if isSome (audioBuffer currentSegment) then
          setAutoScroll true
            (playSegment st currentSegment (segmentOffsetRef p1)
               (setIsBuffering false p1))
        else setIsBuffering true p1
    | None => setIsBuffering true p1
    end.

(** One animation frame of [updateProgress]: the value handed to
    [onSmoothProgressUpdate], if any. *)
Definition updateProgress (st : AudioStory) (p : Player) : option Q :=
  if isPlaying p && negb (isBuffering p) then
    match audioContextRef p, nth_error (segments st) (currentSegmentIndex p) with
    | Some now, Some currentSegment =>
        match audioBuffer currentSegment with
        | Some buf =>
            let elapsed := (now - startTimeRef p)%Q in
            let duration := bufferDuration buf in
            let segmentProgress := Qmin 1 (elapsed / duration) in
            let totalProgress :=
              ((inject_Z (Z.of_nat (currentSegmentIndex p)) + segmentProgress)
               / inject_Z (Z.of_nat (totalSegmentsEstimate st)))%Q in
            Some totalProgress
        | None => None
        end
    | _, _ => None
    end
  else None.

(** The effect with dependencies
    [story.segments, currentSegmentIndex, isBuffering, isPlaying]. *)
Definition bufferingEffect (st : AudioStory) (p : Player) : Player :=
  match nth_error (segments st) (currentSegmentIndex p) with
  | Some segmentNowReady =>
      if isBuffering p && isPlaying p && isSome (audioBuffer segmentNowReady)
      then playSegment st segmentNowReady 0%Q (setIsBuffering false p)
      else p
  | None => p
  end.

(** The effect [indexRef.current = currentSegmentIndex]. *)
Definition syncIndexRef (p : Player) : Player :=
  setIndexRef (currentSegmentIndex p) p.

(** * The progress consumer (InlineMap)

    [Math.max(0, Math.min(1, smoothProgress))] *)
Definition clampProgress (smoothProgress : Q) : Q :=
  Qmax 0 (Qmin 1 smoothProgress).

(** * The whole page: App with the player it renders

    The page state holds the App and the player.  The planner, which stays
    mounted under the App, is modelled on its own in [RoutePlanner]; what
    reaches the App from it is the route its directions callback reports,
    the event [RouteFound]. *)

Record World := {
  app : App;
  player : option Player
}.

Definition initialWorld : World := {| app := initialApp; player := None |}.

(** The two early returns of [App] and the condition under which the
    player and the reset button are rendered. *)
Definition playerVisible (a : App) : bool :=
  negb (isKeyRequired a) && negb (scriptError a)
  && (AppState_value READY_TO_PLAY <=? AppState_value (appState a))
  && isSome (story a) && isSome (route a).

(** The planner is rendered and not locked ([isLocked] in RoutePlanner). *)
Definition plannerEnabled (a : App) : bool :=
  negb (isKeyRequired a) && negb (scriptError a)
  && negb (AppState_value ROUTE_CONFIRMED <? AppState_value (appState a)).

(** A render of [App] followed by the player's effects: a player that is
    no longer rendered is unmounted (its cleanup stops the audio and closes
    the context), a newly rendered one is mounted at chapter 0 and reports
    that index, a surviving one re-runs its buffering effect. *)
Definition commit (a : App) (p : option Player) : World :=
  if playerVisible a then
    match story a with
    | Some st =>
        match p with
        | Some pl => {| app := a; player := Some (bufferingEffect st pl) |}
        | None => {| app := onSegmentChange 0 a; player := Some initialPlayer |}
        end
    | None => {| app := a; player := None |}
    end
  else {| app := a; player := None |}.

(** Time passes: the clock of a running audio context advances. *)
Definition advanceClock (dt : Q) (p : Player) : Player :=
  match audioContextRef p with
  | Some now =>
      if contextSuspended p then p
      else setAudioContext (Some (now + dt)%Q) p
  | None => p
  end.

Definition markEnded (src : Source) : Source :=
  {| src_segment := src_segment src; src_buffer := src_buffer src;
     src_offset := src_offset src; src_story := src_story src;
     src_ended := true |}.

Inductive Event :=
| ApiKeyMissing
| KeySelected
| MapsScriptFailed
| RouteFound (details : RouteDetails)
| StartupSettles (k : nat) (r : StartupReplies)
| TextSettles (k : nat) (reply : Settle string)
| AudioSettles (k : nat) (reply : Settle AudioBuffer)
| ResetClicked
| PlayPauseClicked
| SourceEnded
| AnimationFrame
| ClockAdvances (dt : Q)
| ContextSuspends
| ContextResumes.

(** One event handled to completion, with the render and the effects it
    causes; [None] when the event cannot occur in that state.  The
    look-ahead effect is run after the handlers that change one of its
    dependencies.

    [RouteFound] is the call of [onRouteFound] by the callback of a
    directions request.  Neither the callback nor [handleGenerateStory]
    looks at the state of the page, and a planner that is unmounted by the
    key prompt or by the maps error leaves its request pending, so the
    event can occur in every state.  [ContextSuspends] and
    [ContextResumes] are the transitions of the audio context of the
    mounted player between 'running' and 'suspended', which are the
    browser's; while the context is suspended its clock stands still and
    no source reaches its end. *)
Definition step (w : World) (e : Event) : option World :=
  let a := app w in
  match e with
  | ApiKeyMissing => Some (commit (setIsKeyRequired true a) (player w))
  | KeySelected =>
      if isKeyRequired a
      then Some (commit (setIsKeyRequired false a) (player w))
      else None
  | MapsScriptFailed => Some (commit (setScriptError true a) (player w))
  | RouteFound details =>
      Some (commit (schedulerEffect (handleGenerateStory details a)) (player w))
  | StartupSettles k r =>
      match resumeStartup k r a with
      | Some a' => Some (commit (schedulerEffect a') (player w))
      | None => None
      end
  | TextSettles k reply =>
      match resumeAfterText k reply a with
      | Some a' => Some (commit a' (player w))
      | None => None
      end
  | AudioSettles k reply =>
      match resumeAfterAudio k reply a with
      | Some (a', replaced) =>
          Some (commit (if replaced then schedulerEffect a' else a') (player w))
      | None => None
      end
  | ResetClicked =>
      if playerVisible a
      then Some (commit (schedulerEffect (handleReset a)) (player w))
      else None
  | PlayPauseClicked =>
      match player w, story a with
      | Some p, Some st =>
          Some {| app := a;
                  player := Some (bufferingEffect st (togglePlayback st p)) |}
      | _, _ => None
      end
  | SourceEnded =>
      match player w, story a with
      | Some p, Some st =>
          match sourceRef p with
          | Some src =>
              if src_ended src then None
              else if contextSuspended p then None
              else
                let p1 := onended src (setSource (Some (markEnded src)) p) in
                let p2 := syncIndexRef p1 in
                Some {| app := onSegmentChange (currentSegmentIndex p2) a;
                        player := Some (bufferingEffect st p2) |}
          | None => None
          end
      | _, _ => None
      end
  | AnimationFrame =>
      match player w, story a with
      | Some p, Some st =>
          match updateProgress st p with
          | Some totalProgress =>
              Some {| app := setSmoothProgress totalProgress a; player := Some p |}
          | None => Some w
          end
      | _, _ => None
      end
  | ClockAdvances dt =>
      if Qle_bool 0 dt
      then Some {| app := a; player := option_map (advanceClock dt) (player w) |}
      else None
  | ContextSuspends =>
      match player w with
      | Some p =>
          if contextSuspended p then None
          else Some {| app := a; player := Some (setContextSuspended true p) |}
      | None => None
      end
  | ContextResumes =>
      match player w with
      | Some p =>
          if contextSuspended p
          then Some {| app := a; player := Some (contextResumed p) |}
          else None
      | None => None
      end
  end.

Fixpoint run (w : World) (evs : list Event) : option World :=
  match evs with
  | [] => Some w
  | e :: evs' =>
      match step w e with
      | Some w' => run w' evs'
      | None => None
      end
  end.

Definition reachable (w : World) : Prop :=
  exists evs, run initialWorld evs = Some w.

(** * Orderly runs

    The runs of a page that has one planner and an audio context that
    runs: a route arrives only while the planner is displayed and not
    locked (no request of an unmounted planner is left pending), and the
    audio context is never suspended (no call of [playSegment] parks). *)
Definition orderlyEvent (w : World) (e : Event) : bool :=
  match e with
  | RouteFound _ => plannerEnabled (app w)
  | ContextSuspends => false
  | _ => true
  end.

Definition orderlyStep (w : World) (e : Event) : option World :=
  if orderlyEvent w e then step w e else None.

Fixpoint orderlyRun (w : World) (evs : list Event) : option World :=
  match evs with
  | [] => Some w
  | e :: evs' =>
      match orderlyStep w e with
      | Some w' => orderlyRun w' evs'
      | None => None
      end
  end.

Definition orderly (w : World) : Prop :=
  exists evs, orderlyRun initialWorld evs = Some w.

(** * The outline request (generateStoryOutline) *)

#[warnings="-register-all"]
Inductive Json :=
| JNull
| JBool (b : bool)
| JNumber (q : Q)
| JString (s : string)
| JArray (items : list Json)
| JObject (fields : list (string * Json)).

(** What the model call of [generateStoryOutline] comes back with, the
    text read through [JSON.parse]. *)
Inductive OutlineReply :=
| RequestFails                (* generateContent rejects *)
| NoText                      (* response.text is undefined, or empty once trimmed *)
| Malformed                   (* a text that JSON.parse rejects *)
| Parsed (value : Json).      (* a text that JSON.parse accepts, as its value *)

Definition fillerHint : string := "एक पावन यात्रा की शुरुआत।".

(** [Array(totalSegments).fill(filler)], the value of the [catch] block. *)
Definition fallbackOutline (totalSegments : nat) : Json :=
  JArray (repeat (JString fillerHint) totalSegments).

(** [value.slice(0, totalSegments)]: defined on arrays and on strings; on
    any other value the call throws. *)
Definition sliceTo (value : Json) (totalSegments : nat) : option Json :=
  match value with
  | JArray items => Some (JArray (firstn totalSegments items))
  | JString s => Some (JString (substring 0 totalSegments s))
  | _ => None
  end.

Definition generateStoryOutline (reply : OutlineReply) (totalSegments : nat)
  : Json :=
  match reply with
  | RequestFails => fallbackOutline totalSegments
  | Malformed => fallbackOutline totalSegments
  | NoText =>
      (* JSON.parse("[]").slice(0, totalSegments) *)
      match sliceTo (JArray []) totalSegments with
      | Some v => v
      | None => fallbackOutline totalSegments
      end
  | Parsed value =>
      match sliceTo value totalSegments with
      | Some v => v
      | None => fallbackOutline totalSegments
      end
  end.

Definition hintCount (v : Json) : option nat :=
  match v with
  | JArray items => Some (List.length items)
  | _ => None
  end.

(** * Runs without a reset during a generation *)

(** Orderly runs in which a reset is only issued while no background
    generation is in flight. *)
Definition resetIsCalm (w : World) (e : Event) : bool :=
  match e with
  | ResetClicked =>
      match inflight (app w) with
      | [] => true
      | _ :: _ => false
      end
  | _ => true
  end.

Fixpoint calmRun (w : World) (evs : list Event) : option World :=
  match evs with
  | [] => Some w
  | e :: evs' =>
      if resetIsCalm w e then
        match orderlyStep w e with
        | Some w' => calmRun w' evs'
        | None => None
        end
      else None
  end.

Definition calmlyReachable (w : World) : Prop :=
  exists evs, calmRun initialWorld evs = Some w.

(** * Invariants *)

Definition ascending (l : list StorySegment) : Prop :=
  Sorted (fun a b => index a <= index b) l.

(** Strictly ascending indices, the reading order the player relies on. *)
Definition strictlyAscending (l : list StorySegment) : Prop :=
  StronglySorted lt (map index l).

(** What every stored story satisfies. *)
Record wfStory (st : AudioStory) : Prop := {
  wf_estimate : 2 <= totalSegmentsEstimate st;
  wf_nonempty : 1 <= List.length (segments st);
  wf_bounded : List.length (segments st) <= totalSegmentsEstimate st;
  wf_audio : Forall (fun s => isSome (audioBuffer s) = true) (segments st);
  wf_order : strictlyAscending (segments st)
}.

Record AppInv (a : App) : Prop := {
  inv_lock : isGeneratingRef a = negb (Nat.eqb (List.length (inflight a)) 0);
  inv_single : List.length (inflight a) <= 1;
  inv_story : forall st, story a = Some st -> wfStory st;
  inv_room : forall st, story a = Some st -> inflight a <> [] ->
             List.length (segments st) < totalSegmentsEstimate st;
  inv_parked : forall i data,
      In {| att_index := i; att_phase := AwaitingAudio data |} (inflight a) ->
      index data = i;
  inv_starting : starting a <> [] -> appState a = GENERATING_INITIAL_SEGMENT;
  inv_one_start : List.length (starting a) <= 1;
  inv_ready : story a <> None ->
              AppState_value READY_TO_PLAY <= AppState_value (appState a) /\
              route a <> None;
  inv_start_route : starting a <> [] -> route a <> None;
  inv_mirror : isBackgroundGenerating a = isGeneratingRef a
}.

(** Two App states that differ at most in the lock and in the list of
    suspended background calls. *)
Definition sameButLock (a a' : App) : Prop :=
  appState a' = appState a /\ route a' = route a /\ story a' = story a /\
  scriptError a' = scriptError a /\ isKeyRequired a' = isKeyRequired a /\
  currentPlayingIndex a' = currentPlayingIndex a /\
  smoothProgress a' = smoothProgress a /\ starting a' = starting a /\
  generationError a' = generationError a /\
  loadingMessage a' = loadingMessage a.

(** A story and a later state of it: same estimate, no fewer chapters. *)
Definition storyGrows (st st' : AudioStory) : Prop :=
  totalSegmentsEstimate st' = totalSegmentsEstimate st /\
  List.length (segments st) <= List.length (segments st').

(** The part that speaks of the refs only. *)
Record RefInv (st : AudioStory) (p : Player) : Prop := {
  rinv_clock :
    forall now, audioContextRef p = Some now -> (startTimeRef p <= now)%Q;
  rinv_offset : (0 <= segmentOffsetRef p)%Q;
  rinv_closure :
    forall src, sourceRef p = Some src -> storyGrows (src_story src) st;
  rinv_running : contextSuspended p = false;
  rinv_unparked : resuming p = []
}.

Record PlayerInv (st : AudioStory) (p : Player) : Prop := {
  pinv_playing :
    isPlaying p = true -> isBuffering p = false ->
    audioContextRef p <> None /\
    currentSegmentIndex p < List.length (segments st);
  pinv_refs : RefInv st p
}.

(** What holds of a mounted player between two events. *)
Record PlayerOK (a : App) (p : Player) : Prop := {
  ok_index : indexRef p = currentSegmentIndex p;
  ok_cursor : currentPlayingIndex a = currentSegmentIndex p;
  ok_inv : forall st, story a = Some st -> PlayerInv st p
}.

Record Inv (w : World) : Prop := {
  inv_app : AppInv (app w);
  inv_visible : forall p, player w = Some p -> playerVisible (app w) = true;
  inv_mounted : playerVisible (app w) = true -> player w <> None;
  inv_player : forall p, player w = Some p -> PlayerOK (app w) p
}.


Record Contiguous (a : App) : Prop := {
  cg_story : forall st, story a = Some st ->
      map index (segments st) = seq 1 (List.length (segments st));
  cg_attempt : forall att, In att (inflight a) ->
      exists st, story a = Some st /\
                 att_index att = List.length (segments st) + 1
}.

(** * What holds after every run

    The part of the invariants that does not depend on when routes arrive
    or on the state of the audio context. *)
Record AppAlways (a : App) : Prop := {
  al_lock : isGeneratingRef a = negb (Nat.eqb (List.length (inflight a)) 0);
  al_single : List.length (inflight a) <= 1;
  al_mirror : isBackgroundGenerating a = isGeneratingRef a;
  al_parked : forall i data,
      In {| att_index := i; att_phase := AwaitingAudio data |} (inflight a) ->
      index data = i;
  al_story : forall st, story a = Some st -> wfStory st;
  al_room : forall st, story a = Some st -> inflight a <> [] ->
            List.length (segments st) < totalSegmentsEstimate st;
  al_first : forall st, story a = Some st ->
             option_map index (hd_error (segments st)) = Some 1;
  al_attempt : forall att, In att (inflight a) -> 2 <= att_index att;
  al_states :
    appState a = PLANNING \/ appState a = GENERATING_INITIAL_SEGMENT \/
    appState a = READY_TO_PLAY
}.

Record Always (w : World) : Prop := {
  al_app : AppAlways (app w);
  al_visible : forall p, player w = Some p -> playerVisible (app w) = true;
  al_mounted : playerVisible (app w) = true -> player w <> None
}.

(** The look-ahead effect passes its own guards: a story and a route are
    set and the page is in [READY_TO_PLAY] or beyond. *)
Definition journeyOpen (a : App) : Prop :=
  story a <> None /\ route a <> None /\
  AppState_value READY_TO_PLAY <= AppState_value (appState a).


(** The completion of a start-up. *)
Definition completesStartup (e : Event) : bool :=
  match e with
  | StartupSettles _ _ => true
  | _ => false
  end.

(** * Landmarks (getFamousLandmarks, generateLandmarkImage) *)

(** What the model call of [getFamousLandmarks] comes back with, the text
    read through [JSON.parse]. *)
Inductive LandmarksReply :=
| LandmarksRequestFails          (* generateContent rejects *)
| LandmarksNoText                (* response.text is undefined or empty *)
| LandmarksMalformed             (* a text that JSON.parse rejects *)
| LandmarksParsed (value : Json). (* a text that JSON.parse accepts, as its value *)

(** The value of the [catch] block. *)
Definition fallbackLandmarks : Json :=
  JArray [JString "Holy Temple"; JString "Historical Gate"; JString "Sacred River"].

Definition getFamousLandmarks (reply : LandmarksReply) : Json :=
  match reply with
  | LandmarksRequestFails => fallbackLandmarks
  | LandmarksMalformed => fallbackLandmarks
  | LandmarksNoText =>
      (* JSON.parse("[]").slice(0, 4) *)
      match sliceTo (JArray []) 4 with
      | Some v => v
      | None => fallbackLandmarks
      end
  | LandmarksParsed value =>
      match sliceTo value 4 with
      | Some v => v
      | None => fallbackLandmarks
      end
  end.

(** What the model call of [generateLandmarkImage] comes back with.  A part
    is given as its [inlineData], if it has one, and that as its [data], if
    it has one. *)
Inductive ImageReply :=
| ImageRequestFails              (* generateContent rejects *)
| NoCandidates                   (* reading candidates[0].content.parts throws *)
| ImageParts (parts : list (option (option string))).

(** A value spliced into a template literal. *)
Definition spliced (v : option string) : string :=
  match v with
  | Some s => s
  | None => "undefined"
  end.

(** The [for] loop over the parts: the first one with inline data wins. *)
Fixpoint firstInlineImage (parts : list (option (option string)))
  : option string :=
  match parts with
  | [] => None
  | Some data :: _ => Some ("data:image/png;base64," ++ spliced data)%string
  | None :: rest => firstInlineImage rest
  end.

Definition generateLandmarkImage (reply : ImageReply) : option string :=
  match reply with
  | ImageParts parts => firstInlineImage parts
  | ImageRequestFails => None
  | NoCandidates => None
  end.

(** The chain on [landmarksPromise] in [handleGenerateStory], once every
    image request has settled: one request per name, in order, the [null]
    results filtered out.  [imageReply k] is what the request for the name
    at position [k] comes back with.  On anything but an array [names.map]
    is no function. *)
Definition landmarkImagesOf (names : Json) (imageReply : nat -> ImageReply)
  : Outcome (list string) :=
  match names with
  | JArray items =>
      let results :=
        map (fun k => generateLandmarkImage (imageReply k))
            (seq 0 (List.length items)) in
      Fulfilled
        (flat_map (fun img => match img with Some s => [s] | None => [] end)
                  results)
  | _ => Thrown "names.map is not a function"
  end.

(** A promise that settles to a given outcome after [ms] milliseconds. *)
Definition settlesAt {T : Type} (ms : N) (o : Outcome T) : Settle T :=
  match o with
  | Fulfilled v => Resolves ms v
  | Thrown msg => Rejects ms msg
  end.

(** A provider promise that has not settled when a timer of [ms]
    milliseconds fires. *)
Definition isLate {T : Type} (p : Settle T) (ms : N) : bool :=
  match p with
  | Resolves t _ => (ms <=? t)%N
  | Rejects t _ => (ms <=? t)%N
  | NeverSettles => true
  end.

(** * What the player shows *)

(** [Math.min(100, (currentSegmentIndex / story.totalSegmentsEstimate) * 100)] *)
Definition progressPercent (st : AudioStory) (p : Player) : Q :=
  Qmin 100
    (inject_Z (Z.of_nat (currentSegmentIndex p))
     / inject_Z (Z.of_nat (totalSegmentsEstimate st)) * 100)%Q.

(** [Math.min(100, (story.segments.length / story.totalSegmentsEstimate) * 100)] *)
Definition bufferPercent (st : AudioStory) : Q :=
  Qmin 100
    (inject_Z (Z.of_nat (List.length (segments st)))
     / inject_Z (Z.of_nat (totalSegmentsEstimate st)) * 100)%Q.

(** The number in the label [Chapter {currentSegmentIndex + 1} / {estimate}]. *)
Definition chapterLabel (p : Player) : nat := currentSegmentIndex p + 1.

(** The overlay [Preparing Chapter...] is rendered. *)
Definition overlayShown (p : Player) : bool := isBuffering p.

(** A source node that has been started and has neither been stopped nor
    played to its end. *)
Definition sounding (p : Player) : bool :=
  match sourceRef p with
  | Some src => negb (src_ended src)
  | None => false
  end.

(** * What the page shows *)

(** [isHeroVisible] *)
Definition isHeroVisible (a : App) : bool :=
  AppState_value (appState a) <? AppState_value READY_TO_PLAY.

(** Past the two early returns, the container of the planner is not
    hidden. *)
Definition plannerShown (a : App) : bool :=
  negb (isKeyRequired a) && negb (scriptError a)
  && negb (AppState_value GENERATING_INITIAL_SEGMENT
           <? AppState_value (appState a)).

(** Past the two early returns, the loading panel is rendered. *)
Definition loadingShown (a : App) : bool :=
  negb (isKeyRequired a) && negb (scriptError a)
  && (AppState_value (appState a)
      =? AppState_value GENERATING_INITIAL_SEGMENT).

(** * The marker of the inline map (InlineMap) *)

(** The first loop of the marker effect: the running total of the leg
    lengths, pushed after every leg.  Distances are exact rationals, and
    the points and [geometry.spherical.computeDistanceBetween] are
    whatever the map library provides. *)
Fixpoint legTotals {Point : Type}
  (computeDistanceBetween : Point -> Point -> Q)
  (totalDistance : Q) (path : list Point) : list Q :=
  match path with
  | a :: ((b :: _) as rest) =>
      let total := (totalDistance + computeDistanceBetween a b)%Q in
      total :: legTotals computeDistanceBetween total rest
  | _ => []
  end.

Definition distancesOf {Point : Type}
  (computeDistanceBetween : Point -> Point -> Q) (path : list Point) : list Q :=
  0%Q :: legTotals computeDistanceBetween 0%Q path.

Definition totalDistanceOf {Point : Type}
  (computeDistanceBetween : Point -> Point -> Q) (path : list Point) : Q :=
  last (distancesOf computeDistanceBetween path) 0%Q.

(** The second loop: the first [i] with
    [distances[i] <= targetDistance <= distances[i+1]]. *)
Fixpoint findSegment (targetDistance : Q) (i : nat) (distances : list Q)
  : option nat :=
  match distances with
  | d0 :: ((d1 :: _) as rest) =>
      if Qle_bool d0 targetDistance && Qle_bool targetDistance d1 then Some i
      else findSegment targetDistance (S i) rest
  | _ => None
  end.

(** The arguments handed to [geometry.interpolate]: the leg, by the
    position of its first point, and the fraction along it. *)
Record MarkerPlacement := {
  segmentIdx : nat;
  segFraction : Q
}.

(** The marker effect for a loaded map with a marker; it returns early on
    an empty path.  A missing [distances[segmentIdx + 1]] makes the
    difference NaN, which [|| 1] replaces like a zero. *)
Definition placeMarker {Point : Type}
  (computeDistanceBetween : Point -> Point -> Q)
  (path : list Point) (smoothProgress : Q) : option MarkerPlacement :=
  match path with
  | [] => None
  | _ :: _ =>
      let progress := clampProgress smoothProgress in
      let distances := distancesOf computeDistanceBetween path in
      let totalDistance := totalDistanceOf computeDistanceBetween path in
      let targetDistance := (totalDistance * progress)%Q in
      let segmentIdx :=
        match findSegment targetDistance 0 distances with
        | Some i => i
        | None => 0
        end in
      let segStartDist := nth segmentIdx distances 0%Q in
      let span :=
        match nth_error distances (S segmentIdx) with
        | Some segEndDist => (segEndDist - segStartDist)%Q
        | None => 0%Q
        end in
      let segFraction :=
        ((targetDistance - segStartDist)
         / (if Qeq_bool span 0 then 1 else span))%Q in
      Some {| segmentIdx := segmentIdx; segFraction := segFraction |}
  end.

(** The distance along the route at which a placement puts the marker. *)
Definition placedAt (distances : list Q) (m : MarkerPlacement) : Q :=
  (nth (segmentIdx m) distances 0
   + segFraction m
     * (nth (S (segmentIdx m)) distances 0 - nth (segmentIdx m) distances 0))%Q.

(** * The route planner (RoutePlanner) *)

Module RoutePlanner.

Inductive TravelMode := TRAIN | FLIGHT | DRIVING.

(** The members of [google.maps.TravelMode] the planner uses. *)
Inductive GoogleTravelMode := GOOGLE_TRANSIT | GOOGLE_DRIVING.

(** The string a member of [TravelMode] is. *)
Definition modeName (m : TravelMode) : string :=
  match m with
  | TRAIN => "TRAIN"
  | FLIGHT => "FLIGHT"
  | DRIVING => "DRIVING"
  end.

(** A directions request whose callback has not run yet, with what the
    callback closes over: the selections of the render in which the button
    was clicked. *)
Record Request := {
  origin : string;
  destination : string;
  googleMode : GoogleTravelMode;
  req_travelMode : TravelMode;
  req_selectedVoice : string;
  req_selectedStyle : StoryStyle;
  req_withFamily : bool;
  req_kidsCount : Z
}.

Record State := {
  startAddress : string;
  endAddress : string;
  travelMode : TravelMode;
  selectedStyle : StoryStyle;
  selectedVoice : string;
  withFamily : bool;
  kidsCount : Z;
  error : option string;
  isLoading : bool;
  (* the value of the two uncontrolled input boxes *)
  startInput : string;
  endInput : string;
  (* directions requests whose callback has not run *)
  pending : list Request
}.

Definition initialState : State :=
  {| startAddress := ""; endAddress := ""; travelMode := TRAIN;
     selectedStyle := GUIDE; selectedVoice := "Kore"; withFamily := true;
     kidsCount := 0%Z; error := None; isLoading := false;
     startInput := ""; endInput := ""; pending := [] |}.

Definition setStartAddress (v : string) (s : State) : State :=
  {| startAddress := v; endAddress := endAddress s; travelMode := travelMode s;
     selectedStyle := selectedStyle s; selectedVoice := selectedVoice s;
     withFamily := withFamily s; kidsCount := kidsCount s; error := error s;
     isLoading := isLoading s; startInput := startInput s;
     endInput := endInput s; pending := pending s |}.

Definition setEndAddress (v : string) (s : State) : State :=
  {| startAddress := startAddress s; endAddress := v; travelMode := travelMode s;
     selectedStyle := selectedStyle s; selectedVoice := selectedVoice s;
     withFamily := withFamily s; kidsCount := kidsCount s; error := error s;
     isLoading := isLoading s; startInput := startInput s;
     endInput := endInput s; pending := pending s |}.

Definition setTravelMode (v : TravelMode) (s : State) : State :=
  {| startAddress := startAddress s; endAddress := endAddress s; travelMode := v;
     selectedStyle := selectedStyle s; selectedVoice := selectedVoice s;
     withFamily := withFamily s; kidsCount := kidsCount s; error := error s;
     isLoading := isLoading s; startInput := startInput s;
     endInput := endInput s; pending := pending s |}.

Definition setSelectedStyle (v : StoryStyle) (s : State) : State :=
  {| startAddress := startAddress s; endAddress := endAddress s;
     travelMode := travelMode s;
     selectedStyle := v; selectedVoice := selectedVoice s;
     withFamily := withFamily s; kidsCount := kidsCount s; error := error s;
     isLoading := isLoading s; startInput := startInput s;
     endInput := endInput s; pending := pending s |}.

Definition setSelectedVoice (v : string) (s : State) : State :=
  {| startAddress := startAddress s; endAddress := endAddress s;
     travelMode := travelMode s;
     selectedStyle := selectedStyle s; selectedVoice := v;
     withFamily := withFamily s; kidsCount := kidsCount s; error := error s;
     isLoading := isLoading s; startInput := startInput s;
     endInput := endInput s; pending := pending s |}.

Definition setWithFamily (v : bool) (s : State) : State :=
  {| startAddress := startAddress s; endAddress := endAddress s;
     travelMode := travelMode s;
     selectedStyle := selectedStyle s; selectedVoice := selectedVoice s;
     withFamily := v; kidsCount := kidsCount s; error := error s;
     isLoading := isLoading s; startInput := startInput s;
     endInput := endInput s; pending := pending s |}.

Definition setKidsCount (v : Z) (s : State) : State :=
  {| startAddress := startAddress s; endAddress := endAddress s;
     travelMode := travelMode s;
     selectedStyle := selectedStyle s; selectedVoice := selectedVoice s;
     withFamily := withFamily s; kidsCount := v; error := error s;
     isLoading := isLoading s; startInput := startInput s;
     endInput := endInput s; pending := pending s |}.

Definition setError (v : option string) (s : State) : State :=
  {| startAddress := startAddress s; endAddress := endAddress s;
     travelMode := travelMode s;
     selectedStyle := selectedStyle s; selectedVoice := selectedVoice s;
     withFamily := withFamily s; kidsCount := kidsCount s; error := v;
     isLoading := isLoading s; startInput := startInput s;
     endInput := endInput s; pending := pending s |}.

Definition setIsLoading (v : bool) (s : State) : State :=
  {| startAddress := startAddress s; endAddress := endAddress s;
     travelMode := travelMode s;
     selectedStyle := selectedStyle s; selectedVoice := selectedVoice s;
     withFamily := withFamily s; kidsCount := kidsCount s; error := error s;
     isLoading := v; startInput := startInput s;
     endInput := endInput s; pending := pending s |}.

Definition setStartInput (v : string) (s : State) : State :=
  {| startAddress := startAddress s; endAddress := endAddress s;
     travelMode := travelMode s;
     selectedStyle := selectedStyle s; selectedVoice := selectedVoice s;
     withFamily := withFamily s; kidsCount := kidsCount s; error := error s;
     isLoading := isLoading s; startInput := v;
     endInput := endInput s; pending := pending s |}.

Definition setEndInput (v : string) (s : State) : State :=
  {| startAddress := startAddress s; endAddress := endAddress s;
     travelMode := travelMode s;
     selectedStyle := selectedStyle s; selectedVoice := selectedVoice s;
     withFamily := withFamily s; kidsCount := kidsCount s; error := error s;
     isLoading := isLoading s; startInput := startInput s;
     endInput := v; pending := pending s |}.

Definition setPending (v : list Request) (s : State) : State :=
  {| startAddress := startAddress s; endAddress := endAddress s;
     travelMode := travelMode s;
     selectedStyle := selectedStyle s; selectedVoice := selectedVoice s;
     withFamily := withFamily s; kidsCount := kidsCount s; error := error s;
     isLoading := isLoading s; startInput := startInput s;
     endInput := endInput s; pending := v |}.

(** [a || b] on strings: the empty string is the falsy one. *)
Definition orElse (a b : string) : string :=
  if String.eqb a "" then b else a.

(** A place picked from the autocomplete list; an absent field is the
    empty string. *)
Record Place := {
  hasLocation : bool;          (* place.geometry && place.geometry.location *)
  formatted_address : string;
  name : string
}.

Inductive Field := StartField | EndField.

(** The [place_changed] listener of one of the two input boxes. *)
Definition placeChanged (which : Field) (place : Place) (s : State) : State :=
  if hasLocation place then
    let address := orElse (formatted_address place) (name place) in
    match which with
    | StartField => setStartInput address (setStartAddress address s)
    | EndField => setEndInput address (setEndAddress address s)
    end
  else s.

Definition isLocked (appState : AppState) : bool :=
  AppState_value ROUTE_CONFIRMED <? AppState_value appState.

(** The negation of the button's [disabled] attribute. *)
Definition calculateEnabled (appState : AppState) (s : State) : bool :=
  negb (isLoading s || isLocked appState
        || String.eqb (startAddress s) "" || String.eqb (endAddress s) "").

(** [handleCalculate], up to the call of the directions service. *)
Definition handleCalculate (s : State) : State :=
  let finalStart := orElse (startInput s) (startAddress s) in
  let finalEnd := orElse (endInput s) (endAddress s) in
  if String.eqb finalStart "" || String.eqb finalEnd "" then
    setError (Some "Please select both locations."%string) s
  else
    let s1 := setIsLoading true (setError None s) in
    let googleMode :=
      match travelMode s with
      | TRAIN => GOOGLE_TRANSIT
      | _ => GOOGLE_DRIVING
      end in
    setPending
      (pending s1 ++
       [ {| origin := finalStart; destination := finalEnd;
            googleMode := googleMode;
            req_travelMode := travelMode s;
            req_selectedVoice := selectedVoice s;
            req_selectedStyle := selectedStyle s;
            req_withFamily := withFamily s;
            req_kidsCount := kidsCount s |} ])
      s1.

(** The first leg of the first route of a directions result. *)
Record Leg := {
  start_address : string;
  end_address : string;
  distance_text : string;
  duration_text : string;
  duration_value : nat
}.

Inductive DirectionsResult :=
| StatusOK (leg : Leg)
| StatusNotOK.

(** The callback handed to the directions service: the new state and the
    argument of [onRouteFound], if it is called. *)
Definition directionsCallback (req : Request) (result : DirectionsResult)
  (s : State) : State * option RouteDetails :=
  let s1 := setIsLoading false s in
  match result with
  | StatusOK leg =>
      (s1,
       Some (Build_RouteDetails
               (start_address leg) (end_address leg)
               (distance_text leg) (duration_text leg) (duration_value leg)
               (modeName (req_travelMode req)) (req_selectedVoice req)
               (req_selectedStyle req) (req_withFamily req)
               (Z.to_nat (req_kidsCount req))))
  | StatusNotOK =>
      (setError (Some "Route not found. Try again."%string) s1, None)
  end.

Inductive Event :=
| Typed (which : Field) (txt : string)
| PlaceChanged (which : Field) (place : Place)
| FamilyClicked (yes : bool)
| KidsMinusClicked
| KidsPlusClicked
| ModeClicked (m : TravelMode)
| VoiceChosen (v : string)
| StyleChosen (v : StoryStyle)
| CalculateClicked
| DirectionsArrive (k : nat) (result : DirectionsResult)
| ExternalError (msg : string).

(** One event of the planner while the page is in [appState]: the new
    state and what is handed to [onRouteFound]; [None] when the event
    cannot occur.  The input boxes, the mode buttons and the two selects
    are disabled while the planner is locked, the kid counter is rendered
    for a family only, and the button is clickable when it is not
    disabled. *)
Definition step (appState : AppState) (s : State) (e : Event)
  : option (State * option RouteDetails) :=
  match e with
  | Typed which txt =>
      if isLocked appState then None
      else
        match which with
        | StartField => Some (setStartInput txt s, None)
        | EndField => Some (setEndInput txt s, None)
        end
  | PlaceChanged which place => Some (placeChanged which place s, None)
  | FamilyClicked yes => Some (setWithFamily yes s, None)
  | KidsMinusClicked =>
      if withFamily s
      then Some (setKidsCount (Z.max 0 (kidsCount s - 1)) s, None)
      else None
  | KidsPlusClicked =>
      if withFamily s
      then Some (setKidsCount (kidsCount s + 1) s, None)
      else None
  | ModeClicked m =>
      if isLocked appState then None else Some (setTravelMode m s, None)
  | VoiceChosen v =>
      if isLocked appState then None else Some (setSelectedVoice v s, None)
  | StyleChosen v =>
      if isLocked appState then None else Some (setSelectedStyle v s, None)
  | CalculateClicked =>
      if calculateEnabled appState s then Some (handleCalculate s, None)
      else None
  | DirectionsArrive k result =>
      match nth_error (pending s) k with
      | Some req =>
          Some (directionsCallback req result
                  (setPending (removeNth k (pending s)) s))
      | None => None
      end
  | ExternalError msg =>
      (* the effect on [externalError]: a falsy value is ignored *)
      if String.eqb msg "" then Some (s, None)
      else Some (setError (Some msg) s, None)
  end.

(** A run of the planner, each event with the page state it occurs in;
    the result carries the routes handed to [onRouteFound], in order. *)
Fixpoint run (s : State) (evs : list (AppState * Event))
  : option (State * list RouteDetails) :=
  match evs with
  | [] => Some (s, [])
  | (appState, e) :: evs' =>
      match step appState s e with
      | Some (s', found) =>
          match run s' evs' with
          | Some (s'', routes) =>
              Some (s'',
                    match found with
                    | Some d => d :: routes
                    | None => routes
                    end)
          | None => None
          end
      | None => None
      end
  end.

(** An event that changes a selection and nothing else. *)
Definition isSelection (e : Event) : bool :=
  match e with
  | FamilyClicked _ | KidsMinusClicked | KidsPlusClicked
  | ModeClicked _ | VoiceChosen _ | StyleChosen _ => true
  | _ => false
  end.

Record Invariant (s : State) : Prop := {
  kids_nonneg : (0 <= kidsCount s)%Z;
  one_request : List.length (pending s) <= 1;
  loading_flag : isLoading s = negb (Nat.eqb (List.length (pending s)) 0);
  endpoints_given :
    forall req, In req (pending s) ->
      origin req <> ""%string /\ destination req <> ""%string
}.

(** The states of the planner between its mounting and its unmounting. *)
Definition reachable (s : State) : Prop :=
  exists evs routes, run initialState evs = Some (s, routes).

(** Two places picked from the autocomplete lists, and the leg between
    them. *)
Definition placeGhat : Place :=
  {| hasLocation := true;
     formatted_address := "Dashashwamedh Ghat, Varanasi";
     name := "Dashashwamedh Ghat" |}.

Definition placeTemple : Place :=
  {| hasLocation := true;
     formatted_address := "";
     name := "Kashi Vishwanath Temple" |}.

Definition sampleLeg : Leg :=
  {| start_address := "Dashashwamedh Ghat, Varanasi, Uttar Pradesh";
     end_address := "Kashi Vishwanath Temple, Varanasi, Uttar Pradesh";
     distance_text := "600 m";
     duration_text := "2 mins";
     duration_value := 90 |}.

(** Both places are picked and one child is counted. *)
Definition filledIn : list (AppState * Event) :=
  [(PLANNING, PlaceChanged StartField placeGhat);
   (PLANNING, PlaceChanged EndField placeTemple);
   (PLANNING, KidsPlusClicked)].

Definition stateFilledIn : State :=
  Eval vm_compute in
    match run initialState filledIn with
    | Some (s, _) => s
    | None => initialState
    end.

(** The minus button is clicked while the counter shows zero. *)
Definition stateAfterMinus : State :=
  Eval vm_compute in
    match run initialState [(PLANNING, KidsMinusClicked)] with
    | Some (s, _) => s
    | None => setKidsCount (-1)%Z initialState
    end.

(** While the route is looked up the listener picks another voice and
    style and counts a second child. *)
Definition changedMind : list (AppState * Event) :=
  [(PLANNING, VoiceChosen "Puck"); (PLANNING, StyleChosen MYTHOLOGY);
   (PLANNING, KidsPlusClicked)].

Definition stateChangedMind : State :=
  Eval vm_compute in
    match run (handleCalculate stateFilledIn) changedMind with
    | Some (s, _) => s
    | None => initialState
    end.

End RoutePlanner.

(** * More invariants of the page *)

(** Facts about the App state besides [AppInv]. *)
Record AppFacts (a : App) : Prop := {
  af_states :
    appState a = PLANNING \/ appState a = GENERATING_INITIAL_SEGMENT \/
    appState a = READY_TO_PLAY;
  af_ready : appState a = READY_TO_PLAY -> story a <> None;
  af_generating : appState a = GENERATING_INITIAL_SEGMENT -> starting a <> [];
  af_estimate :
    forall st r, story a = Some st -> route a = Some r ->
      totalSegmentsEstimate st = calculateTotalSegments (durationSeconds r);
  af_start : forall d, In d (starting a) -> route a = Some d;
  af_first :
    forall st, story a = Some st ->
      option_map index (hd_error (segments st)) = Some 1;
  af_attempt : forall att, In att (inflight a) -> 2 <= att_index att
}.

(** Facts about a mounted player that is shown the story [st]. *)
Record PlayerFacts (st : AudioStory) (p : Player) : Prop := {
  pf_within : currentSegmentIndex p <= List.length (segments st);
  pf_label : currentSegmentIndex p < totalSegmentsEstimate st;
  pf_sounding :
    sounding p = true ->
    isPlaying p = true /\ isBuffering p = false /\
    currentSegmentIndex p < List.length (segments st);
  pf_running : contextSuspended p = false
}.

(** The overlay is up in play mode only for a chapter without audio. *)
Definition overlayDue (st : AudioStory) (p : Player) : Prop :=
  isBuffering p = true -> isPlaying p = true ->
  audioAt st (currentSegmentIndex p) = None.

Record Facts (w : World) : Prop := {
  facts_app : AppFacts (app w);
  facts_player :
    forall p st, player w = Some p -> story (app w) = Some st ->
      PlayerFacts st p /\ overlayDue st p
}.

(** * Runs in which the key check is answered before a journey *)

(** Orderly runs in which the answer of [hasSelectedApiKey], asked for
    when the page loads, arrives while no story is stored. *)
Definition keyCheckIsEarly (w : World) (e : Event) : bool :=
  match e with
  | ApiKeyMissing => negb (isSome (story (app w)))
  | _ => true
  end.

Fixpoint earlyRun (w : World) (evs : list Event) : option World :=
  match evs with
  | [] => Some w
  | e :: evs' =>
      if keyCheckIsEarly w e then
        match orderlyStep w e with
        | Some w' => earlyRun w' evs'
        | None => None
        end
      else None
  end.

Definition earlyReachable (w : World) : Prop :=
  exists evs, earlyRun initialWorld evs = Some w.

(** How far the stored chapters are ahead of the cursor. *)
Record Ahead (a : App) : Prop := {
  ah_bound :
    forall st, story a = Some st ->
      List.length (segments st) <= currentPlayingIndex a + 2;
  ah_inflight :
    forall st, story a = Some st -> inflight a <> [] ->
      List.length (segments st) <= currentPlayingIndex a + 1;
  ah_idle : story a = None -> currentPlayingIndex a = 0
}.

Record LookAhead (w : World) : Prop := {
  la_app : Ahead (app w);
  la_hidden :
    player w = None ->
    scriptError (app w) = true \/ currentPlayingIndex (app w) = 0
}.

(** * Sample inputs and runs *)

Definition sampleRoute : RouteDetails :=
  {| startAddress := "Connaught Place, New Delhi";
     endAddress := "Akshardham, New Delhi";
     distance := "12 km"; duration := "4 mins"; durationSeconds := 200;
     travelMode := "DRIVING"; voiceName := "Kore"; storyStyle := GUIDE;
     withFamily := true; kidsCount := 0 |}.

Definition shortRoute : RouteDetails :=
  {| startAddress := "Dashashwamedh Ghat, Varanasi";
     endAddress := "Kashi Vishwanath Temple, Varanasi";
     distance := "600 m"; duration := "2 mins"; durationSeconds := 90;
     travelMode := "DRIVING"; voiceName := "Puck"; storyStyle := MYTHOLOGY;
     withFamily := false; kidsCount := 0 |}.

(** Twenty seconds of audio at 24 kHz. *)
Definition sampleAudio : AudioBuffer :=
  {| frames := 480000; sampleRate := 24000 |}.

Definition startupOk (firstText : string) : StartupReplies :=
  {| outlineReply := Resolves 900%N ["hint 1"; "hint 2"]%string;
     firstTextReply := Resolves 1500%N firstText;
     firstAudioReply := Resolves 4000%N sampleAudio;
     landmarksReply := Resolves 7000%N [] |}.

(** A journey has started and its second chapter is being generated. *)
Definition journeyStarted : list Event :=
  [RouteFound sampleRoute; StartupSettles 0 (startupOk "chapter one")].

(** A journey is reset while its second chapter is being generated, and
    the next journey is started before that generation has ended. *)
Definition restartDuringGeneration : list Event :=
  journeyStarted ++ [ResetClicked; RouteFound shortRoute].

Definition worldRestarted : World :=
  Eval vm_compute in
    match run initialWorld restartDuringGeneration with
    | Some w => w
    | None => initialWorld
    end.

Definition worldJourneyStarted : World :=
  Eval vm_compute in
    match run initialWorld journeyStarted with
    | Some w => w
    | None => initialWorld
    end.

(** The journey after the text request of its second chapter timed out. *)
Definition secondChapterTimedOut : list Event :=
  journeyStarted ++ [TextSettles 0 (Resolves 75000%N "too late"%string)].

Definition worldSecondChapterTimedOut : World :=
  Eval vm_compute in
    match run initialWorld secondChapterTimedOut with
    | Some w => w
    | None => initialWorld
    end.

(** A two-chapter journey whose second chapter's text request timed out:
    estimate 2, chapters [1], cursor 0, nothing in flight. *)
Definition shortJourneyTimedOut : list Event :=
  [RouteFound shortRoute; StartupSettles 0 (startupOk "chapter one");
   TextSettles 0 NeverSettles].

Definition worldShortJourney : World :=
  Eval vm_compute in
    match run initialWorld shortJourneyTimedOut with
    | Some w => w
    | None => initialWorld
    end.

Definition storyShortJourney : AudioStory :=
  Eval vm_compute in
    match story (app worldShortJourney) with
    | Some st => st
    | None => {| totalSegmentsEstimate := 0; outline := []; segments := [];
                 landmarkImages := [] |}
    end.

(** Chapter 2 has arrived and chapter 3 is being generated. *)
Definition twoChapters : list Event :=
  journeyStarted ++
  [TextSettles 0 (Resolves 2000%N "chapter two"%string);
   AudioSettles 0 (Resolves 5000%N sampleAudio);
   PlayPauseClicked; ClockAdvances 20; SourceEnded].

Definition worldTwoChapters : World :=
  Eval vm_compute in
    match run initialWorld twoChapters with
    | Some w => w
    | None => initialWorld
    end.

Definition storyTwoChapters : AudioStory :=
  Eval vm_compute in
    match story (app worldTwoChapters) with
    | Some st => st
    | None => {| totalSegmentsEstimate := 0; outline := []; segments := [];
                 landmarkImages := [] |}
    end.

(** Chapter 2 is playing, five seconds in. *)
Definition playingSecondChapter : list Event :=
  twoChapters ++ [ClockAdvances 5].

Definition worldPlaying : World :=
  Eval vm_compute in
    match run initialWorld playingSecondChapter with
    | Some w => w
    | None => initialWorld
    end.

Definition playerPlaying : Player :=
  Eval vm_compute in
    match player worldPlaying with
    | Some p => p
    | None => initialPlayer
    end.

(** Chapter 1 has played to its end while chapter 2 is still being
    generated. *)
Definition atFirstBoundary : list Event :=
  journeyStarted ++ [PlayPauseClicked; ClockAdvances 20].

Definition worldAtBoundary : World :=
  Eval vm_compute in
    match run initialWorld atFirstBoundary with
    | Some w => w
    | None => initialWorld
    end.

Definition playerAtBoundary : Player :=
  Eval vm_compute in
    match player worldAtBoundary with
    | Some p => p
    | None => initialPlayer
    end.

Definition storyOneChapter : AudioStory :=
  Eval vm_compute in
    match story (app worldAtBoundary) with
    | Some st => st
    | None => {| totalSegmentsEstimate := 0; outline := []; segments := [];
                 landmarkImages := [] |}
    end.

(** The player starts buffering for chapter 2, the listener pauses, and
    then chapter 2 arrives. *)
Definition pausedWhileBuffering : list Event :=
  atFirstBoundary ++
  [SourceEnded; PlayPauseClicked;
   TextSettles 0 (Resolves 2000%N "chapter two"%string);
   AudioSettles 0 (Resolves 5000%N sampleAudio)].

Definition worldPausedWhileBuffering : World :=
  Eval vm_compute in
    match run initialWorld pausedWhileBuffering with
    | Some w => w
    | None => initialWorld
    end.

Definition playerPausedWhileBuffering : Player :=
  Eval vm_compute in
    match player worldPausedWhileBuffering with
    | Some p => p
    | None => initialPlayer
    end.

(** Both chapters of a two-chapter journey exist and the second one has
    played to its end. *)
Definition atLastBoundary : list Event :=
  [RouteFound shortRoute; StartupSettles 0 (startupOk "chapter one");
   TextSettles 0 (Resolves 2000%N "chapter two"%string);
   AudioSettles 0 (Resolves 5000%N sampleAudio);
   PlayPauseClicked; ClockAdvances 20; SourceEnded; ClockAdvances 20].

Definition worldAtLastBoundary : World :=
  Eval vm_compute in
    match run initialWorld atLastBoundary with
    | Some w => w
    | None => initialWorld
    end.

Definition worldStopped : World :=
  Eval vm_compute in
    match step worldAtLastBoundary SourceEnded with
    | Some w => w
    | None => initialWorld
    end.

(** A reset while the second chapter is still being generated. *)
Definition resetMidGeneration : list Event :=
  journeyStarted ++ [ResetClicked].

Definition worldAfterReset : World :=
  Eval vm_compute in
    match run initialWorld resetMidGeneration with
    | Some w => w
    | None => initialWorld
    end.

(** A journey is reset while the audio of its second chapter is awaited, a
    new two-chapter journey starts, and then the awaited audio arrives. *)
Definition staleCompletion : list Event :=
  [RouteFound sampleRoute;
   StartupSettles 0 (startupOk "old chapter one");
   TextSettles 0 (Resolves 2000%N "old chapter two"%string);
   ResetClicked;
   RouteFound shortRoute;
   StartupSettles 0 (startupOk "new chapter one");
   AudioSettles 0 (Resolves 9000%N sampleAudio)].

Definition worldStaleCompletion : World :=
  Eval vm_compute in
    match run initialWorld staleCompletion with
    | Some w => w
    | None => initialWorld
    end.

(** Chapter 3 of a journey is being generated when the journey is reset;
    a new journey starts and then the audio of that chapter arrives. *)
Definition staleThirdChapter : list Event :=
  [RouteFound sampleRoute;
   StartupSettles 0 (startupOk "old chapter one");
   TextSettles 0 (Resolves 2000%N "old chapter two"%string);
   AudioSettles 0 (Resolves 5000%N sampleAudio);
   PlayPauseClicked; ClockAdvances 20; SourceEnded;
   TextSettles 0 (Resolves 2000%N "old chapter three"%string);
   ResetClicked;
   RouteFound sampleRoute;
   StartupSettles 0 (startupOk "new chapter one");
   AudioSettles 0 (Resolves 9000%N sampleAudio)].

Definition worldWithGap : World :=
  Eval vm_compute in
    match run initialWorld staleThirdChapter with
    | Some w => w
    | None => initialWorld
    end.

Definition storyWithGap : AudioStory :=
  Eval vm_compute in
    match story (app worldWithGap) with
    | Some st => st
    | None => {| totalSegmentsEstimate := 0; outline := []; segments := [];
                 landmarkImages := [] |}
    end.

(** A journey is being started: the start-up is waiting for its replies. *)
Definition worldStarting : World :=
  Eval vm_compute in
    match run initialWorld [RouteFound sampleRoute] with
    | Some w => w
    | None => initialWorld
    end.

(** Start-up replies whose outline request is refused for want of a paid
    key. *)
Definition startupRefused : StartupReplies :=
  {| outlineReply := Rejects 300%N "Requested entity was not found.";
     firstTextReply := NeverSettles;
     firstAudioReply := NeverSettles;
     landmarksReply := NeverSettles |}.

(** Start-up replies whose first audio is not there after 100 seconds. *)
Definition startupSlowAudio : StartupReplies :=
  {| outlineReply := Resolves 900%N ["hint 1"; "hint 2"]%string;
     firstTextReply := Resolves 1500%N "chapter one"%string;
     firstAudioReply := Resolves 120000%N sampleAudio;
     landmarksReply := Resolves 7000%N [] |}.


(** Chapter 1 has ended and the player waits for chapter 2. *)
Definition worldBuffering : World :=
  Eval vm_compute in
    match run initialWorld (atFirstBoundary ++ [SourceEnded]) with
    | Some w => w
    | None => initialWorld
    end.

Definition playerBuffering : Player :=
  Eval vm_compute in
    match player worldBuffering with
    | Some p => p
    | None => initialPlayer
    end.



(** A route along a line, with a leg of length zero in it. *)
Definition samplePath : list Q := [0; 3; 3; 7]%Q.

Definition lineDistance (a b : Q) : Q := Qabs (b - a).

(** Start-up replies in which the answer to the landmark request parses
    to a JSON string. *)
Definition startupStringyLandmarks : StartupReplies :=
  {| outlineReply := Resolves 900%N ["hint 1"; "hint 2"]%string;
     firstTextReply := Resolves 1500%N "chapter one"%string;
     firstAudioReply := Resolves 4000%N sampleAudio;
     landmarksReply :=
       settlesAt 800%N
         (landmarkImagesOf
            (getFamousLandmarks (LandmarksParsed (JString "Kashi")))
            (fun _ => ImageRequestFails)) |}.

(** Chapter 2 arrives while chapter 1 is playing, and chapter 1 plays to
    its end. *)
Definition chapterArrivesWhilePlaying : list Event :=
  journeyStarted ++
  [PlayPauseClicked;
   TextSettles 0 (Resolves 2000%N "chapter two"%string);
   AudioSettles 0 (Resolves 5000%N sampleAudio);
   ClockAdvances 20].

Definition worldEndOfFirst : World :=
  Eval vm_compute in
    match run initialWorld chapterArrivesWhilePlaying with
    | Some w => w
    | None => initialWorld
    end.

Definition playerEndOfFirst : Player :=
  Eval vm_compute in
    match player worldEndOfFirst with
    | Some p => p
    | None => initialPlayer
    end.

Definition sourceEndOfFirst : Source :=
  Eval vm_compute in
    match sourceRef playerEndOfFirst with
    | Some src => src
    | None => {| src_segment := segmentData 0 ""; src_buffer := sampleAudio;
                 src_offset := 0%Q; src_story := storyOneChapter;
                 src_ended := true |}
    end.

(** The text of chapter 2 timed out; chapter 1 is played to its end. *)
Definition playedAfterTimeout : list Event :=
  shortJourneyTimedOut ++ [PlayPauseClicked; ClockAdvances 20].

Definition worldRetryDue : World :=
  Eval vm_compute in
    match run initialWorld playedAfterTimeout with
    | Some w => w
    | None => initialWorld
    end.

Definition playerRetryDue : Player :=
  Eval vm_compute in
    match player worldRetryDue with
    | Some p => p
    | None => initialPlayer
    end.

Definition sourceRetryDue : Source :=
  Eval vm_compute in
    match sourceRef playerRetryDue with
    | Some src => src
    | None => {| src_segment := segmentData 0 ""; src_buffer := sampleAudio;
                 src_offset := 0%Q; src_story := storyShortJourney;
                 src_ended := true |}
    end.

(** The key prompt comes up over a journey whose first chapter is being
    played. *)
Definition keyPromptOverJourney : list Event :=
  journeyStarted ++ [PlayPauseClicked; ClockAdvances 5; ApiKeyMissing].

Definition worldKeyPrompt : World :=
  Eval vm_compute in
    match run initialWorld keyPromptOverJourney with
    | Some w => w
    | None => initialWorld
    end.



(** A second stored audio, thirty seconds long. *)
Definition otherAudio : AudioBuffer := {| frames := 720000; sampleRate := 24000 |}.

(** Chapter 4 of a journey is being generated when the journey is reset.
    A new journey starts, the audio of that chapter arrives and is stored
    behind the new chapter 1; the listener plays chapter 1 to its end, hears
    five seconds of what follows, and pauses. *)
Definition pausedOnOldChapter : list Event :=
  [RouteFound sampleRoute;
   StartupSettles 0 (startupOk "old chapter one");
   TextSettles 0 (Resolves 2000%N "old chapter two"%string);
   AudioSettles 0 (Resolves 5000%N sampleAudio);
   PlayPauseClicked; ClockAdvances 20; SourceEnded;
   TextSettles 0 (Resolves 2000%N "old chapter three"%string);
   AudioSettles 0 (Resolves 5000%N sampleAudio);
   ClockAdvances 20; SourceEnded;
   TextSettles 0 (Resolves 2000%N "old chapter four"%string);
   ResetClicked;
   RouteFound sampleRoute;
   StartupSettles 0 (startupOk "new chapter one");
   AudioSettles 0 (Resolves 9000%N sampleAudio);
   PlayPauseClicked; ClockAdvances 20; SourceEnded;
   ClockAdvances 5].

Definition worldOnOldChapter : World :=
  Eval vm_compute in
    match run initialWorld pausedOnOldChapter with
    | Some w => w
    | None => initialWorld
    end.

Definition playerOnOldChapter : Player :=
  Eval vm_compute in
    match player worldOnOldChapter with
    | Some p => p
    | None => initialPlayer
    end.

Definition sourceOnOldChapter : Source :=
  Eval vm_compute in
    match sourceRef playerOnOldChapter with
    | Some src => src
    | None => {| src_segment := segmentData 0 ""; src_buffer := sampleAudio;
                 src_offset := 0%Q; src_story := storyOneChapter;
                 src_ended := true |}
    end.

(** While the player is paused, chapter 3 of the new journey arrives. *)
Definition thirdChapterArrives : list Event :=
  [TextSettles 0 (Resolves 2000%N "new chapter three"%string);
   AudioSettles 0 (Resolves 5000%N otherAudio)].

Definition worldPausedOnOld : World :=
  Eval vm_compute in
    match step worldOnOldChapter PlayPauseClicked with
    | Some w => w
    | None => initialWorld
    end.

Definition playerPausedOnOld : Player :=
  Eval vm_compute in
    match player worldPausedOnOld with
    | Some p => p
    | None => initialPlayer
    end.

Definition worldDisplaced : World :=
  Eval vm_compute in
    match run worldPausedOnOld thirdChapterArrives with
    | Some w => w
    | None => initialWorld
    end.

Definition worldResumedOnNew : World :=
  Eval vm_compute in
    match step worldDisplaced PlayPauseClicked with
    | Some w => w
    | None => initialWorld
    end.

Definition playerResumedOnNew : Player :=
  Eval vm_compute in
    match player worldResumedOnNew with
    | Some p => p
    | None => initialPlayer
    end.

Definition sourceResumedOnNew : Source :=
  Eval vm_compute in
    match sourceRef playerResumedOnNew with
    | Some src => src
    | None => {| src_segment := segmentData 0 ""; src_buffer := sampleAudio;
                 src_offset := 0%Q; src_story := storyOneChapter;
                 src_ended := true |}
    end.










(** While the player is paused in the middle of chapter 2, time passes,
    a frame is drawn and chapter 3 arrives. *)
Definition arrivalWhilePaused : list Event :=
  [ClockAdvances 3; AnimationFrame;
   TextSettles 0 (Resolves 2000%N "chapter three"%string);
   AudioSettles 0 (Resolves 5000%N otherAudio);
   ClockAdvances 1].

(** What goes on around a paused player: time passes, a frame is drawn,
    the reply to a generation request arrives. *)
Definition whilePaused (e : Event) : bool :=
  match e with
  | ClockAdvances _ | AnimationFrame | TextSettles _ _ | AudioSettles _ _ => true
  | _ => false
  end.

(** The page holds a player paused at position [c] with offset [off], and
    the story holds [seg] at that position. *)
Definition pausedAt (c : nat) (off : Q) (seg : StorySegment) (w : World)
  : Prop :=
  exists q st,
    player w = Some q /\ story (app w) = Some st /\
    isPlaying q = false /\ isBuffering q = false /\ sourceRef q = None /\
    segmentOffsetRef q = off /\ currentSegmentIndex q = c /\
    audioContextRef q <> None /\
    nth_error (segments st) c = Some seg.

(** * Properties of the sort and of the guarded insert *)

Lemma insertByIndex_perm (x : StorySegment) (l : list StorySegment) :
  Permutation (x :: l) (insertByIndex x l).
Proof.
  induction l as [|y l IH]; simpl.
  - apply Permutation_refl.
  - destruct (index x <=? index y).
    + apply Permutation_refl.
    + eapply perm_trans; [apply perm_swap|].
      apply perm_skip, IH.
Qed.

Lemma sortByIndex_perm (l : list StorySegment) :
  Permutation l (sortByIndex l).
Proof.
  induction l as [|x l IH]; simpl.
  - apply perm_nil.
  - eapply perm_trans; [apply perm_skip, IH|].
    apply insertByIndex_perm.
Qed.

Lemma sortByIndex_length (l : list StorySegment) :
  List.length (sortByIndex l) = List.length l.
Proof. symmetry. apply Permutation_length, sortByIndex_perm. Qed.

Lemma insertByIndex_ascending (x : StorySegment) (l : list StorySegment) :
  ascending l -> ascending (insertByIndex x l).
Proof.
  unfold ascending.
  induction l as [|y l IH]; simpl; intros Hs.
  - repeat constructor.
  - destruct (index x <=? index y) eqn:E.
    + apply Nat.leb_le in E. constructor; [assumption|]. constructor. exact E.
    + apply Nat.leb_gt in E.
      inversion Hs as [|? ? Hs' Hhd]; subst.
      constructor; [apply IH, Hs'|].
      destruct l as [|z l]; simpl.
      * constructor. lia.
      * destruct (index x <=? index z); constructor.
        -- lia.
        -- inversion Hhd; subst. assumption.
Qed.

Lemma sortByIndex_ascending (l : list StorySegment) :
  ascending (sortByIndex l).
Proof.
  induction l as [|x l IH]; simpl.
  - constructor.
  - apply insertByIndex_ascending, IH.
Qed.

Lemma ascending_NoDup_strict (l : list StorySegment) :
  ascending l -> NoDup (map index l) -> strictlyAscending l.
Proof.
  unfold ascending, strictlyAscending.
  intros Hs Hnd.
  apply Sorted_StronglySorted.
  { intros a b c; lia. }
  induction l as [|x l IH]; simpl.
  - constructor.
  - inversion Hs as [|? ? Hs' Hhd]; subst.
    inversion Hnd as [|? ? Hnotin Hnd']; subst.
    constructor; [apply IH; assumption|].
    destruct l as [|y l]; simpl; constructor.
    inversion Hhd; subst.
    assert (index x <> index y) by (intros E; apply Hnotin; left; auto).
    lia.
Qed.

Lemma strictlyAscending_NoDup (l : list StorySegment) :
  strictlyAscending l -> NoDup (map index l).
Proof.
  unfold strictlyAscending.
  induction (map index l) as [|i rest IH]; intros Hs.
  - constructor.
  - inversion Hs as [|? ? Hs' Hall]; subst.
    constructor; [|apply IH, Hs'].
    intros Hin. rewrite Forall_forall in Hall.
    specialize (Hall _ Hin). lia.
Qed.

Lemma hasIndex_false_notin (i : nat) (l : list StorySegment) :
  hasIndex i l = false -> ~ In i (map index l).
Proof.
  unfold hasIndex. intros H Hin.
  apply in_map_iff in Hin. destruct Hin as [s [Hs Hin]].
  assert (existsb (fun s => index s =? i) l = true) as E.
  { apply existsb_exists. exists s. split; [assumption|].
    apply Nat.eqb_eq. assumption. }
  congruence.
Qed.

Lemma hasIndex_true_in (i : nat) (l : list StorySegment) :
  hasIndex i l = true -> In i (map index l).
Proof.
  unfold hasIndex. intros H.
  apply existsb_exists in H. destruct H as [s [Hin E]].
  apply Nat.eqb_eq in E. subst. apply in_map. assumption.
Qed.

(** Appending a chapter with a fresh index and sorting keeps the indices
    strictly ascending. *)
Lemma sorted_insert_strict (seg : StorySegment) (l : list StorySegment) :
  strictlyAscending l ->
  hasIndex (index seg) l = false ->
  strictlyAscending (sortByIndex (l ++ [seg])).
Proof.
  intros Hs Hfresh.
  apply ascending_NoDup_strict.
  - apply sortByIndex_ascending.
  - eapply Permutation_NoDup.
    + apply Permutation_map, sortByIndex_perm.
    + rewrite map_app. simpl.
      eapply Permutation_NoDup; [apply Permutation_cons_append|].
      constructor.
      * apply hasIndex_false_notin. assumption.
      * apply strictlyAscending_NoDup. assumption.
Qed.

Lemma insertByIndex_head (x : StorySegment) (l : list StorySegment) :
  Forall (fun y => index x <= index y) l ->
  insertByIndex x l = x :: l.
Proof.
  destruct 1 as [|y l Hy _]; simpl.
  - reflexivity.
  - assert ((index x <=? index y) = true) as -> by (apply Nat.leb_le; lia).
    reflexivity.
Qed.

(** * Invariants of the App state *)

Lemma calculateTotalSegments_range (d : nat) :
  2 <= calculateTotalSegments d <= 4.
Proof. unfold calculateTotalSegments. lia. Qed.

Lemma replaceNth_length {A : Type} (k : nat) (v : A) (l : list A) :
  List.length (replaceNth k v l) = List.length l.
Proof.
  revert l. induction k as [|k IH]; intros [|y l]; simpl; auto.
Qed.

Lemma initialApp_inv : AppInv initialApp.
Proof.
  constructor; simpl; try reflexivity; try lia; try discriminate; congruence.
Qed.

Lemma sameButLock_refl (a : App) : sameButLock a a.
Proof. unfold sameButLock; tauto. Qed.

Lemma generateNextSegment_frame (i : nat) (a : App) :
  sameButLock a (generateNextSegment i a).
Proof.
  unfold generateNextSegment.
  destruct (route a), (story a); try apply sameButLock_refl.
  destruct (isGeneratingRef a); try apply sameButLock_refl.
  unfold sameButLock; simpl; tauto.
Qed.

Lemma schedulerEffect_frame (a : App) : sameButLock a (schedulerEffect a).
Proof.
  unfold schedulerEffect.
  destruct (schedulerTrigger a).
  - apply generateNextSegment_frame.
  - apply sameButLock_refl.
Qed.

Lemma schedulerTrigger_some (a : App) (i : nat) :
  schedulerTrigger a = Some i ->
  exists st, story a = Some st /\ route a <> None /\
    AppState_value READY_TO_PLAY <= AppState_value (appState a) /\
    i = List.length (segments st) + 1 /\
    List.length (segments st) < currentPlayingIndex a + 2 /\
    List.length (segments st) < totalSegmentsEstimate st /\
    isGeneratingRef a = false.
Proof.
  unfold schedulerTrigger.
  destruct (story a) as [st|]; [|discriminate].
  destruct (route a); [|discriminate].
  destruct (AppState_value (appState a) <? AppState_value READY_TO_PLAY) eqn:E1;
    [discriminate|].
  destruct (List.length (segments st) <? currentPlayingIndex a + 2) eqn:E2;
    simpl; [|discriminate].
  destruct (List.length (segments st) <? totalSegmentsEstimate st) eqn:E3;
    simpl; [|discriminate].
  destruct (isGeneratingRef a) eqn:E4; simpl; [discriminate|].
  intros H; inversion H; subst.
  apply Nat.ltb_ge in E1. apply Nat.ltb_lt in E2. apply Nat.ltb_lt in E3.
  exists st. repeat split; auto. discriminate.
Qed.

Lemma schedulerEffect_inv (a : App) : AppInv a -> AppInv (schedulerEffect a).
Proof.
  intros H. unfold schedulerEffect.
  destruct (schedulerTrigger a) as [i|] eqn:T; [|assumption].
  apply schedulerTrigger_some in T.
  destruct T as [st [Hst [Hr [_ [_ [_ [Hroom Hfree]]]]]]].
  unfold generateNextSegment. rewrite Hst.
  destruct (route a); [|congruence].
  rewrite Hfree.
  pose proof (inv_lock H) as Hl. rewrite Hfree in Hl.
  assert (inflight a = []) as Hnil.
  { destruct (inflight a); [reflexivity|simpl in Hl; discriminate]. }
  destruct H. constructor; simpl; rewrite ?Hnil; simpl; auto.
  - intros st' Hst' _. rewrite Hst in Hst'. inversion Hst'; subst. exact Hroom.
  - intros j data [E|[]]. discriminate.
Qed.

Lemma onSegmentChange_inv (i : nat) (a : App) :
  AppInv a -> AppInv (onSegmentChange i a).
Proof.
  intros H. unfold onSegmentChange.
  destruct (i =? currentPlayingIndex a); [assumption|].
  apply schedulerEffect_inv. destruct H. constructor; simpl; auto.
Qed.

Lemma handleGenerateStory_inv (d : RouteDetails) (a : App) :
  AppInv a -> plannerEnabled a = true -> AppInv (handleGenerateStory d a).
Proof.
  intros [H1 H2 H3 H4 Hp H5 H6 H7 H8 H9] Hen.
  assert (starting a = []) as Hnil.
  { destruct (starting a) eqn:E; [reflexivity|].
    assert (appState a = GENERATING_INITIAL_SEGMENT) as Hg
      by (apply H5; discriminate).
    unfold plannerEnabled in Hen. rewrite Hg in Hen. simpl in Hen.
    rewrite andb_false_r in Hen. discriminate. }
  assert (story a = None) as Hns.
  { destruct (story a) eqn:E; [|reflexivity].
    destruct H7 as [Hr _]; [discriminate|].
    unfold plannerEnabled in Hen.
    apply andb_prop in Hen. destruct Hen as [_ Hen].
    apply negb_true_iff, Nat.ltb_ge in Hen. simpl in *. lia. }
  constructor; simpl; auto.
  - rewrite Hnil. simpl. lia.
  - congruence.
  - discriminate.
Qed.

Lemma startupOutcome_wf (d : RouteDetails) (r : StartupReplies) (st : AudioStory) :
  startupOutcome d r = Some (Fulfilled st) ->
  wfStory st /\ List.length (segments st) = 1 /\ map index (segments st) = [1].
Proof.
  unfold startupOutcome.
  destruct (withTimeout (outlineReply r) _ _); [|discriminate].
  destruct (withTimeout (firstTextReply r) _ _); [|discriminate].
  destruct (withTimeout (firstAudioReply r) _ _); [|discriminate].
  destruct (landmarksReply r); try discriminate.
  intros H; inversion H; subst; clear H.
  pose proof (calculateTotalSegments_range (durationSeconds d)) as Hr.
  split; [|split; reflexivity].
  constructor; simpl; try lia.
  - repeat constructor.
  - unfold strictlyAscending; simpl. repeat constructor.
Qed.

Lemma nth_error_single {A : Type} (k : nat) (l : list A) (x : A) :
  List.length l <= 1 -> nth_error l k = Some x -> l = [x] /\ removeNth k l = [].
Proof.
  destruct l as [|y [|z l]]; simpl; intros Hl Hk.
  - destruct k; discriminate.
  - destruct k as [|k]; simpl in *.
    + inversion Hk; subst. auto.
    + destruct k; discriminate.
  - lia.
Qed.

Lemma resumeStartup_inv (k : nat) (r : StartupReplies) (a a' : App) :
  AppInv a -> resumeStartup k r a = Some a' -> AppInv a'.
Proof.
  intros H. unfold resumeStartup.
  destruct (nth_error (starting a) k) as [d|] eqn:Hk; [|discriminate].
  destruct (nth_error_single _ _ (inv_one_start H) Hk) as [Hone Hrm].
  destruct H as [H1 H2 H3 H4 Hp H5 H6 H7 H8 H9].
  assert (starting a <> []) as Hne by (rewrite Hone; discriminate).
  assert (story a = None) as Hns.
  { destruct (story a) eqn:E; [|reflexivity].
    destruct H7 as [Hr _]; [discriminate|].
    rewrite (H5 Hne) in Hr. simpl in Hr. lia. }
  destruct (startupOutcome d r) as [[st|m]|] eqn:Ho; [| |discriminate].
  - settled.
    apply startupOutcome_wf in Ho. destruct Ho as [Hwf [Hlen _]].
    constructor; simpl; rewrite ?Hrm; simpl; auto; try congruence.
    intros st' E _; inversion E; subst.
    pose proof (wf_estimate Hwf). lia.
  - destruct (includes m _); settled;
      constructor; simpl; rewrite ?Hrm; simpl; auto; congruence.
Qed.

Lemma resumeAfterText_inv (k : nat) (reply : Settle string) (a a' : App) :
  AppInv a -> resumeAfterText k reply a = Some a' -> AppInv a'.
Proof.
  intros H. unfold resumeAfterText.
  destruct (nth_error (inflight a) k) as [[i [|data]]|] eqn:Hk; try discriminate.
  destruct (nth_error_single _ _ (inv_single H) Hk) as [Hone Hrm].
  destruct H as [H1 H2 H3 H4 Hp H5 H6 H7 H8 H9].
  destruct (withTimeout reply _ _);
    settled;
    constructor; simpl; rewrite ?Hrm, ?replaceNth_length; simpl; auto;
    try congruence; try tauto.
  - intros st Hst _. apply (H4 st Hst). rewrite Hone. discriminate.
  - rewrite Hone. destruct k; simpl.
    + intros j data [E|[]]. inversion E; subst. reflexivity.
    + intros j data [E|Hin]; [discriminate|].
      destruct k; simpl in Hin; destruct Hin.
Qed.

Lemma insertChapter_wf (i : nat) (seg : StorySegment) (st st' : AudioStory) :
  wfStory st ->
  index seg = i ->
  isSome (audioBuffer seg) = true ->
  List.length (segments st) < totalSegmentsEstimate st ->
  insertChapter i seg (Some st) = Some st' ->
  wfStory st' /\
  totalSegmentsEstimate st' = totalSegmentsEstimate st /\
  List.length (segments st) <= List.length (segments st').
Proof.
  intros Hwf Hi Ha Hroom. unfold insertChapter.
  destruct (hasIndex i (segments st)) eqn:Hh; settled.
  - auto.
  - destruct Hwf as [W1 W2 W3 W4 W5].
    split; [|split]; simpl; rewrite ?sortByIndex_length, ?length_app; simpl;
      try lia.
    constructor; simpl; rewrite ?sortByIndex_length, ?length_app; simpl;
      try lia.
    + eapply Permutation_Forall; [apply sortByIndex_perm|].
      apply Forall_app. split; [assumption|]. constructor; [assumption|constructor].
    + apply sorted_insert_strict; assumption.
Qed.

Lemma sortByIndex_keeps_first (first seg : StorySegment)
  (rest : list StorySegment) :
  strictlyAscending (first :: rest) ->
  index first <= index seg ->
  hd_error (sortByIndex ((first :: rest) ++ [seg])) = Some first.
Proof.
  unfold strictlyAscending. simpl. intros Hs Hle.
  inversion Hs as [|? ? _ Hall]; subst.
  rewrite insertByIndex_head; [reflexivity|].
  eapply Permutation_Forall; [apply sortByIndex_perm|].
  apply Forall_app. split.
  - apply Forall_forall. intros y Hy.
    rewrite Forall_forall in Hall.
    assert (index first < index y) by (apply Hall, in_map, Hy). lia.
  - constructor; [exact Hle|constructor].
Qed.

Lemma insertChapter_first (i : nat) (seg : StorySegment) (st st' : AudioStory) :
  strictlyAscending (segments st) ->
  option_map index (hd_error (segments st)) = Some 1 ->
  1 <= index seg ->
  insertChapter i seg (Some st) = Some st' ->
  option_map index (hd_error (segments st')) = Some 1 /\
  totalSegmentsEstimate st' = totalSegmentsEstimate st.
Proof.
  intros Hs Hfirst Hseg. unfold insertChapter.
  destruct (hasIndex i (segments st)); settled; [auto|].
  simpl. split; [|reflexivity].
  destruct (segments st) as [|first rest]; [discriminate|].
  simpl in Hfirst. injection Hfirst as Hone.
  rewrite sortByIndex_keeps_first; simpl; auto. lia.
Qed.

Lemma resumeAfterAudio_inv (k : nat) (reply : Settle AudioBuffer)
  (a a' : App) (b : bool) :
  AppInv a -> resumeAfterAudio k reply a = Some (a', b) -> AppInv a'.
Proof.
  intros H. unfold resumeAfterAudio.
  destruct (nth_error (inflight a) k) as [[i [|data]]|] eqn:Hk; try discriminate.
  destruct (nth_error_single _ _ (inv_single H) Hk) as [Hone Hrm].
  destruct H as [H1 H2 H3 H4 Hp H5 H6 H7 H8 H9].
  assert (index data = i) as Hdata.
  { apply Hp. rewrite Hone. left. reflexivity. }
  destruct (withTimeout reply _ _) as [buf|m];
    settled.
  - constructor; simpl; rewrite ?Hrm; simpl; auto; try congruence; try tauto.
    + intros st' Hst'.
      destruct (story a) as [st|] eqn:Hst; [|discriminate].
      eapply insertChapter_wf; [apply (H3 st eq_refl)| | | |exact Hst'].
      * reflexivity.
      * reflexivity.
      * apply (H4 st eq_refl). rewrite Hone. discriminate.
    + intros Hsome. apply H7.
      destruct (story a); [discriminate|]. simpl in Hsome. congruence.
  - constructor; simpl; rewrite ?Hrm; simpl; auto; try congruence; tauto.
Qed.

Lemma playerVisible_spec (a : App) :
  playerVisible a = true ->
  isKeyRequired a = false /\ scriptError a = false /\
  AppState_value READY_TO_PLAY <= AppState_value (appState a) /\
  story a <> None /\ route a <> None.
Proof.
  unfold playerVisible. intros H.
  repeat (apply andb_prop in H; destruct H as [H ?]).
  apply Nat.leb_le in H2.
  destruct (isKeyRequired a), (scriptError a), (story a), (route a);
    simpl in *; try discriminate.
  repeat split; auto; discriminate.
Qed.

Lemma visible_no_startup (a : App) :
  AppInv a -> playerVisible a = true -> starting a = [].
Proof.
  intros H Hv. apply playerVisible_spec in Hv.
  destruct Hv as [_ [_ [Hready _]]].
  destruct (starting a) eqn:E; [reflexivity|].
  assert (appState a = GENERATING_INITIAL_SEGMENT) as Hg
    by (apply (inv_starting H); rewrite E; discriminate).
  rewrite Hg in Hready. simpl in Hready. lia.
Qed.

Lemma handleReset_inv (a : App) :
  AppInv a -> playerVisible a = true -> AppInv (handleReset a).
Proof.
  intros H Hv. pose proof (visible_no_startup H Hv) as Hnil.
  destruct H as [H1 H2 H3 H4 Hp H5 H6 H7 H8 H9].
  constructor; simpl; auto; try discriminate; congruence.
Qed.

Lemma setIsKeyRequired_inv (v : bool) (a : App) :
  AppInv a -> AppInv (setIsKeyRequired v a).
Proof. intros [H1 H2 H3 H4 Hp H5 H6 H7 H8 H9]. constructor; simpl; auto. Qed.

Lemma setScriptError_inv (v : bool) (a : App) :
  AppInv a -> AppInv (setScriptError v a).
Proof. intros [H1 H2 H3 H4 Hp H5 H6 H7 H8 H9]. constructor; simpl; auto. Qed.

Lemma setSmoothProgress_inv (v : Q) (a : App) :
  AppInv a -> AppInv (setSmoothProgress v a).
Proof. intros [H1 H2 H3 H4 Hp H5 H6 H7 H8 H9]. constructor; simpl; auto. Qed.

(** * Invariants of the player *)

Lemma storyGrows_refl (st : AudioStory) : storyGrows st st.
Proof. split; [reflexivity|apply Nat.le_refl]. Qed.

Lemma storyGrows_trans (st1 st2 st3 : AudioStory) :
  storyGrows st1 st2 -> storyGrows st2 st3 -> storyGrows st1 st3.
Proof. unfold storyGrows. intros [E1 L1] [E2 L2]. split; [congruence|lia]. Qed.

Lemma initialPlayer_inv (st : AudioStory) : PlayerInv st initialPlayer.
Proof.
  constructor; [|constructor]; simpl; try discriminate; reflexivity.
Qed.

Lemma PlayerInv_grow (st st' : AudioStory) (p : Player) :
  storyGrows st st' ->
  PlayerInv st p -> PlayerInv st' p.
Proof.
  intros Hle [P1 [P2 P3 P4 P5 P6]]. constructor; [|constructor]; auto.
  - intros Hp Hb. destruct (P1 Hp Hb). destruct Hle.
    split; [assumption|lia].
  - intros src Hs. eapply storyGrows_trans; [apply P4; exact Hs|exact Hle].
Qed.

Lemma nth_error_length {A : Type} (l : list A) (n : nat) (x : A) :
  nth_error l n = Some x -> n < List.length l.
Proof. intros H. apply nth_error_Some. congruence. Qed.

(** The handlers of the player keep its invariant, for a player that is
    shown the story [st]. *)
Section PlayerHandlers.

Variable st : AudioStory.

Lemma playSegment_inv (closure : AudioStory) (seg : StorySegment)
  (offset : Q) (p : Player) :
  storyGrows closure st ->
  RefInv st p ->
  (0 <= offset)%Q ->
  (isSome (audioBuffer seg) = true ->
   currentSegmentIndex p < List.length (segments st)) ->
  PlayerInv st (playSegment closure seg offset p).
Proof.
  intros Hcl [P2 P3 P4 P5 P6] Hoff Hidx. unfold playSegment.
  destruct (audioBuffer seg) as [buf|] eqn:Hb.
  - cbn [contextSuspended setAudioContext]. rewrite P5.
    constructor; [|constructor]; simpl; auto.
    + intros _ _. split; [discriminate|]. apply Hidx. reflexivity.
    + intros now E. inversion E; subst; clear E.
      destruct (audioContextRef p) as [t|]; lra.
    + intros src E. inversion E; subst; simpl. exact Hcl.
  - constructor; [|constructor]; simpl; auto. discriminate.
Qed.

Lemma bufferingEffect_inv (p : Player) :
  PlayerInv st p -> PlayerInv st (bufferingEffect st p).
Proof.
  intros H. unfold bufferingEffect.
  destruct (nth_error (segments st) (currentSegmentIndex p)) as [seg|] eqn:Hn;
    [|assumption].
  destruct (isBuffering p && isPlaying p && isSome (audioBuffer seg));
    [|assumption].
  apply playSegment_inv.
  - apply storyGrows_refl.
  - destruct H as [_ [P2 P3 P4 P5 P6]]. constructor; simpl; auto.
  - lra.
  - intros _. simpl. eapply nth_error_length; eassumption.
Qed.

Lemma togglePlayback_inv (p : Player) :
  PlayerInv st p -> PlayerInv st (togglePlayback st p).
Proof.
  intros H. unfold togglePlayback.
  destruct (isPlaying p) eqn:Hp.
  - destruct H as [P1 [P2 P3 P4 P5 P6]].
    destruct (audioContextRef p) as [now|] eqn:Hc.
    + destruct (isBuffering p) eqn:Hb; simpl;
        (constructor; [|constructor]); simpl; try discriminate; auto;
        try (rewrite Hc; assumption).
      * specialize (P2 now eq_refl). lra.
    + constructor; [|constructor]; simpl; try discriminate; auto.
      rewrite Hc. assumption.
  - destruct (nth_error (segments st) (currentSegmentIndex p)) as [seg|] eqn:Hn.
    + destruct (isSome (audioBuffer seg)) eqn:Ha.
      * assert (PlayerInv st (playSegment st seg (segmentOffsetRef (setIsPlaying true p))
                  (setIsBuffering false (setIsPlaying true p)))) as Hq.
        { apply playSegment_inv.
          - apply storyGrows_refl.
          - destruct H as [_ [P2 P3 P4 P5 P6]]. constructor; simpl; auto.
          - simpl. apply (rinv_offset (pinv_refs H)).
          - intros _. simpl. eapply nth_error_length; eassumption. }
        destruct Hq as [Q1 [Q2 Q3 Q4 Q5 Q6]].
        constructor; [|constructor]; simpl; auto.
      * destruct H as [_ [P2 P3 P4 P5 P6]].
        constructor; [|constructor]; simpl; auto; discriminate.
    + destruct H as [_ [P2 P3 P4 P5 P6]].
      constructor; [|constructor]; simpl; auto; discriminate.
Qed.

Lemma handleSegmentEnd_inv (closure : AudioStory) (p : Player) :
  storyGrows closure st ->
  PlayerInv st p -> PlayerInv st (handleSegmentEnd closure p).
Proof.
  intros Hcl H. unfold handleSegmentEnd.
  destruct ((indexRef p + 1 <? totalSegmentsEstimate closure)
            || isSome (nth_error (segments closure) (indexRef p + 1))).
  - destruct (nth_error (segments closure) (indexRef p + 1)) as [next|] eqn:Hn.
    + destruct (isSome (audioBuffer next)).
      * apply playSegment_inv; auto.
        -- destruct H as [_ [P2 P3 P4 P5 P6]]. constructor; simpl; auto. lra.
        -- lra.
        -- intros _. simpl. apply nth_error_length in Hn.
           destruct Hcl. lia.
      * destruct H as [_ [P2 P3 P4 P5 P6]].
        constructor; [|constructor]; simpl; auto; try discriminate; lra.
    + destruct H as [_ [P2 P3 P4 P5 P6]].
      constructor; [|constructor]; simpl; auto; try discriminate; lra.
  - destruct H as [_ [P2 P3 P4 P5 P6]].
    constructor; [|constructor]; simpl; auto; discriminate.
Qed.

Lemma markEnded_inv (p : Player) (src : Source) :
  sourceRef p = Some src ->
  PlayerInv st p -> PlayerInv st (setSource (Some (markEnded src)) p).
Proof.
  intros Hs [P1 [P2 P3 P4 P5 P6]].
  constructor; [|constructor]; simpl; auto.
  intros src' E. inversion E; subst; simpl. apply P4. assumption.
Qed.

Lemma onended_inv (p : Player) (src : Source) :
  storyGrows (src_story src) st ->
  PlayerInv st p -> PlayerInv st (onended src p).
Proof.
  intros Hcl H. unfold onended.
  destruct (audioContextRef p); [|assumption].
  destruct (Qle_bool _ _); [|assumption].
  apply handleSegmentEnd_inv; assumption.
Qed.

Lemma syncIndexRef_inv (p : Player) :
  PlayerInv st p -> PlayerInv st (syncIndexRef p).
Proof.
  intros [P1 [P2 P3 P4 P5 P6]]. constructor; [|constructor]; simpl; auto.
Qed.

Lemma advanceClock_inv (dt : Q) (p : Player) :
  (0 <= dt)%Q -> PlayerInv st p -> PlayerInv st (advanceClock dt p).
Proof.
  intros Hdt H. unfold advanceClock.
  destruct (audioContextRef p) as [now|] eqn:Hc; [|assumption].
  destruct (contextSuspended p) eqn:Hsus; [assumption|].
  destruct H as [P1 [P2 P3 P4 P5 P6]].
  constructor; [|constructor]; simpl; auto.
  - intros Hp Hb. destruct (P1 Hp Hb). split; [discriminate|assumption].
  - intros t E. inversion E; subst. specialize (P2 now Hc). lra.
Qed.

End PlayerHandlers.

(** * The invariant of the whole page *)

Lemma sameButLock_visible (a a' : App) :
  sameButLock a a' -> playerVisible a' = playerVisible a.
Proof.
  unfold sameButLock, playerVisible.
  intros [E1 [E2 [E3 [E4 [E5 _]]]]]. rewrite E1, E2, E3, E4, E5. reflexivity.
Qed.

Lemma schedulerEffect_story (a : App) : story (schedulerEffect a) = story a.
Proof. destruct (schedulerEffect_frame a) as [_ [_ [E _]]]. exact E. Qed.

Lemma schedulerEffect_visible (a : App) :
  playerVisible (schedulerEffect a) = playerVisible a.
Proof. apply sameButLock_visible, schedulerEffect_frame. Qed.

Lemma schedulerEffect_cursor (a : App) :
  currentPlayingIndex (schedulerEffect a) = currentPlayingIndex a.
Proof. destruct (schedulerEffect_frame a) as [_ [_ [_ [_ [_ [E _]]]]]]. exact E. Qed.

Lemma onSegmentChange_view (i : nat) (a : App) :
  story (onSegmentChange i a) = story a /\
  playerVisible (onSegmentChange i a) = playerVisible a /\
  currentPlayingIndex (onSegmentChange i a) = i.
Proof.
  unfold onSegmentChange.
  destruct (i =? currentPlayingIndex a) eqn:E.
  - apply Nat.eqb_eq in E. repeat split; congruence.
  - rewrite schedulerEffect_story, schedulerEffect_visible,
      schedulerEffect_cursor.
    repeat split; reflexivity.
Qed.

(** The handlers of the player move the cursor only in [handleSegmentEnd]. *)
Lemma playSegment_cursor (st : AudioStory) (seg : StorySegment) (o : Q)
  (p : Player) :
  currentSegmentIndex (playSegment st seg o p) = currentSegmentIndex p /\
  indexRef (playSegment st seg o p) = indexRef p /\
  isPlaying (playSegment st seg o p) = isPlaying p.
Proof.
  unfold playSegment. destruct (audioBuffer seg); simpl; auto.
  destruct (contextSuspended p); simpl; auto.
Qed.

Lemma bufferingEffect_cursor (st : AudioStory) (p : Player) :
  currentSegmentIndex (bufferingEffect st p) = currentSegmentIndex p /\
  indexRef (bufferingEffect st p) = indexRef p /\
  isPlaying (bufferingEffect st p) = isPlaying p.
Proof.
  unfold bufferingEffect.
  destruct (nth_error _ _) as [seg|]; auto.
  destruct (_ && _); auto.
  destruct (playSegment_cursor st seg 0%Q (setIsBuffering false p))
    as [E1 [E2 E3]].
  simpl in *. auto.
Qed.

Lemma togglePlayback_cursor (st : AudioStory) (p : Player) :
  currentSegmentIndex (togglePlayback st p) = currentSegmentIndex p /\
  indexRef (togglePlayback st p) = indexRef p.
Proof.
  unfold togglePlayback.
  destruct (isPlaying p).
  - destruct (audioContextRef p); [destruct (negb (isBuffering p))|];
      simpl; auto.
  - destruct (nth_error _ _) as [seg|]; simpl; auto.
    destruct (isSome (audioBuffer seg)); simpl; auto.
    destruct (playSegment_cursor st seg (segmentOffsetRef p)
                (setIsBuffering false (setIsPlaying true p))) as [E1 [E2 _]].
    simpl in *. auto.
Qed.

Lemma advanceClock_cursor (dt : Q) (p : Player) :
  currentSegmentIndex (advanceClock dt p) = currentSegmentIndex p /\
  indexRef (advanceClock dt p) = indexRef p.
Proof.
  unfold advanceClock.
  destruct (audioContextRef p); destruct (contextSuspended p); simpl; auto.
Qed.

Lemma bufferingEffect_ok (a : App) (st : AudioStory) (p : Player) :
  story a = Some st -> PlayerOK a p -> PlayerOK a (bufferingEffect st p).
Proof.
  intros Hst [O1 O2 O3].
  destruct (bufferingEffect_cursor st p) as [E1 [E2 _]].
  constructor; try congruence.
  intros st' Hst'. rewrite Hst in Hst'. inversion Hst'; subst.
  apply bufferingEffect_inv, O3, Hst.
Qed.

Lemma commit_inv (a : App) (op : option Player) :
  AppInv a ->
  (forall p, op = Some p -> playerVisible a = true -> PlayerOK a p) ->
  Inv (commit a op).
Proof.
  intros Ha Hcarry. unfold commit.
  destruct (playerVisible a) eqn:Hv.
  - destruct (story a) as [st|] eqn:Hst.
    + destruct op as [pl|].
      * constructor; simpl; auto; try discriminate.
        intros p E1. inversion E1; subst.
        apply bufferingEffect_ok; auto.
      * destruct (onSegmentChange_view 0 a) as [Es [Ev Ec]].
        constructor; simpl.
        -- apply onSegmentChange_inv. assumption.
        -- intros p _. rewrite Ev. assumption.
        -- discriminate.
        -- intros p E1. inversion E1; subst.
           constructor; auto.
           intros st' _. apply initialPlayer_inv.
    + apply playerVisible_spec in Hv.
      destruct Hv as [_ [_ [_ [Hs _]]]]. congruence.
  - constructor; simpl; auto; try discriminate. congruence.
Qed.

Lemma carry_grow (w : World) (a' : App) :
  Inv w ->
  currentPlayingIndex a' = currentPlayingIndex (app w) ->
  (forall st', story a' = Some st' ->
     exists st, story (app w) = Some st /\ storyGrows st st') ->
  forall p, player w = Some p -> playerVisible a' = true -> PlayerOK a' p.
Proof.
  intros Hw Hc Hg p Hp _.
  destruct (inv_player Hw Hp) as [O1 O2 O3].
  constructor; try congruence.
  intros st' Hst'.
  destruct (Hg st' Hst') as [st [Hst Hle]].
  eapply PlayerInv_grow; [exact Hle|]. apply O3, Hst.
Qed.

Lemma carry_same (w : World) (a' : App) :
  Inv w ->
  currentPlayingIndex a' = currentPlayingIndex (app w) ->
  story a' = story (app w) ->
  forall p, player w = Some p -> playerVisible a' = true -> PlayerOK a' p.
Proof.
  intros Hw Hc E. apply carry_grow; [assumption|assumption|].
  intros st' Hst'. exists st'. split; [congruence|apply storyGrows_refl].
Qed.

Lemma carry_hidden (w : World) (a' : App) :
  playerVisible a' = false ->
  forall p, player w = Some p -> playerVisible a' = true -> PlayerOK a' p.
Proof. intros E p _ E'. congruence. Qed.

Lemma initialWorld_inv : Inv initialWorld.
Proof.
  constructor; simpl; try discriminate. apply initialApp_inv.
Qed.

Lemma resumeAfterText_story (k : nat) (reply : Settle string) (a a' : App) :
  resumeAfterText k reply a = Some a' ->
  story a' = story a /\ playerVisible a' = playerVisible a /\
  currentPlayingIndex a' = currentPlayingIndex a.
Proof.
  unfold resumeAfterText.
  destruct (nth_error (inflight a) k) as [[i [|data]]|]; try discriminate.
  destruct (withTimeout reply _ _); intros E; inversion E; subst;
    repeat split; reflexivity.
Qed.

Lemma insertChapter_grows (i : nat) (seg : StorySegment)
  (prev : option AudioStory) (st' : AudioStory) :
  insertChapter i seg prev = Some st' ->
  exists st, prev = Some st /\ storyGrows st st'.
Proof.
  unfold insertChapter, storyGrows. destruct prev as [st|]; [|discriminate].
  destruct (hasIndex i (segments st)); settled;
    eexists; (split; [reflexivity|]);
    simpl; rewrite ?sortByIndex_length, ?length_app; simpl; split; lia.
Qed.

Lemma resumeAfterAudio_story (k : nat) (reply : Settle AudioBuffer)
  (a a' : App) (b : bool) :
  resumeAfterAudio k reply a = Some (a', b) ->
  currentPlayingIndex a' = currentPlayingIndex a /\
  forall st', story a' = Some st' ->
    exists st, story a = Some st /\ storyGrows st st'.
Proof.
  unfold resumeAfterAudio.
  destruct (nth_error (inflight a) k) as [[i [|data]]|]; try discriminate.
  destruct (withTimeout reply _ _); settled;
    simpl; (split; [reflexivity|]); intros st' Hst'.
  - apply insertChapter_grows in Hst'. exact Hst'.
  - exists st'. split; [assumption|apply storyGrows_refl].
Qed.

(** A step of an orderly run is a step. *)
Lemma orderlyStep_step (w w' : World) (e : Event) :
  orderlyStep w e = Some w' -> step w e = Some w'.
Proof.
  unfold orderlyStep. destruct (orderlyEvent w e); [auto|discriminate].
Qed.

Lemma orderlyStep_of (w w' : World) (e : Event) :
  orderlyEvent w e = true -> step w e = Some w' -> orderlyStep w e = Some w'.
Proof. unfold orderlyStep. intros ->. auto. Qed.

(** A step whose event is orderly whatever the state, read as a step of an
    orderly run. *)
Ltac in_turn :=
  first [ eassumption
        | apply orderlyStep_of; [|eassumption]; reflexivity ].

Lemma orderlyRun_run (evs : list Event) (w w' : World) :
  orderlyRun w evs = Some w' -> run w evs = Some w'.
Proof.
  revert w. induction evs as [|e evs IH]; simpl; intros w; [auto|].
  destruct (orderlyStep w e) as [w1|] eqn:Hs; [|discriminate].
  rewrite (orderlyStep_step _ _ Hs). apply IH.
Qed.

Lemma orderly_reachable (w : World) : orderly w -> reachable w.
Proof. intros [evs H]. exists evs. apply orderlyRun_run. exact H. Qed.

(** The context of a mounted player runs and no call of [playSegment] is
    parked. *)
Lemma inv_running (w : World) (p : Player) :
  Inv w -> player w = Some p ->
  contextSuspended p = false /\ resuming p = [].
Proof.
  intros Hw Hp.
  pose proof (@inv_visible _ Hw _ Hp) as Hv.
  apply playerVisible_spec in Hv. destruct Hv as [_ [_ [_ [Hs _]]]].
  destruct (story (app w)) as [st|] eqn:Hst; [|congruence].
  pose proof (pinv_refs (ok_inv (inv_player Hw Hp) Hst)) as HR.
  split; [apply (rinv_running HR)|apply (rinv_unparked HR)].
Qed.

Theorem orderlyStep_inv (w w' : World) (e : Event) :
  Inv w -> orderlyStep w e = Some w' -> Inv w'.
Proof.
  intros Hw. pose proof (inv_app Hw) as Ha.
  unfold orderlyStep. destruct e; simpl.
  - (* ApiKeyMissing *)
    settled.
    apply commit_inv; [apply setIsKeyRequired_inv; assumption|].
    apply carry_same; [assumption|reflexivity|reflexivity].
  - (* KeySelected *)
    destruct (isKeyRequired (app w)); [|discriminate].
    settled.
    apply commit_inv; [apply setIsKeyRequired_inv; assumption|].
    apply carry_same; [assumption|reflexivity|reflexivity].
  - (* MapsScriptFailed *)
    settled.
    apply commit_inv; [apply setScriptError_inv; assumption|].
    apply carry_same; [assumption|reflexivity|reflexivity].
  - (* RouteFound *)
    destruct (plannerEnabled (app w)) eqn:Hen; [|discriminate].
    settled.
    apply commit_inv.
    + apply schedulerEffect_inv, handleGenerateStory_inv; assumption.
    + apply carry_hidden. rewrite schedulerEffect_visible.
      unfold playerVisible; simpl. rewrite !andb_false_r. reflexivity.
  - (* StartupSettles *)
    destruct (resumeStartup k r (app w)) as [a'|] eqn:Hr; [|discriminate].
    settled.
    apply commit_inv.
    + apply schedulerEffect_inv. eapply resumeStartup_inv; eassumption.
    + intros p Hp. exfalso.
      pose proof (visible_no_startup Ha (@inv_visible _ Hw _ Hp)) as Hnil.
      unfold resumeStartup in Hr. rewrite Hnil in Hr.
      destruct k; discriminate.
  - (* TextSettles *)
    destruct (resumeAfterText k reply (app w)) as [a'|] eqn:Hr; [|discriminate].
    settled.
    destruct (@resumeAfterText_story _ _ _ _ Hr) as [Es [_ Ec]].
    apply commit_inv; [eapply resumeAfterText_inv; eassumption|].
    apply carry_same; assumption.
  - (* AudioSettles *)
    destruct (resumeAfterAudio k reply (app w)) as [[a' b]|] eqn:Hr;
      [|discriminate].
    settled.
    pose proof (@resumeAfterAudio_inv _ _ _ _ _ Ha Hr) as Ha'.
    destruct (@resumeAfterAudio_story _ _ _ _ _ Hr) as [Ec Hs].
    apply commit_inv.
    + destruct b; [apply schedulerEffect_inv|]; assumption.
    + apply carry_grow; [assumption| |].
      * destruct b; [rewrite schedulerEffect_cursor|]; assumption.
      * destruct b; [rewrite schedulerEffect_story|]; assumption.
  - (* ResetClicked *)
    destruct (playerVisible (app w)) eqn:Hv; [|discriminate].
    settled.
    apply commit_inv.
    + apply schedulerEffect_inv, handleReset_inv; assumption.
    + apply carry_hidden. rewrite schedulerEffect_visible.
      unfold playerVisible; simpl. rewrite !andb_false_r. reflexivity.
  - (* PlayPauseClicked *)
    destruct (player w) as [p|] eqn:Hp; [|discriminate].
    destruct (story (app w)) as [st|] eqn:Hst; [|discriminate].
    settled.
    destruct (inv_player Hw Hp) as [O1 O2 O3].
    destruct (togglePlayback_cursor st p) as [T1 T2].
    constructor; simpl; auto; try discriminate.
    + intros _ _. apply (@inv_visible _ Hw _ Hp).
    + intros p' E1. inversion E1; subst.
      apply bufferingEffect_ok; [assumption|].
      constructor; try congruence.
      intros st' E2. rewrite Hst in E2; inversion E2; subst.
      apply togglePlayback_inv, O3, Hst.
  - (* SourceEnded *)
    destruct (player w) as [p|] eqn:Hp; [|discriminate].
    destruct (story (app w)) as [st|] eqn:Hst; [|discriminate].
    destruct (sourceRef p) as [src|] eqn:Hsrc; [|discriminate].
    destruct (src_ended src); [discriminate|].
    destruct (contextSuspended p); [discriminate|].
    settled.
    destruct (inv_player Hw Hp) as [O1 O2 O3].
    pose proof (O3 st Hst) as HP.
    match goal with
    | |- Inv {| app := onSegmentChange ?i _; player := _ |} =>
        destruct (onSegmentChange_view i (app w)) as [Es [Ev Ec]]
    end.
    constructor; simpl; try discriminate.
    + apply onSegmentChange_inv. assumption.
    + intros _ _. rewrite Ev. apply (@inv_visible _ Hw _ Hp).
    + intros p' E1. inversion E1; subst; clear E1.
      apply bufferingEffect_ok; [congruence|].
      constructor.
      * reflexivity.
      * rewrite Ec. reflexivity.
      * intros st' E2. rewrite Es, Hst in E2. inversion E2; subst; clear E2.
        apply syncIndexRef_inv, onended_inv.
        -- simpl. apply (rinv_closure (pinv_refs HP)). assumption.
        -- apply markEnded_inv; assumption.
  - (* AnimationFrame *)
    destruct (player w) as [p|] eqn:Hp; [|discriminate].
    destruct (story (app w)) as [st|] eqn:Hst; [|discriminate].
    destruct (updateProgress st p) as [v|].
    + settled.
      destruct (inv_player Hw Hp) as [O1 O2 O3].
      constructor; simpl; try discriminate.
      * apply setSmoothProgress_inv. assumption.
      * intros _ _. apply (@inv_visible _ Hw _ Hp).
      * intros p' E1. inversion E1; subst.
        constructor; auto.
    + intros E; inversion E; subst. assumption.
  - (* ClockAdvances *)
    destruct (Qle_bool 0 dt) eqn:Hdt; [|discriminate].
    apply Qle_bool_iff in Hdt.
    settled.
    constructor; simpl; auto.
    + intros p' E. destruct (player w) as [p|] eqn:Hp; [|discriminate].
      apply (@inv_visible _ Hw _ Hp).
    + intros Hv. destruct (player w) as [p|] eqn:Hp; [discriminate|].
      exfalso. apply (inv_mounted Hw Hv). assumption.
    + intros p' E1. destruct (player w) as [p|] eqn:Hp; [|discriminate].
      simpl in E1. inversion E1; subst.
      destruct (inv_player Hw Hp) as [O1 O2 O3].
      destruct (advanceClock_cursor dt p) as [A1 A2].
      constructor; try congruence.
      intros st Hst. apply advanceClock_inv; [assumption|]. apply O3, Hst.
  - (* ContextSuspends *)
    discriminate.
  - (* ContextResumes *)
    destruct (player w) as [p|] eqn:Hp; [|discriminate].
    destruct (contextSuspended p) eqn:Hsusp; [|discriminate].
    destruct (inv_running Hw Hp) as [Hrun _]. congruence.
Qed.

Theorem orderlyRun_inv (evs : list Event) (w w' : World) :
  Inv w -> orderlyRun w evs = Some w' -> Inv w'.
Proof.
  revert w. induction evs as [|e evs IH]; simpl; intros w Hw.
  - intros E; inversion E; subst. assumption.
  - destruct (orderlyStep w e) as [w1|] eqn:Hs; [|discriminate].
    apply IH. eapply orderlyStep_inv; in_turn.
Qed.

Theorem orderly_inv (w : World) : orderly w -> Inv w.
Proof.
  intros [evs H]. eapply orderlyRun_inv; [apply initialWorld_inv|exact H].
Qed.

(** * What holds after every run *)

Lemma initialApp_always : AppAlways initialApp.
Proof.
  constructor; simpl; auto; try lia; try discriminate;
    try (intros; contradiction).
Qed.

Lemma always_free (a : App) :
  AppAlways a -> isGeneratingRef a = false -> inflight a = [].
Proof.
  intros H Hfree. pose proof (al_lock H) as Hl. rewrite Hfree in Hl.
  destruct (inflight a); [reflexivity|simpl in Hl; discriminate].
Qed.

Lemma always_lock_iff (a : App) :
  AppAlways a -> (isGeneratingRef a = true <-> inflight a <> []).
Proof.
  intros H. rewrite (al_lock H).
  destruct (inflight a); simpl; split; intros; congruence.
Qed.

Lemma schedulerEffect_always (a : App) :
  AppAlways a -> AppAlways (schedulerEffect a).
Proof.
  intros H. unfold schedulerEffect.
  destruct (schedulerTrigger a) as [i|] eqn:T; [|assumption].
  apply schedulerTrigger_some in T.
  destruct T as [st [Hst [Hr [_ [Hi [_ [Hroom Hfree]]]]]]].
  unfold generateNextSegment. rewrite Hst.
  destruct (route a); [|congruence].
  rewrite Hfree.
  pose proof (always_free H Hfree) as Hnil.
  pose proof (wf_nonempty (al_story H Hst)) as Hne.
  destruct H as [H1 H2 H3 H4 H5 H6 H7 H8 H9].
  constructor; simpl; rewrite ?Hnil; simpl; auto.
  - intros j data [E|[]]. discriminate.
  - intros st' Hst' _. rewrite Hst in Hst'. inversion Hst'; subst. exact Hroom.
  - intros att [E|[]]. subst att. simpl. lia.
Qed.

Lemma onSegmentChange_always (i : nat) (a : App) :
  AppAlways a -> AppAlways (onSegmentChange i a).
Proof.
  intros H. unfold onSegmentChange.
  destruct (i =? currentPlayingIndex a); [assumption|].
  apply schedulerEffect_always. destruct H. constructor; simpl; auto.
Qed.

Lemma handleGenerateStory_always (d : RouteDetails) (a : App) :
  AppAlways a -> AppAlways (handleGenerateStory d a).
Proof. intros []. constructor; simpl; auto. Qed.

Lemma resumeStartup_always (k : nat) (r : StartupReplies) (a a' : App) :
  AppAlways a -> resumeStartup k r a = Some a' -> AppAlways a'.
Proof.
  intros H. unfold resumeStartup.
  destruct (nth_error (starting a) k) as [d|]; [|discriminate].
  destruct H as [H1 H2 H3 H4 H5 H6 H7 H8 H9].
  destruct (startupOutcome d r) as [[st|m]|] eqn:Ho; [| |discriminate].
  - settled.
    destruct (startupOutcome_wf _ _ Ho) as [Hwf [Hlen Hidx]].
    constructor; simpl; auto.
    + intros st' E. inversion E; subst. exact Hwf.
    + intros st' E _. inversion E; subst.
      pose proof (wf_estimate Hwf). lia.
    + intros st' E. inversion E; subst.
      destruct (segments st') as [|s l]; [discriminate|].
      simpl in *. inversion Hidx. reflexivity.
  - destruct (includes m _); settled; constructor; simpl; auto.
Qed.

Lemma resumeAfterText_always (k : nat) (reply : Settle string) (a a' : App) :
  AppAlways a -> resumeAfterText k reply a = Some a' -> AppAlways a'.
Proof.
  intros H. unfold resumeAfterText.
  destruct (nth_error (inflight a) k) as [[i [|data]]|] eqn:Hk; try discriminate.
  destruct (nth_error_single _ _ (al_single H) Hk) as [Hone Hrm].
  assert (2 <= i) as Hi.
  { apply (al_attempt H {| att_index := i; att_phase := AwaitingText |}).
    rewrite Hone. left. reflexivity. }
  destruct H as [H1 H2 H3 H4 H5 H6 H7 H8 H9].
  assert (k = 0) as -> by (rewrite Hone in Hk; destruct k as [|[|k]]; simpl in Hk;
                            [reflexivity|discriminate|discriminate]).
  destruct (withTimeout reply _ _); settled.
  - constructor; simpl; rewrite ?Hone; simpl; auto.
    + rewrite H1, Hone. reflexivity.
    + intros j data [E|[]]. inversion E; subst. reflexivity.
    + intros st Hst _. apply (H6 st Hst). rewrite Hone. discriminate.
    + intros att [E|[]]. subst att. exact Hi.
  - constructor; simpl; rewrite ?Hone; simpl; auto;
      try (intros; contradiction); congruence.
Qed.

Lemma resumeAfterAudio_always (k : nat) (reply : Settle AudioBuffer)
  (a a' : App) (b : bool) :
  AppAlways a -> resumeAfterAudio k reply a = Some (a', b) -> AppAlways a'.
Proof.
  intros H. unfold resumeAfterAudio.
  destruct (nth_error (inflight a) k) as [[i [|data]]|] eqn:Hk; try discriminate.
  destruct (nth_error_single _ _ (al_single H) Hk) as [Hone Hrm].
  assert (index data = i) as Hdata.
  { apply (al_parked H). rewrite Hone. left. reflexivity. }
  assert (2 <= i) as Hi.
  { apply (al_attempt H {| att_index := i; att_phase := AwaitingAudio data |}).
    rewrite Hone. left. reflexivity. }
  destruct H as [H1 H2 H3 H4 H5 H6 H7 H8 H9].
  destruct (withTimeout reply _ _) as [buf|m]; settled.
  - constructor; simpl; rewrite ?Hrm; simpl; auto;
      try (intros; contradiction); try congruence.
    + intros st' Hst'.
      destruct (story a) as [st|] eqn:Hst; [|discriminate].
      eapply insertChapter_wf; [apply (H5 st eq_refl)| | | |exact Hst'].
      * reflexivity.
      * reflexivity.
      * apply (H6 st eq_refl). rewrite Hone. discriminate.
    + intros st' Hst'.
      destruct (story a) as [st|] eqn:Hst; [|discriminate].
      eapply insertChapter_first; [| | |exact Hst'].
      * apply (wf_order (H5 st eq_refl)).
      * apply H7. reflexivity.
      * simpl. lia.
  - constructor; simpl; rewrite ?Hrm; simpl; auto;
      try (intros; contradiction); congruence.
Qed.

Lemma handleReset_always (a : App) : AppAlways a -> AppAlways (handleReset a).
Proof.
  intros []. constructor; simpl; auto; discriminate.
Qed.

Lemma setIsKeyRequired_always (v : bool) (a : App) :
  AppAlways a -> AppAlways (setIsKeyRequired v a).
Proof. intros []. constructor; simpl; auto. Qed.

Lemma setScriptError_always (v : bool) (a : App) :
  AppAlways a -> AppAlways (setScriptError v a).
Proof. intros []. constructor; simpl; auto. Qed.

Lemma setSmoothProgress_always (v : Q) (a : App) :
  AppAlways a -> AppAlways (setSmoothProgress v a).
Proof. intros []. constructor; simpl; auto. Qed.

Lemma commit_always (a : App) (op : option Player) :
  AppAlways a -> Always (commit a op).
Proof.
  intros Ha. unfold commit.
  destruct (playerVisible a) eqn:Hv.
  - destruct (story a) as [st|] eqn:Hst.
    + destruct op as [pl|].
      * constructor; simpl; auto; discriminate.
      * destruct (onSegmentChange_view 0 a) as [_ [Ev _]].
        constructor; simpl.
        -- apply onSegmentChange_always. assumption.
        -- intros p _. rewrite Ev. assumption.
        -- discriminate.
    + apply playerVisible_spec in Hv.
      destruct Hv as [_ [_ [_ [Hs _]]]]. congruence.
  - constructor; simpl; auto; try discriminate. congruence.
Qed.

Lemma initialWorld_always : Always initialWorld.
Proof.
  constructor; simpl; try discriminate. apply initialApp_always.
Qed.

Theorem step_always (w w' : World) (e : Event) :
  Always w -> step w e = Some w' -> Always w'.
Proof.
  intros Hw. pose proof (al_app Hw) as Ha.
  destruct e; simpl.
  - settled. apply commit_always, setIsKeyRequired_always, Ha.
  - destruct (isKeyRequired (app w)); [|discriminate].
    settled. apply commit_always, setIsKeyRequired_always, Ha.
  - settled. apply commit_always, setScriptError_always, Ha.
  - settled.
    apply commit_always, schedulerEffect_always, handleGenerateStory_always, Ha.
  - destruct (resumeStartup k r (app w)) as [a'|] eqn:Hr; [|discriminate].
    settled. apply commit_always, schedulerEffect_always.
    eapply resumeStartup_always; eassumption.
  - destruct (resumeAfterText k reply (app w)) as [a'|] eqn:Hr; [|discriminate].
    settled. apply commit_always. eapply resumeAfterText_always; eassumption.
  - destruct (resumeAfterAudio k reply (app w)) as [[a' b]|] eqn:Hr;
      [|discriminate].
    settled. apply commit_always.
    pose proof (@resumeAfterAudio_always _ _ _ _ _ Ha Hr) as Ha'.
    destruct b; [apply schedulerEffect_always|]; assumption.
  - destruct (playerVisible (app w)); [|discriminate].
    settled. apply commit_always, schedulerEffect_always, handleReset_always, Ha.
  - destruct (player w) as [p|] eqn:Hp; [|discriminate].
    destruct (story (app w)) as [st|]; [|discriminate].
    settled. constructor; simpl; auto; try discriminate.
    intros _ _. apply (@al_visible _ Hw _ Hp).
  - destruct (player w) as [p|] eqn:Hp; [|discriminate].
    destruct (story (app w)) as [st|]; [|discriminate].
    destruct (sourceRef p) as [src|]; [|discriminate].
    destruct (src_ended src); [discriminate|].
    destruct (contextSuspended p); [discriminate|].
    settled.
    match goal with
    | |- Always {| app := onSegmentChange ?i _; player := _ |} =>
        destruct (onSegmentChange_view i (app w)) as [_ [Ev _]]
    end.
    constructor; simpl; try discriminate.
    + apply onSegmentChange_always, Ha.
    + intros _ _. rewrite Ev. apply (@al_visible _ Hw _ Hp).
  - destruct (player w) as [p|] eqn:Hp; [|discriminate].
    destruct (story (app w)) as [st|]; [|discriminate].
    destruct (updateProgress st p) as [v|].
    + settled. constructor; simpl; try discriminate.
      * apply setSmoothProgress_always, Ha.
      * intros _ _. apply (@al_visible _ Hw _ Hp).
    + intros E; inversion E; subst. assumption.
  - destruct (Qle_bool 0 dt); [|discriminate].
    settled. constructor; simpl; auto.
    + intros p' E. destruct (player w) as [p|] eqn:Hp; [|discriminate].
      apply (@al_visible _ Hw _ Hp).
    + intros Hv. destruct (player w) as [p|] eqn:Hp; [discriminate|].
      exfalso. apply (al_mounted Hw Hv). assumption.
  - destruct (player w) as [p|] eqn:Hp; [|discriminate].
    destruct (contextSuspended p); [discriminate|].
    settled. constructor; simpl; auto; try discriminate.
    intros _ _. apply (@al_visible _ Hw _ Hp).
  - destruct (player w) as [p|] eqn:Hp; [|discriminate].
    destruct (contextSuspended p); [|discriminate].
    settled. constructor; simpl; auto; try discriminate.
    intros _ _. apply (@al_visible _ Hw _ Hp).
Qed.

Lemma always_hidden (w : World) :
  Always w -> playerVisible (app w) = false -> player w = None.
Proof.
  intros Hw Hv. destruct (player w) as [p|] eqn:Hp; [|reflexivity].
  pose proof (@al_visible _ Hw _ Hp). congruence.
Qed.

Theorem run_always (evs : list Event) (w w' : World) :
  Always w -> run w evs = Some w' -> Always w'.
Proof.
  revert w. induction evs as [|e evs IH]; simpl; intros w Hw.
  - intros E; inversion E; subst. assumption.
  - destruct (step w e) as [w1|] eqn:Hs; [|discriminate].
    apply IH. eapply step_always; eassumption.
Qed.

Theorem reachable_always (w : World) : reachable w -> Always w.
Proof.
  intros [evs H]. eapply run_always; [apply initialWorld_always|exact H].
Qed.

(** * Single-flight generation *)

Lemma lock_held_iff (a : App) :
  AppInv a -> (isGeneratingRef a = true <-> inflight a <> []).
Proof.
  intros H. rewrite (inv_lock H).
  destruct (inflight a); simpl; split; intros; congruence.
Qed.

Lemma attempt_ends_text (k : nat) (reply : Settle string) (a a' : App)
  (m : string) :
  List.length (inflight a) <= 1 ->
  resumeAfterText k reply a = Some a' ->
  withTimeout reply TEXT_TIMEOUT_MS "Text generation timeout" = Thrown m ->
  a' = releaseLock (setInflight [] a).
Proof.
  intros H. unfold resumeAfterText.
  destruct (nth_error (inflight a) k) as [[i [|data]]|] eqn:Hk; try discriminate.
  destruct (nth_error_single _ _ H Hk) as [_ Hrm].
  intros E Ht. rewrite Ht, Hrm in E. inversion E. reflexivity.
Qed.

Lemma attempt_ends_audio (k : nat) (reply : Settle AudioBuffer)
  (a a' : App) (replaced : bool) :
  List.length (inflight a) <= 1 ->
  resumeAfterAudio k reply a = Some (a', replaced) ->
  isGeneratingRef a' = false /\ isBackgroundGenerating a' = false /\
  inflight a' = [].
Proof.
  intros H. unfold resumeAfterAudio.
  destruct (nth_error (inflight a) k) as [[i [|data]]|] eqn:Hk; try discriminate.
  destruct (nth_error_single _ _ H Hk) as [_ Hrm].
  destruct (withTimeout reply _ _); settled;
    simpl; auto.
Qed.

Lemma generateNextSegment_locked (i : nat) (a : App) :
  isGeneratingRef a = true -> generateNextSegment i a = a.
Proof.
  intros H. unfold generateNextSegment.
  destruct (route a), (story a); try reflexivity.
  rewrite H. reflexivity.
Qed.

Lemma resumeAfterText_failure (k : nat) (reply : Settle string) (a a' : App)
  (m : string) :
  AppInv a ->
  resumeAfterText k reply a = Some a' ->
  withTimeout reply TEXT_TIMEOUT_MS "Text generation timeout" = Thrown m ->
  a' = releaseLock (setInflight [] a).
Proof.
  intros H. unfold resumeAfterText.
  destruct (nth_error (inflight a) k) as [[i [|data]]|] eqn:Hk; try discriminate.
  destruct (nth_error_single _ _ (inv_single H) Hk) as [_ Hrm].
  intros E Ht. rewrite Ht, Hrm in E. inversion E. reflexivity.
Qed.

Lemma resumeAfterAudio_ends (k : nat) (reply : Settle AudioBuffer)
  (a a' : App) (replaced : bool) :
  AppInv a ->
  resumeAfterAudio k reply a = Some (a', replaced) ->
  isGeneratingRef a' = false /\ inflight a' = [].
Proof.
  intros H. unfold resumeAfterAudio.
  destruct (nth_error (inflight a) k) as [[i [|data]]|] eqn:Hk; try discriminate.
  destruct (nth_error_single _ _ (inv_single H) Hk) as [_ Hrm].
  destruct (withTimeout reply _ _); settled;
    simpl; auto.
Qed.

Lemma story_no_startup (a : App) :
  AppInv a -> story a <> None -> starting a = [].
Proof.
  intros H Hs. destruct (inv_ready H Hs) as [Hready _].
  destruct (starting a) eqn:E; [reflexivity|].
  assert (appState a = GENERATING_INITIAL_SEGMENT) as Hg
    by (apply (inv_starting H); rewrite E; discriminate).
  rewrite Hg in Hready. simpl in Hready. lia.
Qed.

(** C1, as stated, fails: the generation of the first chapter of a journey
    does not take the lock.  Started while the lock is held by a generation
    that a reset left in flight, it goes ahead, and two chapter generations
    are then in flight. *)
Lemma single_flight_counterexample :
  orderlyRun initialWorld restartDuringGeneration = Some worldRestarted /\
  isGeneratingRef (app worldRestarted) = true /\
  inflight (app worldRestarted)
    = [ {| att_index := 2; att_phase := AwaitingText |} ] /\
  starting (app worldRestarted) = [shortRoute] /\
  List.length (inflight (app worldRestarted))
  + List.length (starting (app worldRestarted)) = 2.
Proof.
  split; [vm_compute; reflexivity|].
  repeat split; reflexivity.
Qed.

Lemma worldJourneyStarted_orderly : orderly worldJourneyStarted.
Proof. exists journeyStarted. vm_compute. reflexivity. Qed.

Lemma worldShortJourney_orderly : orderly worldShortJourney.
Proof. exists shortJourneyTimedOut. vm_compute. reflexivity. Qed.

(** C1, amended.  In every run, at most one call of
    [generateNextSegment] is suspended (one background chapter generation,
    text then audio, is in flight), the lock is held exactly while one is,
    and its mirror for the UI follows it; a call made while the lock is
    held returns the state unchanged; whenever a call ends, through
    [catch] after the text or the audio request or after the guarded
    insert, [finally] has released the lock and nothing is left in flight.
    The first chapter of a journey is generated by [handleGenerateStory],
    which neither tests nor takes the lock: whatever the lock says, a call
    parks a further start-up and leaves the lock and the generation in
    flight as they are. *)
Theorem single_flight_generation (w : World) :
  reachable w ->
  List.length (inflight (app w)) <= 1 /\
  (isGeneratingRef (app w) = true <-> inflight (app w) <> []) /\
  isBackgroundGenerating (app w) = isGeneratingRef (app w) /\
  (forall i, isGeneratingRef (app w) = true ->
             generateNextSegment i (app w) = app w) /\
  (forall k reply a' m,
      resumeAfterText k reply (app w) = Some a' ->
      withTimeout reply TEXT_TIMEOUT_MS "Text generation timeout" = Thrown m ->
      isGeneratingRef a' = false /\ inflight a' = []) /\
  (forall k reply a' replaced,
      resumeAfterAudio k reply (app w) = Some (a', replaced) ->
      isGeneratingRef a' = false /\ inflight a' = []) /\
  (forall d,
      isGeneratingRef (handleGenerateStory d (app w))
        = isGeneratingRef (app w) /\
      inflight (handleGenerateStory d (app w)) = inflight (app w) /\
      starting (handleGenerateStory d (app w)) = starting (app w) ++ [d]).
Proof.
  intros Hr. apply reachable_always in Hr. pose proof (al_app Hr) as Ha.
  split; [apply (al_single Ha)|].
  split; [apply always_lock_iff; assumption|].
  split; [apply (al_mirror Ha)|].
  split; [intros i; apply generateNextSegment_locked|].
  split; [|split].
  - intros k reply a' m E Ht.
    rewrite (@attempt_ends_text k reply _ a' m (al_single Ha) E Ht).
    simpl. auto.
  - intros k reply a' replaced E.
    destruct (@attempt_ends_audio k reply _ a' replaced (al_single Ha) E)
      as [E1 [_ E2]].
    auto.
  - intros d. repeat split; reflexivity.
Qed.

Lemma worldJourneyStarted_reachable : reachable worldJourneyStarted.
Proof. exists journeyStarted. vm_compute. reflexivity. Qed.

Lemma single_flight_generation_witness :
  reachable worldJourneyStarted /\
  isGeneratingRef (app worldJourneyStarted) = true /\
  generateNextSegment 3 (app worldJourneyStarted) = app worldJourneyStarted.
Proof.
  split; [exact worldJourneyStarted_reachable|].
  split; [reflexivity|].
  destruct (single_flight_generation worldJourneyStarted_reachable)
    as [_ [_ [_ [H _]]]].
  apply H. reflexivity.
Defined.

(** * The look-ahead scheduler *)

Lemma schedulerTrigger_ready (a : App) (st : AudioStory) :
  AppInv a -> story a = Some st ->
  schedulerTrigger a =
    if (List.length (segments st) <? currentPlayingIndex a + 2)
       && (List.length (segments st) <? totalSegmentsEstimate st)
       && negb (isGeneratingRef a)
    then Some (List.length (segments st) + 1)
    else None.
Proof.
  intros H Hst. unfold schedulerTrigger. rewrite Hst.
  destruct (inv_ready H) as [Hready Hroute]; [congruence|].
  destruct (route a); [|congruence].
  assert ((AppState_value (appState a) <? AppState_value READY_TO_PLAY) = false)
    as -> by (apply Nat.ltb_ge; assumption).
  reflexivity.
Qed.

Lemma schedulerTrigger_iff (a : App) (st : AudioStory) :
  AppInv a -> story a = Some st ->
  (schedulerTrigger a = Some (List.length (segments st) + 1) <->
   List.length (segments st) < currentPlayingIndex a + 2 /\
   List.length (segments st) < totalSegmentsEstimate st /\
   inflight a = []) /\
  (schedulerTrigger a = None \/
   schedulerTrigger a = Some (List.length (segments st) + 1)).
Proof.
  intros H Hst. rewrite (schedulerTrigger_ready H Hst).
  pose proof (lock_held_iff H) as Hl.
  assert (isGeneratingRef a = false <-> inflight a = []) as Hfree.
  { destruct (isGeneratingRef a), (inflight a); split; intros; try congruence.
    - exfalso. apply Hl; reflexivity.
    - assert (true = false) by (symmetry; apply Hl; discriminate).
      discriminate. }
  destruct (Nat.ltb_spec (List.length (segments st)) (currentPlayingIndex a + 2))
    as [E1|E1];
  destruct (Nat.ltb_spec (List.length (segments st)) (totalSegmentsEstimate st))
    as [E2|E2];
  destruct (isGeneratingRef a) eqn:E3; simpl;
  (split;
   [split;
    [intros HX; try discriminate HX
    |intros [C1 [C2 C3]]; try lia; try reflexivity]
   |auto]).
  - apply Hfree in C3. discriminate.
  - repeat split; auto. apply Hfree. reflexivity.
Qed.

(** * Ordering of the chapter collection *)

Lemma resumeAfterAudio_insert (k : nat) (reply : Settle AudioBuffer)
  (a a' : App) (replaced : bool) :
  AppAlways a ->
  resumeAfterAudio k reply a = Some (a', replaced) ->
  (replaced = false -> story a' = story a) /\
  (replaced = true ->
   exists seg st st',
     story a = Some st /\ story a' = Some st' /\
     ~ In (index seg) (map index (segments st)) /\
     Permutation (seg :: segments st) (segments st') /\
     strictlyAscending (segments st')).
Proof.
  intros H. unfold resumeAfterAudio.
  destruct (nth_error (inflight a) k) as [[i [|data]]|] eqn:Hk; try discriminate.
  assert (index data = i) as Hdata.
  { apply (al_parked H). eapply nth_error_In. exact Hk. }
  destruct (withTimeout reply _ _) as [buf|m];
    settled; simpl.
  - unfold chapterInserted, insertChapter.
    destruct (story a) as [st|] eqn:Hst; [|split; [reflexivity|discriminate]].
    destruct (hasIndex (index data) (segments st)) eqn:Hh; simpl.
    + split; [reflexivity|discriminate].
    + split; [discriminate|]. intros _.
      exists (withAudio data buf), st,
        (withSegments st (sortByIndex (segments st ++ [withAudio data buf]))).
      repeat split; auto.
      * apply hasIndex_false_notin. exact Hh.
      * simpl. eapply perm_trans; [apply Permutation_cons_append|].
        apply sortByIndex_perm.
      * simpl. apply sorted_insert_strict; [|exact Hh].
        apply (wf_order (al_story H Hst)).
  - split; [reflexivity|discriminate].
Qed.

(** C3. In every reachable state, whatever the order in which routes,
    replies and chapter completions arrived, the stored chapters have
    strictly ascending and therefore pairwise distinct indices; a completed
    chapter either leaves the story as it is or is added, re-sorted by
    index, to a story that had no chapter with its index. *)
Theorem chapters_strictly_ascending (w : World) (st : AudioStory) :
  reachable w ->
  story (app w) = Some st ->
  StronglySorted lt (map index (segments st)) /\
  NoDup (map index (segments st)) /\
  (forall k reply a' replaced,
      resumeAfterAudio k reply (app w) = Some (a', replaced) ->
      (replaced = false -> story a' = story (app w)) /\
      (replaced = true ->
       exists seg st',
         story a' = Some st' /\
         ~ In (index seg) (map index (segments st)) /\
         Permutation (seg :: segments st) (segments st') /\
         StronglySorted lt (map index (segments st')))).
Proof.
  intros Hr Hst. apply reachable_always in Hr. pose proof (al_app Hr) as Ha.
  pose proof (wf_order (al_story Ha Hst)) as Hord.
  split; [exact Hord|].
  split; [apply strictlyAscending_NoDup; exact Hord|].
  intros k reply a' replaced E.
  destruct (@resumeAfterAudio_insert k reply _ a' replaced Ha E) as [H1 H2].
  split; [exact H1|].
  intros Hrep. destruct (H2 Hrep) as [seg [st0 [st' [E0 [E' [Hn [Hp Hs]]]]]]].
  rewrite Hst in E0. inversion E0; subst.
  exists seg, st'. auto.
Qed.

Lemma worldTwoChapters_orderly : orderly worldTwoChapters.
Proof. exists twoChapters. vm_compute. reflexivity. Qed.

Lemma chapters_strictly_ascending_witness :
  reachable worldTwoChapters /\
  story (app worldTwoChapters) = Some storyTwoChapters /\
  map index (segments storyTwoChapters) = [1; 2] /\
  NoDup (map index (segments storyTwoChapters)).
Proof.
  assert (reachable worldTwoChapters) as Hr
    by (exists twoChapters; vm_compute; reflexivity).
  split; [exact Hr|].
  split; [reflexivity|].
  split; [reflexivity|].
  apply (@chapters_strictly_ascending worldTwoChapters storyTwoChapters
           Hr eq_refl).
Defined.

(** * Failure of a background generation *)

Lemma withTimeout_late {T : Type} (ms t : N) (v : T) (msg : string) :
  (ms <= t)%N -> withTimeout (Resolves t v) ms msg = Thrown msg.
Proof.
  intros H. unfold withTimeout.
  assert ((t <? ms)%N = false) as -> by (apply N.ltb_ge; exact H).
  reflexivity.
Qed.

Lemma withTimeout_never {T : Type} (ms : N) (msg : string) :
  withTimeout (@NeverSettles T) ms msg = Thrown msg.
Proof. reflexivity. Qed.

Lemma withTimeout_rejected {T : Type} (ms t : N) (m msg : string) :
  exists m', withTimeout (@Rejects T t m) ms msg = Thrown m'.
Proof.
  unfold withTimeout. destruct (t <? ms)%N; eexists; reflexivity.
Qed.

Lemma resumeAfterAudio_failure (k : nat) (reply : Settle AudioBuffer)
  (a a' : App) (replaced : bool) (m : string) :
  AppInv a ->
  resumeAfterAudio k reply a = Some (a', replaced) ->
  withTimeout reply AUDIO_TIMEOUT_MS "Audio generation timeout" = Thrown m ->
  a' = releaseLock (setInflight [] a) /\ replaced = false.
Proof.
  intros H. unfold resumeAfterAudio.
  destruct (nth_error (inflight a) k) as [[i [|data]]|] eqn:Hk; try discriminate.
  destruct (nth_error_single _ _ (inv_single H) Hk) as [_ Hrm].
  intros E Ht. rewrite Ht, Hrm in E. inversion E. auto.
Qed.

(** A render that neither mounts nor unmounts the player leaves the App
    state as the handler left it. *)
Lemma commit_app (w : World) (a' : App) :
  Inv w ->
  playerVisible a' = playerVisible (app w) ->
  app (commit a' (player w)) = a'.
Proof.
  intros Hw Hv. unfold commit.
  destruct (playerVisible a') eqn:Hv'; [|reflexivity].
  destruct (story a'); [|reflexivity].
  destruct (player w) as [p|] eqn:Hp; [reflexivity|].
  exfalso. apply (inv_mounted Hw); congruence.
Qed.

(** C4. In every state reached by an orderly run: when the text request
    (raced against a 60000 ms timer) or the audio request (raced against
    a 100000 ms timer) of a background generation is rejected or loses
    the race, the step that handles it
    leaves the story and the cursor unchanged, releases the lock and leaves
    nothing in flight: no new attempt is started.  The look-ahead trigger
    evaluated on the resulting state requests the lowest missing chapter,
    which is the failed index when that one is still the next missing. *)
Theorem background_failure_contained (w w' : World) (k : nat) :
  orderly w ->
  ((exists reply m,
       step w (TextSettles k reply) = Some w' /\
       withTimeout reply TEXT_TIMEOUT_MS "Text generation timeout" = Thrown m)
   \/
   (exists reply m,
       step w (AudioSettles k reply) = Some w' /\
       withTimeout reply AUDIO_TIMEOUT_MS "Audio generation timeout" = Thrown m)) ->
  story (app w') = story (app w) /\
  currentPlayingIndex (app w') = currentPlayingIndex (app w) /\
  isGeneratingRef (app w') = false /\
  inflight (app w') = [] /\
  (forall st att,
      story (app w') = Some st ->
      nth_error (inflight (app w)) k = Some att ->
      List.length (segments st) < currentPlayingIndex (app w') + 2 ->
      List.length (segments st) < totalSegmentsEstimate st ->
      schedulerTrigger (app w') = Some (List.length (segments st) + 1) /\
      (att_index att = List.length (segments st) + 1 ->
       schedulerTrigger (app w') = Some (att_index att))) /\
  (forall (t : N) (v : string) msg,
      (TEXT_TIMEOUT_MS <= t)%N ->
      withTimeout (Resolves t v) TEXT_TIMEOUT_MS msg = Thrown msg) /\
  (forall (t : N) (v : AudioBuffer) msg,
      (AUDIO_TIMEOUT_MS <= t)%N ->
      withTimeout (Resolves t v) AUDIO_TIMEOUT_MS msg = Thrown msg) /\
  (forall msg,
      withTimeout (@NeverSettles string) TEXT_TIMEOUT_MS msg = Thrown msg /\
      withTimeout (@NeverSettles AudioBuffer) AUDIO_TIMEOUT_MS msg = Thrown msg) /\
  (forall (t : N) m msg,
      (exists m', withTimeout (@Rejects string t m) TEXT_TIMEOUT_MS msg
                  = Thrown m') /\
      (exists m', withTimeout (@Rejects AudioBuffer t m) AUDIO_TIMEOUT_MS msg
                  = Thrown m')).
Proof.
  intros Hr Hfail. pose proof (orderly_inv Hr) as Hw.
  pose proof (inv_app Hw) as Ha.
  assert (app w' = releaseLock (setInflight [] (app w))) as Happ.
  { destruct Hfail as [[reply [m [Hs Ht]]]|[reply [m [Hs Ht]]]]; simpl in Hs.
    - destruct (resumeAfterText k reply (app w)) as [a'|] eqn:E; [|discriminate].
      inversion Hs; subst; clear Hs.
      rewrite (@resumeAfterText_failure k reply _ a' m Ha E Ht).
      apply commit_app; [assumption|reflexivity].
    - destruct (resumeAfterAudio k reply (app w)) as [[a' b]|] eqn:E;
        [|discriminate].
      inversion Hs; subst; clear Hs.
      destruct (@resumeAfterAudio_failure k reply _ a' b m Ha E Ht) as [E1 E2].
      subst. apply commit_app; [assumption|reflexivity]. }
  assert (Inv w') as Hw'.
  { destruct Hfail as [[reply [m [Hs _]]]|[reply [m [Hs _]]]];
      eapply orderlyStep_inv; in_turn. }
  pose proof (inv_app Hw') as Ha'.
  rewrite Happ in Ha' |- *. simpl.
  assert (forall st,
             story (app w) = Some st ->
             List.length (segments st) < currentPlayingIndex (app w) + 2 ->
             List.length (segments st) < totalSegmentsEstimate st ->
             schedulerTrigger (releaseLock (setInflight [] (app w)))
             = Some (List.length (segments st) + 1)) as Hretry.
  { intros st Hst C1 C2.
    destruct (@schedulerTrigger_iff _ st Ha' Hst) as [Hiff _].
    apply Hiff. simpl. auto. }
  repeat split; auto.
  - intros Hidx. rewrite Hidx. auto.
  - intros t v msg Ht. apply withTimeout_late. exact Ht.
  - intros t v msg Ht. apply withTimeout_late. exact Ht.
  - apply withTimeout_rejected.
  - apply withTimeout_rejected.
Qed.

Lemma background_failure_contained_witness :
  orderly worldJourneyStarted /\
  step worldJourneyStarted (TextSettles 0 (Resolves 75000%N "too late"%string))
    = Some worldSecondChapterTimedOut /\
  story (app worldSecondChapterTimedOut) = story (app worldJourneyStarted) /\
  isGeneratingRef (app worldSecondChapterTimedOut) = false.
Proof.
  split; [exact worldJourneyStarted_orderly|].
  split; [vm_compute; reflexivity|].
  destruct (@background_failure_contained worldJourneyStarted
              worldSecondChapterTimedOut 0 worldJourneyStarted_orderly)
    as [H1 [_ [H2 _]]].
  - left. exists (Resolves 75000%N "too late"%string), "Text generation timeout"%string.
    split; vm_compute; reflexivity.
  - split; assumption.
Defined.

(** * The progress signal *)

Lemma bufferDuration_pos (b : AudioBuffer) : (0 < bufferDuration b)%Q.
Proof. unfold bufferDuration, Qlt. simpl. lia. Qed.

Lemma inject_nat_nonneg (n : nat) : (0 <= inject_Z (Z.of_nat n))%Q.
Proof. unfold Qle. simpl. lia. Qed.

Lemma inject_nat_succ_le (n m : nat) :
  n < m -> (inject_Z (Z.of_nat n) + 1 <= inject_Z (Z.of_nat m))%Q.
Proof.
  intros H. unfold Qle, Qplus. simpl. lia.
Qed.

Lemma inject_nat_pos (n : nat) : 0 < n -> (0 < inject_Z (Z.of_nat n))%Q.
Proof. intros H. unfold Qlt. simpl. lia. Qed.

Lemma fraction_in_unit (elapsed duration : Q) :
  (0 <= elapsed)%Q -> (0 < duration)%Q ->
  (0 <= Qmin 1 (elapsed / duration) <= 1)%Q.
Proof.
  intros He Hd. split.
  - apply Q.min_glb; [lra|].
    apply Qle_shift_div_l; [assumption|lra].
  - apply Q.le_min_l.
Qed.

Lemma clampProgress_unit (v : Q) :
  (0 <= v)%Q -> (v <= 1)%Q -> (clampProgress v == v)%Q.
Proof.
  intros H0 H1. unfold clampProgress.
  rewrite (Q.min_r 1 v H1). apply Q.max_r. exact H0.
Qed.

Lemma progress_in_unit (idx est : nat) (fraction : Q) :
  idx < est -> (0 <= fraction <= 1)%Q ->
  (0 <= (inject_Z (Z.of_nat idx) + fraction) / inject_Z (Z.of_nat est) <= 1)%Q.
Proof.
  intros Hlt [F0 F1].
  pose proof (inject_nat_nonneg idx) as Hi.
  pose proof (inject_nat_succ_le Hlt) as Hs.
  assert (0 < inject_Z (Z.of_nat est))%Q as He by (apply inject_nat_pos; lia).
  split.
  - apply Qle_shift_div_l; [assumption|lra].
  - apply Qle_shift_div_r; [assumption|lra].
Qed.

(** What the invariant gives for a player that is playing and not
    buffering. *)
Lemma playing_has_audio (w : World) (p : Player) (st : AudioStory) :
  Inv w -> player w = Some p -> story (app w) = Some st ->
  isPlaying p = true -> isBuffering p = false ->
  exists now seg buf,
    audioContextRef p = Some now /\
    nth_error (segments st) (currentSegmentIndex p) = Some seg /\
    audioBuffer seg = Some buf /\
    (startTimeRef p <= now)%Q /\
    currentSegmentIndex p < totalSegmentsEstimate st.
Proof.
  intros Hw Hp Hst Hplay Hbuf.
  pose proof (ok_inv (inv_player Hw Hp) Hst) as HP.
  pose proof (inv_story (inv_app Hw) Hst) as Hwf.
  destruct (pinv_playing HP Hplay Hbuf) as [Hctx Hidx].
  destruct (audioContextRef p) as [now|] eqn:Hc; [|congruence].
  destruct (nth_error (segments st) (currentSegmentIndex p)) as [seg|] eqn:Hn.
  - assert (isSome (audioBuffer seg) = true) as Ha.
    { pose proof (wf_audio Hwf) as Hall. rewrite Forall_forall in Hall.
      apply Hall. eapply nth_error_In. exact Hn. }
    destruct (audioBuffer seg) as [buf|] eqn:Hb; [|discriminate].
    exists now, seg, buf. repeat split; auto.
    + apply (rinv_clock (pinv_refs HP)). exact Hc.
    + pose proof (wf_bounded Hwf). lia.
  - apply nth_error_None in Hn. lia.
Qed.

(** C5. On every animation frame of a state, reached by an orderly run,
    in which the player is playing and not buffering, a value is handed to
    [onSmoothProgressUpdate]; it is
    (currentSegmentIndex + min(1, elapsed / duration)) / totalSegmentsEstimate
    with elapsed the audio clock minus the recorded start time, and it
    equals that quotient clamped to the unit interval. *)
Theorem progress_signal (w : World) (p : Player) (st : AudioStory) :
  orderly w ->
  player w = Some p ->
  story (app w) = Some st ->
  isPlaying p = true ->
  isBuffering p = false ->
  exists now buf totalProgress,
    audioContextRef p = Some now /\
    audioAt st (currentSegmentIndex p) = Some buf /\
    updateProgress st p = Some totalProgress /\
    step w AnimationFrame =
      Some {| app := setSmoothProgress totalProgress (app w);
              player := Some p |} /\
    (totalProgress ==
     clampProgress
       ((inject_Z (Z.of_nat (currentSegmentIndex p))
         + Qmin 1 ((now - startTimeRef p) / bufferDuration buf))
        / inject_Z (Z.of_nat (totalSegmentsEstimate st))))%Q.
Proof.
  intros Hr Hp Hst Hplay Hbuf. apply orderly_inv in Hr.
  destruct (playing_has_audio Hr Hp Hst Hplay Hbuf)
    as [now [seg [buf [Hc [Hn [Hb [Hclock Hidx]]]]]]].
  exists now, buf.
  eexists. split; [exact Hc|].
  split; [unfold audioAt; rewrite Hn; exact Hb|].
  assert (updateProgress st p =
          Some ((inject_Z (Z.of_nat (currentSegmentIndex p))
                 + Qmin 1 ((now - startTimeRef p) / bufferDuration buf))
                / inject_Z (Z.of_nat (totalSegmentsEstimate st)))%Q) as Hu.
  { unfold updateProgress. rewrite Hplay, Hbuf, Hc, Hn, Hb. reflexivity. }
  split; [exact Hu|].
  split.
  - simpl. rewrite Hp, Hst, Hu. reflexivity.
  - symmetry. apply clampProgress_unit;
      apply progress_in_unit; auto;
      apply fraction_in_unit; try apply bufferDuration_pos; lra.
Qed.

Lemma worldPlaying_orderly : orderly worldPlaying.
Proof. exists playingSecondChapter. vm_compute. reflexivity. Qed.

Lemma progress_signal_witness :
  orderly worldPlaying /\
  player worldPlaying = Some playerPlaying /\
  story (app worldPlaying) = Some storyTwoChapters /\
  isPlaying playerPlaying = true /\
  isBuffering playerPlaying = false /\
  (exists v, updateProgress storyTwoChapters playerPlaying = Some v /\
             (v == 5 # 16)%Q) /\
  exists now buf totalProgress,
    audioContextRef playerPlaying = Some now /\
    audioAt storyTwoChapters (currentSegmentIndex playerPlaying) = Some buf /\
    updateProgress storyTwoChapters playerPlaying = Some totalProgress /\
    step worldPlaying AnimationFrame =
      Some {| app := setSmoothProgress totalProgress (app worldPlaying);
              player := Some playerPlaying |} /\
    (totalProgress ==
     clampProgress
       ((inject_Z (Z.of_nat (currentSegmentIndex playerPlaying))
         + Qmin 1 ((now - startTimeRef playerPlaying) / bufferDuration buf))
        / inject_Z (Z.of_nat (totalSegmentsEstimate storyTwoChapters))))%Q.
Proof.
  split; [exact worldPlaying_orderly|].
  split; [reflexivity|].
  split; [reflexivity|].
  split; [reflexivity|].
  split; [reflexivity|].
  split; [eexists; split; [vm_compute; reflexivity|reflexivity]|].
  apply (@progress_signal worldPlaying playerPlaying storyTwoChapters
           worldPlaying_orderly eq_refl eq_refl eq_refl eq_refl).
Defined.

(** * Buffering at a chapter boundary *)

Lemma audioAt_none_length (st : AudioStory) (i : nat) :
  wfStory st -> audioAt st i = None -> List.length (segments st) <= i.
Proof.
  intros Hwf. unfold audioAt.
  destruct (nth_error (segments st) i) as [seg|] eqn:Hn.
  - intros Ha. pose proof (wf_audio Hwf) as Hall.
    rewrite Forall_forall in Hall.
    assert (isSome (audioBuffer seg) = true) as E
      by (apply Hall; eapply nth_error_In; exact Hn).
    rewrite Ha in E. discriminate.
  - intros _. apply nth_error_None. exact Hn.
Qed.

Lemma commit_story (a : App) (op : option Player) :
  story (app (commit a op)) = story a.
Proof.
  unfold commit.
  destruct (playerVisible a); [|reflexivity].
  destruct (story a) eqn:E; [|simpl; congruence].
  destruct op; simpl; [congruence|].
  destruct (onSegmentChange_view 0 a) as [Es _]. congruence.
Qed.

(** Only the completion of a background generation changes the chapters
    of a story that is being played. *)
Lemma orderlyStep_story (w w2 : World) (e : Event) (p : Player) :
  Inv w -> player w = Some p -> orderlyStep w e = Some w2 ->
  story (app w2) = story (app w) \/
  story (app w2) = None \/
  exists k reply, e = AudioSettles k reply.
Proof.
  intros Hw Hp. pose proof (inv_app Hw) as Ha.
  unfold orderlyStep. destruct e; simpl.
  - intros E; inversion E; subst. left. rewrite commit_story. reflexivity.
  - destruct (isKeyRequired (app w)); [|discriminate].
    intros E; inversion E; subst. left. rewrite commit_story. reflexivity.
  - intros E; inversion E; subst. left. rewrite commit_story. reflexivity.
  - destruct (plannerEnabled (app w)); [|discriminate].
    intros E; inversion E; subst. left.
    rewrite commit_story, schedulerEffect_story. reflexivity.
  - destruct (resumeStartup k r (app w)) as [a'|] eqn:Hr; [|discriminate].
    exfalso.
    pose proof (visible_no_startup Ha (@inv_visible _ Hw _ Hp)) as Hnil.
    unfold resumeStartup in Hr. rewrite Hnil in Hr. destruct k; discriminate.
  - destruct (resumeAfterText k reply (app w)) as [a'|] eqn:Hr; [|discriminate].
    intros E; inversion E; subst. left. rewrite commit_story.
    apply (@resumeAfterText_story _ _ _ _ Hr).
  - intros _. right. right. eauto.
  - destruct (playerVisible (app w)); [|discriminate].
    intros E; inversion E; subst. right. left.
    rewrite commit_story, schedulerEffect_story. reflexivity.
  - rewrite Hp. destruct (story (app w)) eqn:Hst; [|discriminate].
    intros E; inversion E; subst. left. simpl. congruence.
  - rewrite Hp. destruct (story (app w)) eqn:Hst; [|discriminate].
    destruct (sourceRef p); [|discriminate].
    destruct (src_ended s); [discriminate|].
    destruct (contextSuspended p); [discriminate|].
    intros E; inversion E; subst. left. simpl.
    match goal with
    | |- story (onSegmentChange ?i _) = _ =>
        destruct (onSegmentChange_view i (app w)) as [Es _]
    end.
    congruence.
  - rewrite Hp. destruct (story (app w)) eqn:Hst; [|discriminate].
    destruct (updateProgress a p); intros E; inversion E; subst; left;
      simpl; congruence.
  - destruct (Qle_bool 0 dt); [|discriminate].
    intros E; inversion E; subst. left. reflexivity.
  - discriminate.
  - rewrite Hp. destruct (contextSuspended p); [|discriminate].
    intros E; inversion E; subst. left. reflexivity.
Qed.

Lemma resumeAfterAudio_visible (k : nat) (reply : Settle AudioBuffer)
  (a a' : App) (replaced : bool) :
  resumeAfterAudio k reply a = Some (a', replaced) ->
  story a' <> None ->
  playerVisible a' = playerVisible a.
Proof.
  unfold resumeAfterAudio.
  destruct (nth_error (inflight a) k) as [[i [|data]]|]; try discriminate.
  destruct (withTimeout reply _ _); settled;
    unfold playerVisible; simpl; [|reflexivity].
  intros Hs. destruct (story a) as [st|]; simpl in *; [|congruence].
  destruct (hasIndex i (segments st)); reflexivity.
Qed.

(** The buffering effect on a player that waits for a chapter whose audio
    is present. *)
Lemma bufferingEffect_resumes (st : AudioStory) (p : Player) (buf : AudioBuffer) :
  contextSuspended p = false ->
  isPlaying p = true -> isBuffering p = true ->
  audioAt st (currentSegmentIndex p) = Some buf ->
  exists seg,
    nth_error (segments st) (currentSegmentIndex p) = Some seg /\
    bufferingEffect st p =
      let now := match audioContextRef p with Some t => t | None => 0%Q end in
      setStartTime (now - 0)%Q
        (setSource
           (Some {| src_segment := seg; src_buffer := buf; src_offset := 0%Q;
                    src_story := st; src_ended := false |})
           (stopAudio (setAudioContext (Some now) (setIsBuffering false p)))).
Proof.
  intros Hrun Hplay Hbuf. unfold audioAt, bufferingEffect.
  destruct (nth_error (segments st) (currentSegmentIndex p)) as [seg|];
    [|discriminate].
  intros Ha. exists seg. split; [reflexivity|].
  rewrite Hplay, Hbuf, Ha. simpl. unfold playSegment. rewrite Ha.
  cbn [contextSuspended setAudioContext setIsBuffering]. rewrite Hrun.
  reflexivity.
Qed.

Lemma handleSegmentEnd_buffers (closure : AudioStory) (p : Player) :
  indexRef p + 1 < totalSegmentsEstimate closure ->
  nth_error (segments closure) (indexRef p + 1) = None ->
  handleSegmentEnd closure p =
    setIsBuffering true
      (setSegmentOffset 0%Q (setCurrentSegmentIndex (indexRef p + 1) p)).
Proof.
  intros Hlt Hn. unfold handleSegmentEnd.
  assert ((indexRef p + 1 <? totalSegmentsEstimate closure) = true) as ->
    by (apply Nat.ltb_lt; exact Hlt).
  rewrite Hn. reflexivity.
Qed.

Lemma onended_fires (src : Source) (p : Player) (now : Q) :
  audioContextRef p = Some now ->
  (bufferDuration (src_buffer src) - (1 # 2) <= now - startTimeRef p)%Q ->
  onended src p = handleSegmentEnd (src_story src) p.
Proof.
  intros Hc Hle. unfold onended. rewrite Hc.
  apply Qle_bool_iff in Hle. rewrite Hle. reflexivity.
Qed.

Lemma bufferingEffect_waits (st : AudioStory) (p : Player) :
  audioAt st (currentSegmentIndex p) = None -> bufferingEffect st p = p.
Proof.
  unfold audioAt, bufferingEffect.
  destruct (nth_error (segments st) (currentSegmentIndex p)) as [seg|];
    [|reflexivity].
  intros Ha. rewrite Ha. simpl. rewrite !andb_false_r. reflexivity.
Qed.

Lemma bufferingEffect_idle (st : AudioStory) (p : Player) :
  isPlaying p = false \/ isBuffering p = false -> bufferingEffect st p = p.
Proof.
  intros H. unfold bufferingEffect.
  destruct (nth_error _ _); [|reflexivity].
  destruct H as [E|E]; rewrite E; simpl; rewrite ?andb_false_r; reflexivity.
Qed.

Lemma handleSegmentEnd_stops (closure : AudioStory) (p : Player) :
  totalSegmentsEstimate closure <= indexRef p + 1 ->
  nth_error (segments closure) (indexRef p + 1) = None ->
  handleSegmentEnd closure p = setIsPlaying false p.
Proof.
  intros Hge Hn. unfold handleSegmentEnd.
  assert ((indexRef p + 1 <? totalSegmentsEstimate closure) = false) as ->
    by (apply Nat.ltb_ge; exact Hge).
  rewrite Hn. reflexivity.
Qed.

(** C6, as stated, fails in two ways.  When the listener has paused while
    the player was buffering, the arrival of the awaited audio does not
    clear buffering and starts no playback.  At the boundary of the last
    expected chapter there is no audio for a next chapter, and the player
    stops instead of buffering. *)
Lemma buffering_resolves_counterexample :
  (orderlyRun initialWorld pausedWhileBuffering = Some worldPausedWhileBuffering /\
   player worldPausedWhileBuffering = Some playerPausedWhileBuffering /\
   option_map (fun st => audioAt st (currentSegmentIndex playerPausedWhileBuffering))
     (story (app worldPausedWhileBuffering)) = Some (Some sampleAudio) /\
   isBuffering playerPausedWhileBuffering = true /\
   sourceRef playerPausedWhileBuffering = None) /\
  (orderlyRun initialWorld atLastBoundary = Some worldAtLastBoundary /\
   option_map currentSegmentIndex (player worldAtLastBoundary) = Some 1 /\
   option_map (fun st => audioAt st 2) (story (app worldAtLastBoundary))
     = Some None /\
   step worldAtLastBoundary SourceEnded = Some worldStopped /\
   option_map isBuffering (player worldStopped) = Some false /\
   option_map isPlaying (player worldStopped) = Some false).
Proof.
  split.
  - split; [vm_compute; reflexivity|]. repeat split; reflexivity.
  - split; [vm_compute; reflexivity|].
    split; [reflexivity|].
    split; [reflexivity|].
    split; [vm_compute; reflexivity|].
    split; reflexivity.
Qed.

(** C6, amended.  In a state that an orderly run has reached and whose
    player is mounted: (a) when
    the source of the chapter being played ends at its boundary, a further
    chapter is expected (the next index is below the estimate) and its
    audio is not present, the player moves its cursor to that chapter,
    enters buffering and stays in play mode, and the progress value is
    untouched; (b) while the player is in play mode and buffering for a
    chapter without audio, an animation frame changes nothing, and any
    event after which that chapter's audio is present leaves the player no
    longer buffering, with a live source on that chapter's buffer started
    at offset 0; (c) when the source ends at the boundary of the last
    expected chapter and no further chapter exists, the player leaves play
    mode without buffering. *)
Theorem buffering_until_audio_arrives (w : World) (p : Player) (st : AudioStory) :
  orderly w ->
  player w = Some p ->
  story (app w) = Some st ->
  (forall src now,
      isPlaying p = true -> isBuffering p = false ->
      sourceRef p = Some src -> src_ended src = false ->
      audioContextRef p = Some now ->
      (bufferDuration (src_buffer src) - (1 # 2) <= now - startTimeRef p)%Q ->
      currentSegmentIndex p + 1 < totalSegmentsEstimate st ->
      audioAt st (currentSegmentIndex p + 1) = None ->
      exists w1 p1,
        step w SourceEnded = Some w1 /\
        player w1 = Some p1 /\
        isBuffering p1 = true /\
        isPlaying p1 = true /\
        currentSegmentIndex p1 = currentSegmentIndex p + 1 /\
        segmentOffsetRef p1 = 0%Q /\
        smoothProgress (app w1) = smoothProgress (app w) /\
        story (app w1) = Some st) /\
  (isPlaying p = true -> isBuffering p = true ->
   audioAt st (currentSegmentIndex p) = None ->
   step w AnimationFrame = Some w /\
   forall e w2 st2 buf,
     orderlyStep w e = Some w2 ->
     story (app w2) = Some st2 ->
     audioAt st2 (currentSegmentIndex p) = Some buf ->
     exists p2 src now,
       player w2 = Some p2 /\
       isBuffering p2 = false /\
       isPlaying p2 = true /\
       currentSegmentIndex p2 = currentSegmentIndex p /\
       sourceRef p2 = Some src /\
       src_buffer src = buf /\
       src_offset src = 0%Q /\
       src_ended src = false /\
       audioContextRef p2 = Some now /\
       startTimeRef p2 = (now - 0)%Q) /\
  (forall src now,
      isPlaying p = true -> isBuffering p = false ->
      sourceRef p = Some src -> src_ended src = false ->
      audioContextRef p = Some now ->
      (bufferDuration (src_buffer src) - (1 # 2) <= now - startTimeRef p)%Q ->
      totalSegmentsEstimate st <= currentSegmentIndex p + 1 ->
      audioAt st (currentSegmentIndex p + 1) = None ->
      exists w1 p1,
        step w SourceEnded = Some w1 /\
        player w1 = Some p1 /\
        isPlaying p1 = false /\
        isBuffering p1 = false /\
        currentSegmentIndex p1 = currentSegmentIndex p /\
        app w1 = app w).
Proof.
  intros Hr Hp Hst. pose proof (orderly_inv Hr) as Hw.
  pose proof (inv_app Hw) as Ha.
  pose proof (inv_player Hw Hp) as HOK.
  pose proof (ok_inv HOK Hst) as HP.
  pose proof (inv_story Ha Hst) as Hwf.
  split; [|split].
  - intros src now Hplay Hbuf Hsrc Hend Hc Hdue Hnext Hnone.
    pose proof (rinv_closure (pinv_refs HP) Hsrc) as [Hest Hlen].
    pose proof (@audioAt_none_length st _ Hwf Hnone) as Hshort.
    pose (p0 := setSource (Some (markEnded src)) p).
    assert (onended src p0 =
            setIsBuffering true
              (setSegmentOffset 0%Q
                 (setCurrentSegmentIndex (currentSegmentIndex p + 1) p0)))
      as Hon.
    { rewrite (@onended_fires src p0 now Hc Hdue).
      rewrite handleSegmentEnd_buffers; simpl; rewrite (ok_index HOK).
      - reflexivity.
      - rewrite <- Hest. exact Hnext.
      - apply nth_error_None. lia. }
    eexists. eexists.
    split.
    { simpl. rewrite Hp, Hst, Hsrc, Hend, (proj1 (inv_running Hw Hp)).
      fold p0. rewrite Hon.
      rewrite bufferingEffect_waits; [reflexivity|].
      simpl. exact Hnone. }
    simpl.
    match goal with
    | |- context [onSegmentChange ?i (app w)] =>
        destruct (onSegmentChange_view i (app w)) as [Es _];
        assert (smoothProgress (onSegmentChange i (app w)) = smoothProgress (app w))
          as Esm
    end.
    { unfold onSegmentChange.
      destruct (_ =? _); [reflexivity|].
      destruct (schedulerEffect_frame
                  (setCurrentPlayingIndex (currentSegmentIndex p + 1) (app w)))
        as [_ [_ [_ [_ [_ [_ [E _]]]]]]].
      exact E. }
    repeat split; auto. congruence.
  - intros Hplay Hbuf Hnone.
    split.
    { simpl. rewrite Hp, Hst. unfold updateProgress.
      rewrite Hplay, Hbuf. reflexivity. }
    intros e w2 st2 buf Hs Hst2 Haudio.
    destruct (orderlyStep_story e Hw Hp Hs) as [E|[E|[k [reply E]]]].
    + rewrite E, Hst in Hst2. inversion Hst2; subst. congruence.
    + congruence.
    + subst e. apply orderlyStep_step in Hs. simpl in Hs.
      destruct (resumeAfterAudio k reply (app w)) as [[a' b]|] eqn:Hra;
        [|discriminate].
      inversion Hs; subst; clear Hs.
      rewrite commit_story in Hst2.
      assert (story a' = Some st2) as Hst2'.
      { destruct b; [rewrite schedulerEffect_story in Hst2|]; exact Hst2. }
      assert (playerVisible (if b then schedulerEffect a' else a') = true) as Hv.
      { assert (playerVisible a' = true) as Hv'.
        { rewrite (@resumeAfterAudio_visible _ _ _ _ _ Hra); [|congruence].
          apply (@inv_visible _ Hw _ Hp). }
        destruct b; [rewrite schedulerEffect_visible|]; exact Hv'. }
      unfold commit. rewrite Hv.
      assert (story (if b then schedulerEffect a' else a') = Some st2) as ->.
      { destruct b; [rewrite schedulerEffect_story|]; exact Hst2'. }
      rewrite Hp. simpl.
      destruct (bufferingEffect_resumes st2 p (rinv_running (pinv_refs HP))
                  Hplay Hbuf Haudio) as [seg [_ Heff]].
      rewrite Heff. simpl.
      do 3 eexists. repeat split; auto.
  - intros src now Hplay Hbuf Hsrc Hend Hc Hdue Hlast Hnone.
    pose proof (rinv_closure (pinv_refs HP) Hsrc) as [Hest Hlen].
    pose proof (@audioAt_none_length st _ Hwf Hnone) as Hshort.
    pose (p0 := setSource (Some (markEnded src)) p).
    assert (onended src p0 = setIsPlaying false p0) as Hon.
    { rewrite (@onended_fires src p0 now Hc Hdue).
      rewrite handleSegmentEnd_stops.
      - reflexivity.
      - simpl. rewrite (ok_index HOK), <- Hest. exact Hlast.
      - simpl. rewrite (ok_index HOK). apply nth_error_None. lia. }
    eexists. eexists.
    split.
    { simpl. rewrite Hp, Hst, Hsrc, Hend, (proj1 (inv_running Hw Hp)).
      fold p0. rewrite Hon.
      rewrite bufferingEffect_idle; [reflexivity|left; reflexivity]. }
    simpl. repeat split; auto.
    unfold onSegmentChange. rewrite (ok_cursor HOK), Nat.eqb_refl. reflexivity.
Qed.

Lemma worldAtBoundary_orderly : orderly worldAtBoundary.
Proof. exists atFirstBoundary. vm_compute. reflexivity. Qed.

Lemma buffering_until_audio_arrives_witness :
  orderly worldAtBoundary /\
  player worldAtBoundary = Some playerAtBoundary /\
  story (app worldAtBoundary) = Some storyOneChapter /\
  exists w1 p1,
    step worldAtBoundary SourceEnded = Some w1 /\
    player w1 = Some p1 /\
    isBuffering p1 = true /\
    currentSegmentIndex p1 = 1.
Proof.
  split; [exact worldAtBoundary_orderly|].
  split; [reflexivity|].
  split; [reflexivity|].
  destruct (@buffering_until_audio_arrives worldAtBoundary playerAtBoundary
              storyOneChapter worldAtBoundary_orderly eq_refl eq_refl)
    as [Hboundary _].
  destruct (Hboundary
              {| src_segment := withAudio (segmentData 1 "chapter one") sampleAudio;
                 src_buffer := sampleAudio; src_offset := 0%Q;
                 src_story := storyOneChapter; src_ended := false |}
              20%Q)
    as [w1 [p1 [H1 [H2 [H3 [_ [H4 _]]]]]]];
    try reflexivity; try (vm_compute; lia); try (vm_compute; discriminate).
  exists w1, p1. repeat split; assumption.
Defined.

(** * Pause and resume *)

Lemma togglePlayback_pause (st : AudioStory) (p : Player) (now : Q) :
  isPlaying p = true -> isBuffering p = false ->
  audioContextRef p = Some now ->
  togglePlayback st p =
    setAutoScroll false
      (setIsPlaying false
         (stopAudio (setSegmentOffset (now - startTimeRef p)%Q p))).
Proof.
  intros Hplay Hbuf Hc. unfold togglePlayback.
  rewrite Hplay, Hc, Hbuf. reflexivity.
Qed.

Lemma togglePlayback_resume (st : AudioStory) (p : Player)
  (seg : StorySegment) (buf : AudioBuffer) :
  isPlaying p = false ->
  nth_error (segments st) (currentSegmentIndex p) = Some seg ->
  audioBuffer seg = Some buf ->
  togglePlayback st p =
    setAutoScroll true
      (playSegment st seg (segmentOffsetRef p)
         (setIsBuffering false (setIsPlaying true p))).
Proof.
  intros Hplay Hn Hb. unfold togglePlayback.
  rewrite Hplay, Hn, Hb. reflexivity.
Qed.

(** C8 fails at this run.  Chapter 4 of a journey is in flight when the
    journey is reset; its audio arrives after the next journey has stored
    its chapter 1 and is inserted behind it.  The listener plays chapter 1
    to its end, hears five seconds of the chapter stored at position 1,
    which is the old chapter 4, and pauses: the offset recorded is 5.
    While the player is paused, chapter 3 of the new journey arrives and
    the sort puts it at position 1.  The next toggle starts the audio of
    that chapter 3, another buffer, at the offset recorded for the old
    chapter 4. *)
Theorem resume_plays_another_chapter :
  orderlyRun initialWorld pausedOnOldChapter = Some worldOnOldChapter /\
  player worldOnOldChapter = Some playerOnOldChapter /\
  isPlaying playerOnOldChapter = true /\
  currentSegmentIndex playerOnOldChapter = 1 /\
  sourceRef playerOnOldChapter = Some sourceOnOldChapter /\
  index (src_segment sourceOnOldChapter) = 4 /\
  text (src_segment sourceOnOldChapter) = "old chapter four"%string /\
  src_buffer sourceOnOldChapter = sampleAudio /\
  step worldOnOldChapter PlayPauseClicked = Some worldPausedOnOld /\
  player worldPausedOnOld = Some playerPausedOnOld /\
  isPlaying playerPausedOnOld = false /\
  sourceRef playerPausedOnOld = None /\
  (segmentOffsetRef playerPausedOnOld == 5)%Q /\
  orderlyRun worldPausedOnOld thirdChapterArrives = Some worldDisplaced /\
  player worldDisplaced = Some playerPausedOnOld /\
  option_map (fun st => map index (segments st)) (story (app worldDisplaced))
    = Some [1; 3; 4] /\
  step worldDisplaced PlayPauseClicked = Some worldResumedOnNew /\
  player worldResumedOnNew = Some playerResumedOnNew /\
  isPlaying playerResumedOnNew = true /\
  currentSegmentIndex playerResumedOnNew = 1 /\
  sourceRef playerResumedOnNew = Some sourceResumedOnNew /\
  index (src_segment sourceResumedOnNew) = 3 /\
  text (src_segment sourceResumedOnNew) = "new chapter three"%string /\
  src_buffer sourceResumedOnNew = otherAudio /\
  (src_offset sourceResumedOnNew == 5)%Q /\
  src_buffer sourceResumedOnNew <> src_buffer sourceOnOldChapter.
Proof.
  repeat match goal with
         | |- _ /\ _ => split
         end;
    try (vm_compute; reflexivity).
  vm_compute. discriminate.
Qed.


(** * Evaluation of the look-ahead trigger *)















(** * Resetting the journey *)

(** C7, as stated, fails: after a reset issued while a generation is in
    flight the lock is still held and the state is not the initial one; and
    a chapter of the discarded journey is stored in, and shown by, the next
    journey when its generation completes after that journey has started. *)
Lemma reset_restores_initial_state_counterexample :
  (orderlyRun initialWorld resetMidGeneration = Some worldAfterReset /\
   isGeneratingRef (app worldAfterReset) = true /\
   isGeneratingRef initialApp = false /\
   inflight (app worldAfterReset)
     = [ {| att_index := 2; att_phase := AwaitingText |} ] /\
   loadingMessage (app worldAfterReset) = preparingStory /\
   loadingMessage initialApp = ""%string /\
   worldAfterReset <> initialWorld) /\
  (orderlyRun initialWorld staleCompletion = Some worldStaleCompletion /\
   route (app worldStaleCompletion) = Some shortRoute /\
   option_map (fun st => map text (segments st))
     (story (app worldStaleCompletion))
     = Some ["new chapter one"; "old chapter two"]%string /\
   player worldStaleCompletion <> None).
Proof.
  split.
  - split; [vm_compute; reflexivity|].
    split; [reflexivity|].
    split; [reflexivity|].
    split; [reflexivity|].
    split; [reflexivity|].
    split; [reflexivity|].
    intros E. apply (f_equal (fun w => isGeneratingRef (app w))) in E.
    vm_compute in E. discriminate.
  - split; [vm_compute; reflexivity|].
    split; [reflexivity|].
    split; [reflexivity|].
    vm_compute. discriminate.
Qed.

Lemma App_eq (a b : App) :
  appState a = appState b -> route a = route b -> story a = story b ->
  loadingMessage a = loadingMessage b ->
  scriptError a = scriptError b -> generationError a = generationError b ->
  isKeyRequired a = isKeyRequired b ->
  isGeneratingRef a = isGeneratingRef b ->
  isBackgroundGenerating a = isBackgroundGenerating b ->
  currentPlayingIndex a = currentPlayingIndex b ->
  smoothProgress a = smoothProgress b ->
  inflight a = inflight b -> starting a = starting b ->
  a = b.
Proof.
  destruct a, b; simpl; intros; subst; reflexivity.
Qed.

Lemma resumeAfterAudio_no_story (k : nat) (reply : Settle AudioBuffer)
  (a a' : App) (replaced : bool) :
  AppInv a -> story a = None ->
  resumeAfterAudio k reply a = Some (a', replaced) ->
  a' = releaseLock (setInflight [] a) /\ replaced = false.
Proof.
  intros H Hs. unfold resumeAfterAudio.
  destruct (nth_error (inflight a) k) as [[i [|data]]|] eqn:Hk; try discriminate.
  destruct (nth_error_single _ _ (inv_single H) Hk) as [_ Hrm].
  destruct (withTimeout reply _ _); settled;
    (split; [apply App_eq|]); simpl; rewrite ?Hrm, ?Hs; reflexivity.
Qed.

Lemma handleReset_hides (a : App) (op : option Player) :
  commit (schedulerEffect (handleReset a)) op
  = {| app := handleReset a; player := None |}.
Proof.
  assert (schedulerEffect (handleReset a) = handleReset a) as ->
    by (unfold schedulerEffect, schedulerTrigger; reflexivity).
  unfold commit, playerVisible. simpl. rewrite !andb_false_r. reflexivity.
Qed.

(** While no story is stored, only the completion of a start-up stores
    one. *)
Lemma step_no_story (w w' : World) (e : Event) :
  story (app w) = None ->
  completesStartup e = false ->
  step w e = Some w' ->
  story (app w') = None.
Proof.
  intros Hns He. destruct e; simpl; try discriminate He.
  - settled. rewrite commit_story. exact Hns.
  - destruct (isKeyRequired (app w)); [|discriminate].
    settled. rewrite commit_story. exact Hns.
  - settled. rewrite commit_story. exact Hns.
  - settled. rewrite commit_story, schedulerEffect_story. exact Hns.
  - destruct (resumeAfterText k reply (app w)) as [a'|] eqn:Hr; [|discriminate].
    settled. rewrite commit_story.
    destruct (@resumeAfterText_story _ _ _ _ Hr) as [Es _]. congruence.
  - destruct (resumeAfterAudio k reply (app w)) as [[a' b]|] eqn:Hr;
      [|discriminate].
    settled. rewrite commit_story.
    assert (story a' = None) as Hn.
    { destruct (story a') as [st'|] eqn:E; [|reflexivity].
      destruct (@resumeAfterAudio_story _ _ _ _ _ Hr) as [_ Hg].
      destruct (Hg st' E) as [st [Hst _]]. congruence. }
    destruct b; [rewrite schedulerEffect_story|]; exact Hn.
  - destruct (playerVisible (app w)); [|discriminate].
    settled. rewrite commit_story, schedulerEffect_story. reflexivity.
  - destruct (player w); [|discriminate]. rewrite Hns. discriminate.
  - destruct (player w); [|discriminate]. rewrite Hns. discriminate.
  - destruct (player w); [|discriminate]. rewrite Hns. discriminate.
  - destruct (Qle_bool 0 dt); [|discriminate]. settled. exact Hns.
  - destruct (player w) as [p|]; [|discriminate].
    destruct (contextSuspended p); [discriminate|]. settled. exact Hns.
  - destruct (player w) as [p|]; [|discriminate].
    destruct (contextSuspended p); [|discriminate]. settled. exact Hns.
Qed.

Lemma run_no_story (evs : list Event) (w w' : World) :
  story (app w) = None ->
  Forall (fun e => completesStartup e = false) evs ->
  run w evs = Some w' ->
  story (app w') = None.
Proof.
  revert w. induction evs as [|e evs IH]; simpl; intros w Hns Hall.
  - intros E; inversion E; subst. exact Hns.
  - inversion Hall as [|? ? He Hall']; subst.
    destruct (step w e) as [w1|] eqn:Hs; [|discriminate].
    apply IH; [|exact Hall']. eapply step_no_story; eassumption.
Qed.

Lemma no_story_no_player (w : World) :
  Always w -> story (app w) = None -> player w = None.
Proof.
  intros Hw Hns. apply always_hidden; [exact Hw|].
  unfold playerVisible. rewrite Hns. simpl.
  rewrite andb_false_r. reflexivity.
Qed.

(** C7, amended.  In every run, a reset (the button is rendered with the
    player) clears the story with all its chapters and the route, sets the
    playback index and the progress to 0, clears the start-up error, puts
    the App in the planning state and unmounts the player, which stops the
    audio and discards the playback cursor.  It leaves everything else of
    the page as it is: the generation lock and its mirror, the background
    generation in flight, the pending start-ups, the loading message and
    the key and maps flags.  From then on, until a start-up completes, no
    event stores a story or mounts a player; in particular, the generation
    that the reset left in flight stores nothing when it ends while no
    story exists, and its end releases the lock. *)
Theorem reset_clears_journey (w w' : World) :
  reachable w ->
  step w ResetClicked = Some w' ->
  (appState (app w') = PLANNING /\
   route (app w') = None /\
   story (app w') = None /\
   currentPlayingIndex (app w') = 0 /\
   smoothProgress (app w') = 0%Q /\
   generationError (app w') = None /\
   player w' = None) /\
  (isGeneratingRef (app w') = isGeneratingRef (app w) /\
   isBackgroundGenerating (app w') = isBackgroundGenerating (app w) /\
   inflight (app w') = inflight (app w) /\
   starting (app w') = starting (app w) /\
   loadingMessage (app w') = loadingMessage (app w) /\
   isKeyRequired (app w') = isKeyRequired (app w) /\
   scriptError (app w') = scriptError (app w)) /\
  (forall evs w2,
      run w' evs = Some w2 ->
      Forall (fun e => completesStartup e = false) evs ->
      story (app w2) = None /\ player w2 = None) /\
  (forall k reply a' replaced,
      resumeAfterAudio k reply (app w') = Some (a', replaced) ->
      story a' = None /\ replaced = false /\
      isGeneratingRef a' = false /\ inflight a' = []).
Proof.
  intros Hr Hs. pose proof (reachable_always Hr) as Hw.
  pose proof (step_always ResetClicked Hw Hs) as Hw'.
  simpl in Hs.
  destruct (playerVisible (app w)) eqn:Hv; [|discriminate].
  rewrite handleReset_hides in Hs.
  inversion Hs; subst; clear Hs. simpl in *.
  split; [repeat split; reflexivity|].
  split; [repeat split; reflexivity|].
  split.
  - intros evs w2 Hrun Hall.
    assert (story (app w2) = None) as Hns
      by (eapply run_no_story; [|exact Hall|exact Hrun]; reflexivity).
    split; [exact Hns|].
    apply no_story_no_player; [|exact Hns].
    eapply run_always; eassumption.
  - intros k reply a' replaced E.
    destruct (@attempt_ends_audio k reply _ a' replaced
                (al_single (al_app Hw')) E) as [E1 [_ E2]].
    assert (story a' = None /\ replaced = false) as [E3 E4].
    { revert E. unfold resumeAfterAudio. simpl.
      destruct (nth_error (inflight (app w)) k) as [[i [|data]]|];
        try discriminate.
      destruct (withTimeout reply _ _); settled; auto. }
    auto.
Qed.

Lemma reset_clears_journey_witness :
  reachable worldJourneyStarted /\
  step worldJourneyStarted ResetClicked = Some worldAfterReset /\
  story (app worldAfterReset) = None /\
  player worldAfterReset = None /\
  isGeneratingRef (app worldAfterReset) = isGeneratingRef (app worldJourneyStarted) /\
  loadingMessage (app worldAfterReset) = preparingStory.
Proof.
  split; [exact worldJourneyStarted_reachable|].
  split; [vm_compute; reflexivity|].
  destruct (@reset_clears_journey worldJourneyStarted worldAfterReset
              worldJourneyStarted_reachable)
    as ((_ & _ & H1 & _ & _ & _ & H2) & (H3 & _ & _ & _ & H4 & _) & _).
  - vm_compute. reflexivity.
  - split; [exact H1|]. split; [exact H2|]. split; [exact H3|].
    rewrite H4. reflexivity.
Defined.

(** * Length of the outline *)

(** C9, as stated, fails: for two chapters, a reply holding one hint
    yields an outline of length one, and a reply without text yields the
    empty outline. *)
Lemma outline_length_counterexample :
  generateStoryOutline (Parsed (JArray [JString "Start at the ghat."])) 2
    = JArray [JString "Start at the ghat."] /\
  hintCount (generateStoryOutline (Parsed (JArray [JString "Start at the ghat."])) 2)
    <> Some 2 /\
  generateStoryOutline NoText 2 = JArray [] /\
  hintCount (generateStoryOutline NoText 2) <> Some 2.
Proof.
  repeat split; try reflexivity; simpl; discriminate.
Qed.

(** C9, amended.  When the model replies with a JSON array, the outline is
    its first [totalSegments] elements in order: its length is the smaller
    of [totalSegments] and the length of the reply, so at most
    [totalSegments], and equal to it exactly when the reply holds at least
    that many hints; a reply without text gives the empty outline.  When
    the request fails or its text is not JSON, the outline is the filler
    hint repeated [totalSegments] times. *)
Theorem outline_length (totalSegments : nat) :
  (forall items,
      generateStoryOutline (Parsed (JArray items)) totalSegments
        = JArray (firstn totalSegments items) /\
      hintCount (generateStoryOutline (Parsed (JArray items)) totalSegments)
        = Some (Nat.min totalSegments (List.length items)) /\
      (totalSegments <= List.length items <->
       hintCount (generateStoryOutline (Parsed (JArray items)) totalSegments)
         = Some totalSegments)) /\
  generateStoryOutline NoText totalSegments = JArray [] /\
  (forall reply,
      reply = RequestFails \/ reply = Malformed ->
      generateStoryOutline reply totalSegments
        = JArray (repeat (JString fillerHint) totalSegments) /\
      hintCount (generateStoryOutline reply totalSegments) = Some totalSegments).
Proof.
  split; [|split].
  - intros items. simpl. rewrite length_firstn.
    split; [reflexivity|]. split; [reflexivity|].
    split; intros H.
    + f_equal. lia.
    + inversion H. lia.
  - simpl. rewrite firstn_nil. reflexivity.
  - intros reply [E|E]; subst; simpl; rewrite repeat_length; auto.
Qed.

(** * Contiguity of the chapter array *)

(** C10 fails at this run.  Chapter 3 of a journey is in flight when the
    journey is reset; its audio arrives after the next journey has stored
    its chapter 1.  The update of the story finds a story, finds no
    chapter of index 3 in it, and inserts the old chapter: the story holds
    chapters 1 and 3, and array position 1 stores the chapter of
    index 3. *)
Theorem stale_chapter_breaks_contiguity :
  orderlyRun initialWorld staleThirdChapter = Some worldWithGap /\
  story (app worldWithGap) = Some storyWithGap /\
  map index (segments storyWithGap) = [1; 3] /\
  option_map index (nth_error (segments storyWithGap) 1) = Some 3 /\
  ~ (forall k seg, nth_error (segments storyWithGap) k = Some seg ->
                   index seg = k + 1).
Proof.
  split; [vm_compute; reflexivity|].
  split; [reflexivity|].
  split; [reflexivity|].
  split; [reflexivity|].
  intros H.
  specialize (H 1 (withAudio (segmentData 3 "old chapter three") sampleAudio)
                eq_refl).
  simpl in H. discriminate.
Qed.

Lemma calmRun_orderlyRun (evs : list Event) (w w' : World) :
  calmRun w evs = Some w' -> orderlyRun w evs = Some w'.
Proof.
  revert w. induction evs as [|e evs IH]; simpl; intros w H.
  - exact H.
  - destruct (resetIsCalm w e); [|discriminate].
    destruct (orderlyStep w e) as [w1|]; [|discriminate].
    apply IH. exact H.
Qed.

Lemma calmlyReachable_orderly (w : World) :
  calmlyReachable w -> orderly w.
Proof. intros [evs H]. exists evs. apply calmRun_orderlyRun. exact H. Qed.

Lemma seq_lower_bound (l : list StorySegment) (s : nat) :
  map index l = seq s (List.length l) ->
  Forall (fun z => s <= index z) l.
Proof.
  intros H. apply Forall_forall. intros z Hz.
  assert (In (index z) (seq s (List.length l))) as Hin
    by (rewrite <- H; apply in_map; exact Hz).
  apply in_seq in Hin. lia.
Qed.

Lemma sortByIndex_of_seq (l : list StorySegment) (s : nat) :
  map index l = seq s (List.length l) -> sortByIndex l = l.
Proof.
  revert s. induction l as [|y l IH]; simpl; intros s H.
  - reflexivity.
  - injection H as Hy Hl.
    rewrite (IH (S s) Hl).
    apply insertByIndex_head.
    pose proof (@seq_lower_bound l (S s) Hl) as Hall.
    eapply Forall_impl; [|exact Hall].
    simpl. intros z Hz. lia.
Qed.

Lemma insertChapter_contiguous (seg : StorySegment) (st : AudioStory) :
  map index (segments st) = seq 1 (List.length (segments st)) ->
  index seg = List.length (segments st) + 1 ->
  insertChapter (index seg) seg (Some st)
    = Some (withSegments st (segments st ++ [seg])) /\
  map index (segments st ++ [seg])
    = seq 1 (List.length (segments st ++ [seg])).
Proof.
  intros Hc Hi.
  assert (map index (segments st ++ [seg])
          = seq 1 (List.length (segments st ++ [seg]))) as Hc'.
  { rewrite map_app, length_app. simpl.
    rewrite Nat.add_1_r, seq_S, Hc, Hi. f_equal. f_equal. lia. }
  split; [|exact Hc'].
  unfold insertChapter.
  assert (hasIndex (index seg) (segments st) = false) as ->.
  { destruct (hasIndex (index seg) (segments st)) eqn:E; [|reflexivity].
    apply hasIndex_true_in in E. rewrite Hc in E. apply in_seq in E. lia. }
  rewrite (@sortByIndex_of_seq _ 1 Hc'). reflexivity.
Qed.

Lemma initialApp_contiguous : Contiguous initialApp.
Proof. constructor; simpl; [discriminate|intros att []]. Qed.

Lemma schedulerEffect_contiguous (a : App) :
  AppInv a -> Contiguous a -> Contiguous (schedulerEffect a).
Proof.
  intros H [C1 C2]. unfold schedulerEffect.
  destruct (schedulerTrigger a) as [i|] eqn:T; [|constructor; assumption].
  apply schedulerTrigger_some in T.
  destruct T as [st [Hst [Hr [_ [Hi [_ [_ Hfree]]]]]]].
  unfold generateNextSegment. rewrite Hst.
  destruct (route a); [|congruence].
  rewrite Hfree.
  assert (inflight a = []) as Hnil.
  { pose proof (inv_lock H) as Hl. rewrite Hfree in Hl.
    destruct (inflight a); [reflexivity|simpl in Hl; discriminate]. }
  constructor; simpl.
  - exact C1.
  - rewrite Hnil. intros att [E|[]]. subst att. simpl.
    exists st. auto.
Qed.

Lemma onSegmentChange_contiguous (i : nat) (a : App) :
  AppInv a -> Contiguous a -> Contiguous (onSegmentChange i a).
Proof.
  intros H C. unfold onSegmentChange.
  destruct (i =? currentPlayingIndex a); [assumption|].
  apply schedulerEffect_contiguous.
  - destruct H. constructor; simpl; auto.
  - destruct C. constructor; simpl; auto.
Qed.

Lemma no_story_no_attempt (a : App) :
  Contiguous a -> story a = None -> inflight a = [].
Proof.
  intros [_ C2] Hs. destruct (inflight a) as [|att l] eqn:E; [reflexivity|].
  destruct (C2 att) as [st [Hst _]]; [left; reflexivity|]. congruence.
Qed.

Lemma resumeStartup_contiguous (k : nat) (r : StartupReplies) (a a' : App) :
  AppInv a -> Contiguous a -> resumeStartup k r a = Some a' -> Contiguous a'.
Proof.
  intros H C. unfold resumeStartup.
  destruct (nth_error (starting a) k) as [d|] eqn:Hk; [|discriminate].
  assert (starting a <> []) as Hne.
  { intros E. rewrite E in Hk. destruct k; discriminate. }
  assert (story a = None) as Hns.
  { destruct (story a) eqn:E; [|reflexivity].
    destruct (inv_ready H) as [Hr _]; [congruence|].
    rewrite (inv_starting H Hne) in Hr. simpl in Hr. lia. }
  pose proof (no_story_no_attempt C Hns) as Hnil.
  destruct (startupOutcome d r) as [[st|m]|] eqn:Ho; [| |discriminate].
  - settled.
    apply startupOutcome_wf in Ho. destruct Ho as [_ [Hlen Hidx]].
    constructor; simpl.
    + intros st' E; inversion E; subst. rewrite Hidx, Hlen. reflexivity.
    + rewrite Hnil. intros att [].
  - destruct (includes m _); settled;
      constructor; simpl; rewrite ?Hns, ?Hnil; try discriminate;
      intros att [].
Qed.

Lemma resumeAfterText_contiguous (k : nat) (reply : Settle string)
  (a a' : App) :
  AppInv a -> Contiguous a -> resumeAfterText k reply a = Some a' ->
  Contiguous a'.
Proof.
  intros H [C1 C2]. unfold resumeAfterText.
  destruct (nth_error (inflight a) k) as [[i [|data]]|] eqn:Hk; try discriminate.
  destruct (nth_error_single _ _ (inv_single H) Hk) as [Hone Hrm].
  destruct (C2 {| att_index := i; att_phase := AwaitingText |})
    as [st [Hst Hi]]; [rewrite Hone; left; reflexivity|].
  simpl in Hi.
  destruct (withTimeout reply _ _);
    settled; constructor; simpl; auto.
  - rewrite Hone. destruct k; simpl.
    + intros att [E|[]]. subst att. exists st. auto.
    + intros att [E|Hin]; [subst att; exists st; auto|].
      destruct k; simpl in Hin; destruct Hin.
  - rewrite Hrm. intros att [].
Qed.

Lemma resumeAfterAudio_contiguous (k : nat) (reply : Settle AudioBuffer)
  (a a' : App) (replaced : bool) :
  AppInv a -> Contiguous a ->
  resumeAfterAudio k reply a = Some (a', replaced) -> Contiguous a'.
Proof.
  intros H [C1 C2]. unfold resumeAfterAudio.
  destruct (nth_error (inflight a) k) as [[i [|data]]|] eqn:Hk; try discriminate.
  destruct (nth_error_single _ _ (inv_single H) Hk) as [Hone Hrm].
  assert (index data = i) as Hdata.
  { apply (inv_parked H). rewrite Hone. left. reflexivity. }
  destruct (C2 {| att_index := i; att_phase := AwaitingAudio data |})
    as [st [Hst Hi]]; [rewrite Hone; left; reflexivity|].
  simpl in Hi.
  destruct (withTimeout reply _ _) as [buf|m];
    settled; constructor; simpl;
    rewrite ?Hrm.
  - rewrite Hst.
    destruct (@insertChapter_contiguous (withAudio data buf) st (C1 st Hst) Hi)
      as [Hins Hseq].
    change (index (withAudio data buf)) with (index data) in Hins.
    rewrite Hins.
    intros st' E; inversion E; subst. simpl. exact Hseq.
  - intros att Hin. destruct Hin.
  - exact C1.
  - intros att Hin. destruct Hin.
Qed.

Lemma handleReset_contiguous (a : App) :
  inflight a = [] -> Contiguous (handleReset a).
Proof.
  intros Hnil. constructor; simpl; [discriminate|].
  rewrite Hnil. intros att [].
Qed.

Lemma commit_contiguous (a : App) (op : option Player) :
  AppInv a -> Contiguous a -> Contiguous (app (commit a op)).
Proof.
  intros H C. unfold commit.
  destruct (playerVisible a); [|exact C].
  destruct (story a); [|exact C].
  destruct op; simpl; [exact C|].
  apply onSegmentChange_contiguous; assumption.
Qed.

Lemma orderlyStep_contiguous (w w' : World) (e : Event) :
  Inv w -> Contiguous (app w) -> resetIsCalm w e = true ->
  orderlyStep w e = Some w' -> Contiguous (app w').
Proof.
  intros Hw C Hcalm. pose proof (inv_app Hw) as Ha.
  unfold orderlyStep. destruct e; simpl.
  - settled.
    apply commit_contiguous; [apply setIsKeyRequired_inv; assumption|].
    destruct C. constructor; simpl; auto.
  - destruct (isKeyRequired (app w)); [|discriminate].
    settled.
    apply commit_contiguous; [apply setIsKeyRequired_inv; assumption|].
    destruct C. constructor; simpl; auto.
  - settled.
    apply commit_contiguous; [apply setScriptError_inv; assumption|].
    destruct C. constructor; simpl; auto.
  - destruct (plannerEnabled (app w)) eqn:Hen; [|discriminate].
    settled.
    pose proof (handleGenerateStory_inv details Ha Hen) as Ha'.
    apply commit_contiguous; [apply schedulerEffect_inv; assumption|].
    apply schedulerEffect_contiguous; [assumption|].
    destruct C. constructor; simpl; auto.
  - destruct (resumeStartup k r (app w)) as [a'|] eqn:Hr; [|discriminate].
    settled.
    pose proof (@resumeStartup_inv k r _ a' Ha Hr) as Ha'.
    apply commit_contiguous; [apply schedulerEffect_inv; assumption|].
    apply schedulerEffect_contiguous; [assumption|].
    apply (@resumeStartup_contiguous k r (app w) a' Ha C Hr).
  - destruct (resumeAfterText k reply (app w)) as [a'|] eqn:Hr; [|discriminate].
    settled.
    apply commit_contiguous; [eapply resumeAfterText_inv; eassumption|].
    apply (@resumeAfterText_contiguous k reply (app w) a' Ha C Hr).
  - destruct (resumeAfterAudio k reply (app w)) as [[a' b]|] eqn:Hr;
      [|discriminate].
    settled.
    pose proof (@resumeAfterAudio_inv k reply _ a' b Ha Hr) as Ha'.
    pose proof (@resumeAfterAudio_contiguous k reply _ a' b Ha C Hr) as C'.
    destruct b.
    + apply commit_contiguous; [apply schedulerEffect_inv; assumption|].
      apply schedulerEffect_contiguous; assumption.
    + apply commit_contiguous; assumption.
  - destruct (playerVisible (app w)) eqn:Hv; [|discriminate].
    settled.
    pose proof (handleReset_inv Ha Hv) as Ha'.
    apply commit_contiguous; [apply schedulerEffect_inv; assumption|].
    apply schedulerEffect_contiguous; [assumption|].
    apply handleReset_contiguous.
    simpl in Hcalm. destruct (inflight (app w)); [reflexivity|discriminate].
  - destruct (player w); [|discriminate].
    destruct (story (app w)); [|discriminate].
    intros E; inversion E; subst. exact C.
  - destruct (player w) as [p|]; [|discriminate].
    destruct (story (app w)); [|discriminate].
    destruct (sourceRef p) as [src|]; [|discriminate].
    destruct (src_ended src); [discriminate|].
    destruct (contextSuspended p); [discriminate|].
    intros E; inversion E; subst. simpl.
    apply onSegmentChange_contiguous; assumption.
  - destruct (player w) as [p|]; [|discriminate].
    destruct (story (app w)) as [st|]; [|discriminate].
    destruct (updateProgress st p); intros E; inversion E; subst; [|exact C].
    simpl. destruct C. constructor; simpl; auto.
  - destruct (Qle_bool 0 dt); [|discriminate].
    intros E; inversion E; subst. exact C.
  - discriminate.
  - destruct (player w) as [p|]; [|discriminate].
    destruct (contextSuspended p); [|discriminate].
    intros E; inversion E; subst. exact C.
Qed.

Lemma calmRun_contiguous (evs : list Event) (w w' : World) :
  Inv w -> Contiguous (app w) -> calmRun w evs = Some w' ->
  Contiguous (app w').
Proof.
  revert w. induction evs as [|e evs IH]; simpl; intros w Hw C.
  - intros E; inversion E; subst. exact C.
  - destruct (resetIsCalm w e) eqn:Hcalm; [|discriminate].
    destruct (orderlyStep w e) as [w1|] eqn:Hs; [|discriminate].
    apply IH.
    + eapply orderlyStep_inv; in_turn.
    + eapply orderlyStep_contiguous; eassumption.
Qed.

(** In every state reached by an orderly run in which no reset is issued
    while a background generation is in flight, the chapter array is
    index-contiguous: position k stores the chapter of index k + 1, the
    only index a generation in flight was called with is the number of
    stored chapters plus one, and the chapter the player addresses as
    [segments[currentSegmentIndex]] has index [currentSegmentIndex + 1]. *)
Lemma chapters_contiguous_in_calm_runs (w : World) (st : AudioStory) :
  calmlyReachable w ->
  story (app w) = Some st ->
  (forall k seg, nth_error (segments st) k = Some seg -> index seg = k + 1) /\
  map index (segments st) = seq 1 (List.length (segments st)) /\
  (forall att, In att (inflight (app w)) ->
               att_index att = List.length (segments st) + 1) /\
  (forall p seg,
      player w = Some p ->
      nth_error (segments st) (currentSegmentIndex p) = Some seg ->
      index seg = currentSegmentIndex p + 1).
Proof.
  intros [evs Hrun] Hst.
  pose proof (calmRun_contiguous evs initialWorld_inv initialApp_contiguous Hrun)
    as [C1 C2].
  pose proof (C1 st Hst) as Hseq.
  assert (forall k seg, nth_error (segments st) k = Some seg ->
                        index seg = k + 1) as Hpos.
  { intros k seg Hn.
    pose proof (map_nth_error index k (segments st) Hn) as Hm.
    rewrite Hseq in Hm.
    assert (k < List.length (segments st)) as Hk
      by (eapply nth_error_length; exact Hn).
    rewrite (nth_error_nth' _ 0) in Hm by (rewrite length_seq; exact Hk).
    rewrite seq_nth in Hm by exact Hk.
    inversion Hm. lia. }
  split; [exact Hpos|].
  split; [exact Hseq|].
  split.
  - intros att Hin. destruct (C2 att Hin) as [st' [Hst' Hi]].
    rewrite Hst in Hst'. inversion Hst'; subst. exact Hi.
  - intros p seg _ Hn. apply Hpos. exact Hn.
Qed.

Lemma chapters_contiguous_in_calm_runs_witness :
  calmlyReachable worldTwoChapters /\
  story (app worldTwoChapters) = Some storyTwoChapters /\
  map index (segments storyTwoChapters) = [1; 2] /\
  (forall att, In att (inflight (app worldTwoChapters)) -> att_index att = 3).
Proof.
  assert (calmlyReachable worldTwoChapters) as Hc
    by (exists twoChapters; vm_compute; reflexivity).
  split; [exact Hc|].
  split; [reflexivity|].
  split; [reflexivity|].
  apply (@chapters_contiguous_in_calm_runs worldTwoChapters storyTwoChapters
           Hc eq_refl).
Defined.

(** * Pause and resume around the arrival of chapters *)

Lemma resumeAfterAudio_prefix (k : nat) (reply : Settle AudioBuffer)
  (a a' : App) (replaced : bool) (st : AudioStory) :
  AppInv a -> Contiguous a -> story a = Some st ->
  resumeAfterAudio k reply a = Some (a', replaced) ->
  exists st',
    story a' = Some st' /\
    forall c seg, nth_error (segments st) c = Some seg ->
                  nth_error (segments st') c = Some seg.
Proof.
  intros H [C1 C2] Hst. unfold resumeAfterAudio.
  destruct (nth_error (inflight a) k) as [[i [|data]]|] eqn:Hk; try discriminate.
  destruct (nth_error_single _ _ (inv_single H) Hk) as [Hone Hrm].
  assert (index data = i) as Hdata.
  { apply (inv_parked H). rewrite Hone. left. reflexivity. }
  destruct (C2 {| att_index := i; att_phase := AwaitingAudio data |})
    as [st0 [Hst0 Hi]]; [rewrite Hone; left; reflexivity|].
  rewrite Hst in Hst0. inversion Hst0; subst st0. simpl in Hi.
  destruct (withTimeout reply _ _) as [buf|m]; settled; simpl.
  - rewrite Hst.
    destruct (@insertChapter_contiguous (withAudio data buf) st (C1 st Hst) Hi)
      as [Hins _].
    change (index (withAudio data buf)) with (index data) in Hins.
    rewrite Hins. eexists. split; [reflexivity|].
    intros c seg Hn. simpl. rewrite nth_error_app1; [exact Hn|].
    eapply nth_error_length. exact Hn.
  - exists st. split; [exact Hst|]. auto.
Qed.

Lemma paused_step (c : nat) (off : Q) (seg : StorySegment) (w w' : World)
  (e : Event) :
  Inv w -> Contiguous (app w) -> pausedAt c off seg w ->
  whilePaused e = true -> step w e = Some w' ->
  Inv w' /\ Contiguous (app w') /\ pausedAt c off seg w'.
Proof.
  intros Hw C HP He Hs.
  assert (orderlyStep w e = Some w') as Ho
    by (apply orderlyStep_of; [destruct e; try discriminate; reflexivity|exact Hs]).
  split; [eapply orderlyStep_inv; eassumption|].
  split.
  { eapply orderlyStep_contiguous; try eassumption.
    destruct e; try discriminate; reflexivity. }
  destruct HP as [q [st [Hp [Hst [Hplay [Hbuf [Hsrc [Hoff [Hcur [Hctx Hn]]]]]]]]]].
  pose proof (inv_visible Hw Hp) as Hv.
  pose proof (inv_app Hw) as Ha.
  destruct e; try discriminate; simpl in Hs.
  - (* TextSettles *)
    destruct (resumeAfterText k reply (app w)) as [a'|] eqn:Hr; [|discriminate].
    inversion Hs; subst; clear Hs.
    destruct (@resumeAfterText_story _ _ _ _ Hr) as [Es [Ev _]].
    unfold commit. rewrite Ev, Hv, Es, Hst, Hp.
    rewrite bufferingEffect_idle by (left; exact Hplay).
    exists q, st. simpl. repeat split; auto. congruence.
  - (* AudioSettles *)
    destruct (resumeAfterAudio k reply (app w)) as [[a' b]|] eqn:Hr;
      [|discriminate].
    inversion Hs; subst; clear Hs.
    destruct (@resumeAfterAudio_prefix _ _ _ _ _ _ Ha C Hst Hr)
      as [st' [Hst' Hpre]].
    assert (playerVisible a' = true) as Hv'.
    { rewrite (@resumeAfterAudio_visible _ _ _ _ _ Hr); [exact Hv|congruence]. }
    assert (story (if b then schedulerEffect a' else a') = Some st') as Es.
    { destruct b; [rewrite schedulerEffect_story|]; exact Hst'. }
    assert (playerVisible (if b then schedulerEffect a' else a') = true) as Ev.
    { destruct b; [rewrite schedulerEffect_visible|]; exact Hv'. }
    unfold commit. rewrite Ev, Es, Hp.
    rewrite bufferingEffect_idle by (left; exact Hplay).
    exists q, st'. simpl. repeat split; auto.
  - (* AnimationFrame *)
    rewrite Hp, Hst in Hs.
    assert (updateProgress st q = None) as Hu
      by (unfold updateProgress; rewrite Hplay; reflexivity).
    rewrite Hu in Hs. inversion Hs; subst.
    exists q, st. repeat split; auto.
  - (* ClockAdvances *)
    destruct (Qle_bool 0 dt); [|discriminate].
    inversion Hs; subst; clear Hs. simpl. rewrite Hp. simpl.
    exists (advanceClock dt q), st.
    split; [reflexivity|]. split; [exact Hst|].
    unfold advanceClock.
    destruct (audioContextRef q) as [t|] eqn:Hc; [|congruence].
    destruct (contextSuspended q); simpl; repeat split; auto;
      try congruence; try discriminate.
Qed.

Lemma paused_run (c : nat) (off : Q) (seg : StorySegment)
  (evs : list Event) (w w' : World) :
  Inv w -> Contiguous (app w) -> pausedAt c off seg w ->
  Forall (fun e => whilePaused e = true) evs -> run w evs = Some w' ->
  Inv w' /\ pausedAt c off seg w'.
Proof.
  revert w. induction evs as [|e evs IH]; simpl; intros w Hw C HP Hall Hr.
  - inversion Hr; subst. split; assumption.
  - inversion Hall as [|? ? He Hrest]; subst.
    destruct (step w e) as [w1|] eqn:Hs; [|discriminate].
    destruct (@paused_step _ _ _ _ _ _ Hw C HP He Hs) as [Hw1 [C1 HP1]].
    apply (IH w1); assumption.
Qed.

(** X30.  Pause and resume, in an orderly run without a reset during a
    generation.  Toggling while a chapter plays stops the source and
    records the audio clock minus the recorded start time as offset, and
    leaves the App state as it is.  Whatever then goes on around the
    paused player (time passes, frames are drawn, replies to generation
    requests arrive and chapters are stored), toggling again plays the
    same chapter, from the same stored buffer, at the recorded offset, and
    sets the start time so that the elapsed time continues from it;
    the toggle leaves the App state as it is, so that nothing is
    requested anew. *)
Theorem pause_then_resume_later (w : World) (p : Player) (st : AudioStory)
  (now : Q) :
  calmlyReachable w ->
  player w = Some p ->
  story (app w) = Some st ->
  isPlaying p = true ->
  isBuffering p = false ->
  audioContextRef p = Some now ->
  exists w1 p1 seg buf,
    step w PlayPauseClicked = Some w1 /\
    app w1 = app w /\
    player w1 = Some p1 /\
    isPlaying p1 = false /\
    sourceRef p1 = None /\
    segmentOffsetRef p1 = (now - startTimeRef p)%Q /\
    nth_error (segments st) (currentSegmentIndex p) = Some seg /\
    audioBuffer seg = Some buf /\
    forall evs w2,
      Forall (fun e => whilePaused e = true) evs ->
      run w1 evs = Some w2 ->
      exists p2 now2 w3 p3 src,
        player w2 = Some p2 /\
        audioContextRef p2 = Some now2 /\
        step w2 PlayPauseClicked = Some w3 /\
        app w3 = app w2 /\
        player w3 = Some p3 /\
        isPlaying p3 = true /\
        isBuffering p3 = false /\
        currentSegmentIndex p3 = currentSegmentIndex p /\
        sourceRef p3 = Some src /\
        src_segment src = seg /\
        src_buffer src = buf /\
        src_offset src = (now - startTimeRef p)%Q /\
        src_ended src = false /\
        startTimeRef p3 = (now2 - (now - startTimeRef p))%Q.
Proof.
  intros Hcalm Hp Hst Hplay Hbuf Hc.
  pose proof (orderly_inv (calmlyReachable_orderly Hcalm)) as Hw.
  assert (Contiguous (app w)) as C.
  { destruct Hcalm as [evs0 Hrun].
    apply (calmRun_contiguous evs0 initialWorld_inv initialApp_contiguous Hrun). }
  destruct (inv_running Hw Hp) as [Hrun _].
  destruct (playing_has_audio Hw Hp Hst Hplay Hbuf)
    as [now' [seg [buf [Hc' [Hn [Hb _]]]]]].
  pose (p1 := setAutoScroll false
                (setIsPlaying false
                   (stopAudio (setSegmentOffset (now - startTimeRef p)%Q p)))).
  assert (step w PlayPauseClicked = Some {| app := app w; player := Some p1 |})
    as S1.
  { simpl. rewrite Hp, Hst.
    rewrite (togglePlayback_pause st p Hplay Hbuf Hc).
    rewrite bufferingEffect_idle; [reflexivity|left; reflexivity]. }
  exists {| app := app w; player := Some p1 |}, p1, seg, buf.
  split; [exact S1|].
  split; [reflexivity|].
  split; [reflexivity|].
  split; [reflexivity|].
  split; [reflexivity|].
  split; [reflexivity|].
  split; [exact Hn|].
  split; [exact Hb|].
  intros evs w2 Hall Hr2.
  assert (Inv {| app := app w; player := Some p1 |}) as Hw1
    by (apply (@orderlyStep_inv w _ PlayPauseClicked Hw);
        apply orderlyStep_of; [reflexivity|exact S1]).
  assert (pausedAt (currentSegmentIndex p) (now - startTimeRef p)%Q seg
            {| app := app w; player := Some p1 |}) as HP1.
  { exists p1, st. simpl. repeat split; auto. rewrite Hc. discriminate. }
  destruct (@paused_run _ _ _ _ _ _ Hw1 C HP1 Hall Hr2) as [Hw2 HP2].
  destruct HP2 as [q [st2 [Hp2 [Hst2 [Hq1 [Hq2 [Hq3 [Hq4 [Hq5 [Hq6 Hq7]]]]]]]]]].
  destruct (audioContextRef q) as [now2|] eqn:Hc2; [|congruence].
  destruct (inv_running Hw2 Hp2) as [Hrun2 _].
  pose (p3 := setAutoScroll true
                (playSegment st2 seg (segmentOffsetRef q)
                   (setIsBuffering false (setIsPlaying true q)))).
  assert (togglePlayback st2 q = p3) as Ht.
  { apply togglePlayback_resume with (buf := buf); [exact Hq1| |exact Hb].
    rewrite Hq5. exact Hq7. }
  assert (isBuffering p3 = false) as Hb3.
  { unfold p3, playSegment. rewrite Hb. simpl. rewrite Hrun2. reflexivity. }
  exists q, now2, {| app := app w2; player := Some p3 |}, p3,
         {| src_segment := seg; src_buffer := buf;
            src_offset := (now - startTimeRef p)%Q;
            src_story := st2; src_ended := false |}.
  split; [exact Hp2|].
  split; [exact Hc2|].
  split.
  { simpl. rewrite Hp2, Hst2, Ht.
    rewrite bufferingEffect_idle; [reflexivity|right; exact Hb3]. }
  split; [reflexivity|].
  split; [reflexivity|].
  unfold p3, playSegment. rewrite Hb. simpl. rewrite Hrun2, Hc2, Hq4. simpl.
  repeat split; auto.
Qed.

Lemma worldPlaying_calm : calmlyReachable worldPlaying.
Proof. exists playingSecondChapter. vm_compute. reflexivity. Qed.

Lemma pause_then_resume_later_witness :
  calmlyReachable worldPlaying /\
  player worldPlaying = Some playerPlaying /\
  story (app worldPlaying) = Some storyTwoChapters /\
  isPlaying playerPlaying = true /\
  isBuffering playerPlaying = false /\
  audioContextRef playerPlaying = Some (25 # 1)%Q /\
  exists w1 w2 w3 p3 src,
    step worldPlaying PlayPauseClicked = Some w1 /\
    run w1 arrivalWhilePaused = Some w2 /\
    step w2 PlayPauseClicked = Some w3 /\
    player w3 = Some p3 /\
    sourceRef p3 = Some src /\
    index (src_segment src) = 2 /\
    src_offset src = (25 - startTimeRef playerPlaying)%Q.
Proof.
  split; [exact worldPlaying_calm|].
  split; [reflexivity|].
  split; [reflexivity|].
  split; [reflexivity|].
  split; [reflexivity|].
  split; [reflexivity|].
  destruct (@pause_then_resume_later worldPlaying playerPlaying storyTwoChapters
              25%Q worldPlaying_calm eq_refl eq_refl eq_refl eq_refl eq_refl)
    as [w1 [p1 [seg [buf [S1 [_ [_ [_ [_ [_ [Hn [_ H]]]]]]]]]]]].
  assert (seg = withAudio (segmentData 2 "chapter two") sampleAudio) as Hseg.
  { vm_compute in Hn. inversion Hn. reflexivity. }
  assert (exists w2, run w1 arrivalWhilePaused = Some w2) as [w2 Hr2].
  { vm_compute in S1. inversion S1; subst w1. eexists. vm_compute. reflexivity. }
  destruct (H arrivalWhilePaused w2) as [p2 [now2 [w3 [p3 [src H']]]]].
  - repeat constructor.
  - exact Hr2.
  - destruct H' as (_ & _ & S3 & _ & Hp3 & _ & _ & _ & Hsrc & Hs1 & _ & Hs3 & _).
    exists w1, w2, w3, p3, src.
    repeat split; try assumption.
    rewrite Hs1, Hseg. reflexivity.
Defined.

(** * The number of chapters of a journey *)

Lemma calculateTotalSegments_cases (d : nat) :
  calculateTotalSegments d =
  if d <=? 120 then 2 else if d <=? 180 then 3 else 4.
Proof.
  unfold calculateTotalSegments.
  pose proof (Nat.div_mod_eq d 60) as Hdm.
  pose proof (Nat.mod_upper_bound d 60) as Hub.
  destruct (d mod 60 =? 0) eqn:E;
    [apply Nat.eqb_eq in E|apply Nat.eqb_neq in E];
    destruct (d <=? 120) eqn:L;
    [apply Nat.leb_le in L|apply Nat.leb_gt in L
    |apply Nat.leb_le in L|apply Nat.leb_gt in L];
    try lia;
    (destruct (d <=? 180) eqn:M;
     [apply Nat.leb_le in M|apply Nat.leb_gt in M]; lia).
Qed.

(** X1.  A journey of up to two minutes gets two chapters, one of up to
    three minutes three, any longer one four; the number never drops when
    the journey gets longer. *)
Theorem calculateTotalSegments_thresholds (d : nat) :
  (calculateTotalSegments d = 2 <-> d <= 120) /\
  (calculateTotalSegments d = 3 <-> 120 < d <= 180) /\
  (calculateTotalSegments d = 4 <-> 180 < d) /\
  (forall d', d <= d' -> calculateTotalSegments d <= calculateTotalSegments d').
Proof.
  rewrite (calculateTotalSegments_cases d).
  destruct (d <=? 120) eqn:L;
    [apply Nat.leb_le in L|apply Nat.leb_gt in L];
    [|destruct (d <=? 180) eqn:M;
      [apply Nat.leb_le in M|apply Nat.leb_gt in M]];
    (repeat split; try lia;
     intros d' Hle; rewrite (calculateTotalSegments_cases d');
     destruct (d' <=? 120) eqn:L';
     [apply Nat.leb_le in L'|apply Nat.leb_gt in L'];
     try lia;
     destruct (d' <=? 180) eqn:M';
     [apply Nat.leb_le in M'|apply Nat.leb_gt in M']; lia).
Qed.

(** * More invariants of the App state *)

Lemma startupOutcome_shape (d : RouteDetails) (r : StartupReplies)
  (st : AudioStory) :
  startupOutcome d r = Some (Fulfilled st) ->
  totalSegmentsEstimate st = calculateTotalSegments (durationSeconds d) /\
  option_map index (hd_error (segments st)) = Some 1.
Proof.
  unfold startupOutcome.
  destruct (withTimeout (outlineReply r) _ _); [|discriminate].
  destruct (withTimeout (firstTextReply r) _ _); [|discriminate].
  destruct (withTimeout (firstAudioReply r) _ _); [|discriminate].
  destruct (landmarksReply r); try discriminate.
  settled. split; reflexivity.
Qed.

Lemma initialApp_facts : AppFacts initialApp.
Proof.
  constructor; simpl; auto; try discriminate; intros ? [].
Qed.

Lemma schedulerEffect_facts (a : App) :
  AppInv a -> AppFacts a -> AppFacts (schedulerEffect a).
Proof.
  intros H F. unfold schedulerEffect.
  destruct (schedulerTrigger a) as [i|] eqn:T; [|assumption].
  apply schedulerTrigger_some in T.
  destruct T as [st [Hst [Hr [_ [Hi [_ [_ Hfree]]]]]]].
  unfold generateNextSegment. rewrite Hst.
  destruct (route a); [|congruence].
  rewrite Hfree.
  pose proof (wf_nonempty (inv_story H Hst)) as Hne.
  destruct F as [F1 F2 F3 F4 F5 F6 F7].
  constructor; simpl; auto.
  intros att Hin. apply in_app_or in Hin. destruct Hin as [Hin|[E|[]]].
  - apply F7. exact Hin.
  - subst att. simpl. lia.
Qed.

Lemma setCurrentPlayingIndex_facts (i : nat) (a : App) :
  AppFacts a -> AppFacts (setCurrentPlayingIndex i a).
Proof. intros [F1 F2 F3 F4 F5 F6 F7]. constructor; simpl; auto. Qed.

Lemma onSegmentChange_facts (i : nat) (a : App) :
  AppInv a -> AppFacts a -> AppFacts (onSegmentChange i a).
Proof.
  intros H F. unfold onSegmentChange.
  destruct (i =? currentPlayingIndex a); [assumption|].
  apply schedulerEffect_facts.
  - destruct H. constructor; simpl; auto.
  - apply setCurrentPlayingIndex_facts. exact F.
Qed.

Lemma planner_no_story (a : App) :
  AppInv a -> plannerEnabled a = true -> story a = None /\ starting a = [].
Proof.
  intros H Hen.
  assert (AppState_value (appState a) <= AppState_value ROUTE_CONFIRMED) as Hle.
  { unfold plannerEnabled in Hen.
    apply andb_prop in Hen. destruct Hen as [_ Hen].
    apply negb_true_iff, Nat.ltb_ge in Hen. exact Hen. }
  split.
  - destruct (story a) eqn:E; [|reflexivity].
    destruct (inv_ready H) as [Hr _]; [congruence|].
    simpl in *. lia.
  - destruct (starting a) eqn:E; [reflexivity|].
    assert (appState a = GENERATING_INITIAL_SEGMENT) as Hg
      by (apply (inv_starting H); congruence).
    rewrite Hg in Hle. simpl in Hle. lia.
Qed.

Lemma handleGenerateStory_facts (d : RouteDetails) (a : App) :
  AppInv a -> AppFacts a -> plannerEnabled a = true ->
  AppFacts (handleGenerateStory d a).
Proof.
  intros H F Hen.
  destruct (planner_no_story H Hen) as [Hns Hnil].
  destruct F as [F1 F2 F3 F4 F5 F6 F7].
  constructor; simpl; auto; try discriminate.
  - rewrite Hnil. discriminate.
  - rewrite Hns. discriminate.
  - rewrite Hnil. simpl. intros d' [E|[]]. congruence.
Qed.

Lemma startup_no_story (k : nat) (d : RouteDetails) (a : App) :
  AppInv a -> nth_error (starting a) k = Some d ->
  story a = None /\ starting a = [d] /\ removeNth k (starting a) = [] /\
  appState a = GENERATING_INITIAL_SEGMENT.
Proof.
  intros H Hk.
  destruct (nth_error_single _ _ (inv_one_start H) Hk) as [Hone Hrm].
  assert (starting a <> []) as Hne by (rewrite Hone; discriminate).
  pose proof (inv_starting H Hne) as Hg.
  repeat split; auto.
  destruct (story a) eqn:E; [|reflexivity].
  destruct (inv_ready H) as [Hr _]; [congruence|].
  rewrite Hg in Hr. simpl in Hr. lia.
Qed.

Lemma resumeStartup_facts (k : nat) (r : StartupReplies) (a a' : App) :
  AppInv a -> AppFacts a -> resumeStartup k r a = Some a' -> AppFacts a'.
Proof.
  intros H F. unfold resumeStartup.
  destruct (nth_error (starting a) k) as [d|] eqn:Hk; [|discriminate].
  destruct (startup_no_story k H Hk) as [Hns [Hone [Hrm Hg]]].
  assert (route a = Some d) as Hroute
    by (apply (af_start F); rewrite Hone; left; reflexivity).
  destruct F as [F1 F2 F3 F4 F5 F6 F7].
  destruct (startupOutcome d r) as [[st|m]|] eqn:Ho; [| |discriminate].
  - settled. apply startupOutcome_shape in Ho. destruct Ho as [He Hf].
    constructor; simpl; rewrite ?Hrm; auto; try discriminate.
    + intros st' r' E1 E2. inversion E1; subst. congruence.
    + intros d' [].
    + intros st' E1. inversion E1; subst. exact Hf.
  - destruct (includes m _); settled;
      constructor; simpl; rewrite ?Hrm, ?Hns; auto; try discriminate;
      intros d' [].
Qed.

Lemma resumeAfterText_facts (k : nat) (reply : Settle string) (a a' : App) :
  AppInv a -> AppFacts a -> resumeAfterText k reply a = Some a' ->
  AppFacts a'.
Proof.
  intros H F. unfold resumeAfterText.
  destruct (nth_error (inflight a) k) as [[i [|data]]|] eqn:Hk; try discriminate.
  destruct (nth_error_single _ _ (inv_single H) Hk) as [Hone Hrm].
  assert (2 <= i) as Hi.
  { apply (af_attempt F {| att_index := i; att_phase := AwaitingText |}).
    rewrite Hone. left. reflexivity. }
  destruct F as [F1 F2 F3 F4 F5 F6 F7].
  destruct (withTimeout reply _ _); settled;
    constructor; simpl; rewrite ?Hrm; auto.
  - rewrite Hone. destruct k; simpl.
    + intros att [E|[]]. subst att. exact Hi.
    + intros att [E|Hin]; [subst att; exact Hi|].
      destruct k; simpl in Hin; destruct Hin.
  - intros att [].
Qed.

Lemma resumeAfterAudio_facts (k : nat) (reply : Settle AudioBuffer)
  (a a' : App) (replaced : bool) :
  AppInv a -> AppFacts a ->
  resumeAfterAudio k reply a = Some (a', replaced) -> AppFacts a'.
Proof.
  intros H F. unfold resumeAfterAudio.
  destruct (nth_error (inflight a) k) as [[i [|data]]|] eqn:Hk; try discriminate.
  destruct (nth_error_single _ _ (inv_single H) Hk) as [Hone Hrm].
  assert (index data = i) as Hdata.
  { apply (inv_parked H). rewrite Hone. left. reflexivity. }
  assert (2 <= i) as Hi.
  { apply (af_attempt F {| att_index := i; att_phase := AwaitingAudio data |}).
    rewrite Hone. left. reflexivity. }
  destruct F as [F1 F2 F3 F4 F5 F6 F7].
  assert (forall buf st',
            insertChapter i (withAudio data buf) (story a) = Some st' ->
            exists st, story a = Some st /\
              option_map index (hd_error (segments st')) = Some 1 /\
              totalSegmentsEstimate st' = totalSegmentsEstimate st) as Hins.
  { intros buf st' E. destruct (story a) as [st|] eqn:Hst; [|discriminate].
    exists st. split; [reflexivity|].
    eapply insertChapter_first; [| | |exact E].
    - apply (wf_order (inv_story H Hst)).
    - apply F6. reflexivity.
    - simpl. lia. }
  destruct (withTimeout reply _ _) as [buf|m]; settled.
  - constructor; simpl; rewrite ?Hrm; auto.
    + intros E. specialize (F2 E).
      destruct (story a); [simpl|congruence].
      destruct (hasIndex _ _); discriminate.
    + intros st' r E1 E2. destruct (Hins _ st' E1) as [st [Hst [_ He]]].
      rewrite He. apply F4; assumption.
    + intros st' E1. destruct (Hins _ st' E1) as [st [Hst [Hf _]]]. exact Hf.
    + intros att [].
  - constructor; simpl; rewrite ?Hrm; auto. intros att [].
Qed.

Lemma handleReset_facts (a : App) :
  AppInv a -> AppFacts a -> playerVisible a = true -> AppFacts (handleReset a).
Proof.
  intros H F Hv. pose proof (visible_no_startup H Hv) as Hnil.
  destruct F as [F1 F2 F3 F4 F5 F6 F7].
  constructor; simpl; auto; try discriminate.
  rewrite Hnil. intros d [].
Qed.

Lemma setIsKeyRequired_facts (v : bool) (a : App) :
  AppFacts a -> AppFacts (setIsKeyRequired v a).
Proof. intros [F1 F2 F3 F4 F5 F6 F7]. constructor; simpl; auto. Qed.

Lemma setScriptError_facts (v : bool) (a : App) :
  AppFacts a -> AppFacts (setScriptError v a).
Proof. intros [F1 F2 F3 F4 F5 F6 F7]. constructor; simpl; auto. Qed.

Lemma setSmoothProgress_facts (v : Q) (a : App) :
  AppFacts a -> AppFacts (setSmoothProgress v a).
Proof. intros [F1 F2 F3 F4 F5 F6 F7]. constructor; simpl; auto. Qed.

(** * More invariants of the player *)

Lemma playSegment_view (closure : AudioStory) (seg : StorySegment) (o : Q)
  (p : Player) :
  contextSuspended p = false ->
  isSome (audioBuffer seg) = true ->
  currentSegmentIndex (playSegment closure seg o p) = currentSegmentIndex p /\
  isPlaying (playSegment closure seg o p) = isPlaying p /\
  isBuffering (playSegment closure seg o p) = isBuffering p /\
  sounding (playSegment closure seg o p) = true.
Proof.
  unfold playSegment, sounding.
  destruct (audioBuffer seg); [|discriminate].
  intros Hrun _. simpl. rewrite Hrun. simpl. auto.
Qed.

(** No handler of the player changes the state of the audio context. *)
Lemma playSegment_context (st : AudioStory) (seg : StorySegment) (o : Q)
  (p : Player) :
  contextSuspended (playSegment st seg o p) = contextSuspended p.
Proof.
  unfold playSegment. destruct (audioBuffer seg); [|reflexivity].
  simpl. destruct (contextSuspended p) eqn:E; simpl; auto.
Qed.

Lemma initialPlayer_facts (st : AudioStory) :
  wfStory st -> PlayerFacts st initialPlayer /\ overlayDue st initialPlayer.
Proof.
  intros Hwf. pose proof (wf_estimate Hwf). split.
  - constructor; simpl; try lia. discriminate.
  - unfold overlayDue. simpl. discriminate.
Qed.

Lemma PlayerFacts_grow (st st' : AudioStory) (p : Player) :
  storyGrows st st' -> PlayerFacts st p -> PlayerFacts st' p.
Proof.
  intros [He Hl] [P1 P2 P3 P4]. constructor; try lia; [|exact P4].
  intros Hs. destruct (P3 Hs) as [Q1 [Q2 Q3]]. repeat split; auto. lia.
Qed.

Lemma playSegment_facts (st closure : AudioStory) (seg : StorySegment)
  (o : Q) (p : Player) :
  contextSuspended p = false ->
  isSome (audioBuffer seg) = true ->
  currentSegmentIndex p < List.length (segments st) ->
  currentSegmentIndex p < totalSegmentsEstimate st ->
  isPlaying p = true -> isBuffering p = false ->
  PlayerFacts st (playSegment closure seg o p).
Proof.
  intros Hrun Ha Hlen Hest Hp Hb.
  destruct (playSegment_view closure seg o p Hrun Ha) as [E1 [E2 [E3 _]]].
  constructor; rewrite ?E1, ?E2, ?E3, ?playSegment_context; auto. lia.
Qed.

Lemma bufferingEffect_facts (st : AudioStory) (p : Player) :
  PlayerFacts st p ->
  PlayerFacts st (bufferingEffect st p) /\ overlayDue st (bufferingEffect st p).
Proof.
  intros F. pose proof (pf_running F) as Hrun.
  unfold bufferingEffect, overlayDue, audioAt.
  destruct (nth_error (segments st) (currentSegmentIndex p)) as [seg|] eqn:Hn.
  - destruct (isBuffering p && isPlaying p && isSome (audioBuffer seg)) eqn:Hc.
    + apply andb_prop in Hc. destruct Hc as [Hc Ha].
      apply andb_prop in Hc. destruct Hc as [Hb Hp].
      destruct (playSegment_view st seg 0%Q (setIsBuffering false p) Hrun Ha)
        as [E1 [E2 [E3 _]]].
      split.
      * apply playSegment_facts; simpl; auto.
        -- eapply nth_error_length; exact Hn.
        -- apply (pf_label F).
      * rewrite E3. simpl. discriminate.
    + split; [exact F|]. rewrite Hn. intros Hb Hp.
      rewrite Hb, Hp in Hc. simpl in Hc.
      destruct (audioBuffer seg); [discriminate|reflexivity].
  - split; [exact F|]. rewrite Hn. reflexivity.
Qed.

Lemma togglePlayback_facts (st : AudioStory) (p : Player) :
  PlayerFacts st p -> PlayerFacts st (togglePlayback st p).
Proof.
  intros F. pose proof (pf_running F) as Hrun.
  pose proof (pf_within F) as P1. pose proof (pf_label F) as P2.
  unfold togglePlayback.
  destruct (isPlaying p) eqn:Hp.
  - destruct (audioContextRef p); [destruct (negb (isBuffering p))|];
      constructor; simpl; auto; discriminate.
  - assert (sounding p = false) as Hquiet.
    { destruct (sounding p) eqn:E; [|reflexivity].
      destruct (pf_sounding F E) as [Q1 _]. congruence. }
    destruct (nth_error (segments st) (currentSegmentIndex p)) as [seg|] eqn:Hn.
    + destruct (isSome (audioBuffer seg)) eqn:Ha.
      * assert (PlayerFacts st
                  (playSegment st seg (segmentOffsetRef (setIsPlaying true p))
                     (setIsBuffering false (setIsPlaying true p)))) as Hq.
        { apply playSegment_facts; simpl; auto.
          eapply nth_error_length; exact Hn. }
        destruct Hq as [Q1 Q2 Q3 Q4]. constructor; simpl; auto.
      * constructor; simpl; auto.
        unfold sounding in *. simpl. rewrite Hquiet. discriminate.
    + constructor; simpl; auto.
      unfold sounding in *. simpl. rewrite Hquiet. discriminate.
Qed.

Lemma handleSegmentEnd_facts (st closure : AudioStory) (p : Player) :
  contextSuspended p = false ->
  wfStory st -> storyGrows closure st ->
  indexRef p = currentSegmentIndex p ->
  sounding p = false ->
  isPlaying p = true -> isBuffering p = false ->
  currentSegmentIndex p < List.length (segments st) ->
  PlayerFacts st (handleSegmentEnd closure p).
Proof.
  intros Hrun Hwf [He Hl] Hidx Hquiet Hp Hb Hlen.
  pose proof (wf_bounded Hwf) as Hbound.
  unfold handleSegmentEnd. rewrite Hidx.
  destruct ((currentSegmentIndex p + 1 <? totalSegmentsEstimate closure)
            || isSome (nth_error (segments closure) (currentSegmentIndex p + 1)))
    eqn:Hcond.
  - assert (currentSegmentIndex p + 1 < totalSegmentsEstimate st) as Hnext.
    { apply orb_prop in Hcond. destruct Hcond as [Hc|Hc].
      - apply Nat.ltb_lt in Hc. lia.
      - destruct (nth_error (segments closure) (currentSegmentIndex p + 1))
          eqn:Hn; [|discriminate].
        apply nth_error_length in Hn. lia. }
    destruct (nth_error (segments closure) (currentSegmentIndex p + 1))
      as [next|] eqn:Hn.
    + destruct (isSome (audioBuffer next)) eqn:Ha.
      * apply playSegment_facts; simpl; auto.
        apply nth_error_length in Hn. lia.
      * constructor; simpl; auto; try lia.
        unfold sounding in *. simpl. rewrite Hquiet. discriminate.
    + constructor; simpl; auto; try lia.
      unfold sounding in *. simpl. rewrite Hquiet. discriminate.
  - constructor; simpl; auto; try lia.
    unfold sounding in *. simpl. rewrite Hquiet. discriminate.
Qed.

Lemma onended_facts (st : AudioStory) (src : Source) (p : Player) :
  contextSuspended p = false ->
  wfStory st -> storyGrows (src_story src) st ->
  indexRef p = currentSegmentIndex p ->
  sounding p = false ->
  isPlaying p = true -> isBuffering p = false ->
  currentSegmentIndex p < List.length (segments st) ->
  PlayerFacts st (onended src p).
Proof.
  intros Hrun Hwf Hg Hidx Hquiet Hp Hb Hlen.
  assert (PlayerFacts st p) as Hsame.
  { pose proof (wf_bounded Hwf). constructor; try lia; [|exact Hrun].
    rewrite Hquiet. discriminate. }
  unfold onended.
  destruct (audioContextRef p); [|exact Hsame].
  destruct (Qle_bool _ _); [|exact Hsame].
  apply handleSegmentEnd_facts; assumption.
Qed.

Lemma syncIndexRef_facts (st : AudioStory) (p : Player) :
  PlayerFacts st p -> PlayerFacts st (syncIndexRef p).
Proof. intros [P1 P2 P3 P4]. constructor; simpl; auto. Qed.

Lemma advanceClock_facts (st : AudioStory) (dt : Q) (p : Player) :
  PlayerFacts st p /\ overlayDue st p ->
  PlayerFacts st (advanceClock dt p) /\ overlayDue st (advanceClock dt p).
Proof.
  intros [[P1 P2 P3 P4] Ho]. unfold advanceClock, overlayDue in *.
  destruct (audioContextRef p); [|split; [constructor|]; auto].
  destruct (contextSuspended p) eqn:Hsus; [discriminate|].
  split; [constructor|]; simpl; auto.
Qed.

(** * More invariants of the whole page *)

Lemma commit_facts (a : App) (op : option Player) :
  AppInv a -> AppFacts a ->
  (forall p st, op = Some p -> playerVisible a = true -> story a = Some st ->
     PlayerFacts st p) ->
  Facts (commit a op).
Proof.
  intros Ha Fa Hcarry. unfold commit.
  destruct (playerVisible a) eqn:Hv.
  - destruct (story a) as [st|] eqn:Hst.
    + destruct op as [pl|].
      * constructor; simpl; [exact Fa|].
        intros p st' E1 E2. inversion E1; subst. rewrite Hst in E2.
        inversion E2; subst.
        apply bufferingEffect_facts. apply Hcarry; reflexivity.
      * destruct (onSegmentChange_view 0 a) as [Es _].
        constructor; simpl; [apply onSegmentChange_facts; assumption|].
        intros p st' E1 E2. inversion E1; subst.
        rewrite Es, Hst in E2. inversion E2; subst.
        apply initialPlayer_facts. apply (inv_story Ha Hst).
    + constructor; simpl; [exact Fa|discriminate].
  - constructor; simpl; [exact Fa|discriminate].
Qed.

Lemma facts_carry_grow (w : World) (a' : App) :
  Facts w ->
  (forall st', story a' = Some st' ->
     exists st, story (app w) = Some st /\ storyGrows st st') ->
  forall p st', player w = Some p -> playerVisible a' = true ->
    story a' = Some st' -> PlayerFacts st' p.
Proof.
  intros Fw Hg p st' Hp _ Hst'.
  destruct (Hg st' Hst') as [st [Hst Hle]].
  eapply PlayerFacts_grow; [exact Hle|].
  apply (facts_player Fw Hp Hst).
Qed.

Lemma facts_carry_same (w : World) (a' : App) :
  Facts w -> story a' = story (app w) ->
  forall p st', player w = Some p -> playerVisible a' = true ->
    story a' = Some st' -> PlayerFacts st' p.
Proof.
  intros Fw E. apply facts_carry_grow; [assumption|].
  intros st' Hst'. exists st'. split; [congruence|apply storyGrows_refl].
Qed.

Lemma facts_carry_none (w : World) (a' : App) :
  player w = None ->
  forall p st', player w = Some p -> playerVisible a' = true ->
    story a' = Some st' -> PlayerFacts st' p.
Proof. intros E p st' E'. congruence. Qed.

Lemma initialWorld_facts : Facts initialWorld.
Proof. constructor; simpl; [apply initialApp_facts|discriminate]. Qed.

Lemma hidden_no_player (w : World) :
  Inv w -> playerVisible (app w) = false -> player w = None.
Proof.
  intros Hw Hv. destruct (player w) as [p|] eqn:Hp; [|reflexivity].
  pose proof (@inv_visible _ Hw _ Hp). congruence.
Qed.

Theorem orderlyStep_facts (w w' : World) (e : Event) :
  Inv w -> Facts w -> orderlyStep w e = Some w' -> Facts w'.
Proof.
  intros Hw Fw. pose proof (inv_app Hw) as Ha.
  pose proof (facts_app Fw) as Fa.
  unfold orderlyStep. destruct e; simpl.
  - (* ApiKeyMissing *)
    settled.
    apply commit_facts;
      [apply setIsKeyRequired_inv; assumption
      |apply setIsKeyRequired_facts; assumption|].
    apply facts_carry_same; [assumption|reflexivity].
  - (* KeySelected *)
    destruct (isKeyRequired (app w)); [|discriminate].
    settled.
    apply commit_facts;
      [apply setIsKeyRequired_inv; assumption
      |apply setIsKeyRequired_facts; assumption|].
    apply facts_carry_same; [assumption|reflexivity].
  - (* MapsScriptFailed *)
    settled.
    apply commit_facts;
      [apply setScriptError_inv; assumption
      |apply setScriptError_facts; assumption|].
    apply facts_carry_same; [assumption|reflexivity].
  - (* RouteFound *)
    destruct (plannerEnabled (app w)) eqn:Hen; [|discriminate].
    settled.
    pose proof (handleGenerateStory_inv details Ha Hen) as Ha'.
    apply commit_facts.
    + apply schedulerEffect_inv. assumption.
    + apply schedulerEffect_facts; [assumption|].
      apply handleGenerateStory_facts; assumption.
    + intros p st' _ Hv. exfalso.
      rewrite schedulerEffect_visible in Hv.
      unfold playerVisible in Hv; simpl in Hv.
      rewrite !andb_false_r in Hv. discriminate.
  - (* StartupSettles *)
    destruct (resumeStartup k r (app w)) as [a'|] eqn:Hr; [|discriminate].
    settled.
    pose proof (@resumeStartup_inv k r _ a' Ha Hr) as Ha'.
    apply commit_facts.
    + apply schedulerEffect_inv. assumption.
    + apply schedulerEffect_facts; [assumption|].
      apply (@resumeStartup_facts k r (app w) a' Ha Fa Hr).
    + apply facts_carry_none.
      destruct (player w) as [p|] eqn:Hp; [|reflexivity]. exfalso.
      pose proof (visible_no_startup Ha (@inv_visible _ Hw _ Hp)) as Hnil.
      unfold resumeStartup in Hr. rewrite Hnil in Hr.
      destruct k; discriminate.
  - (* TextSettles *)
    destruct (resumeAfterText k reply (app w)) as [a'|] eqn:Hr; [|discriminate].
    settled.
    destruct (@resumeAfterText_story _ _ _ _ Hr) as [Es _].
    apply commit_facts.
    + eapply resumeAfterText_inv; eassumption.
    + apply (@resumeAfterText_facts k reply (app w) a' Ha Fa Hr).
    + apply facts_carry_same; assumption.
  - (* AudioSettles *)
    destruct (resumeAfterAudio k reply (app w)) as [[a' b]|] eqn:Hr;
      [|discriminate].
    settled.
    pose proof (@resumeAfterAudio_inv _ _ _ _ _ Ha Hr) as Ha'.
    pose proof (@resumeAfterAudio_facts k reply (app w) a' b Ha Fa Hr) as Fa'.
    destruct (@resumeAfterAudio_story _ _ _ _ _ Hr) as [_ Hs].
    apply commit_facts.
    + destruct b; [apply schedulerEffect_inv|]; assumption.
    + destruct b; [apply schedulerEffect_facts|]; assumption.
    + apply facts_carry_grow; [assumption|].
      destruct b; [rewrite schedulerEffect_story|]; assumption.
  - (* ResetClicked *)
    destruct (playerVisible (app w)) eqn:Hv; [|discriminate].
    settled.
    pose proof (handleReset_inv Ha Hv) as Ha'.
    apply commit_facts.
    + apply schedulerEffect_inv. assumption.
    + apply schedulerEffect_facts; [assumption|].
      apply handleReset_facts; assumption.
    + intros p st' _ _ Hst'. rewrite schedulerEffect_story in Hst'.
      simpl in Hst'. discriminate.
  - (* PlayPauseClicked *)
    destruct (player w) as [p|] eqn:Hp; [|discriminate].
    destruct (story (app w)) as [st|] eqn:Hst; [|discriminate].
    settled.
    constructor; simpl; [exact Fa|].
    intros p' st' E1 E2. inversion E1; subst. rewrite Hst in E2.
    inversion E2; subst.
    apply bufferingEffect_facts, togglePlayback_facts.
    apply (facts_player Fw Hp Hst).
  - (* SourceEnded *)
    destruct (player w) as [p|] eqn:Hp; [|discriminate].
    destruct (story (app w)) as [st|] eqn:Hst; [|discriminate].
    destruct (sourceRef p) as [src|] eqn:Hsrc; [|discriminate].
    destruct (src_ended src) eqn:Hended; [discriminate|].
    destruct (contextSuspended p); [discriminate|].
    settled.
    destruct (inv_player Hw Hp) as [O1 O2 O3].
    pose proof (O3 st Hst) as HP.
    destruct (facts_player Fw Hp Hst) as [[P1 P2 P3 P4] _].
    destruct P3 as [Q1 [Q2 Q3]];
      [unfold sounding; rewrite Hsrc, Hended; reflexivity|].
    match goal with
    | |- Facts {| app := onSegmentChange ?i _; player := _ |} =>
        destruct (onSegmentChange_view i (app w)) as [Es _]
    end.
    constructor; simpl; [apply onSegmentChange_facts; assumption|].
    intros p' st' E1 E2. inversion E1; subst; clear E1.
    rewrite Es, Hst in E2. inversion E2; subst; clear E2.
    apply bufferingEffect_facts, syncIndexRef_facts, onended_facts; simpl; auto.
    + apply (inv_story Ha Hst).
    + apply (rinv_closure (pinv_refs HP)). assumption.
  - (* AnimationFrame *)
    destruct (player w) as [p|] eqn:Hp; [|discriminate].
    destruct (story (app w)) as [st|] eqn:Hst; [|discriminate].
    destruct (updateProgress st p) as [v|].
    + settled. constructor; simpl.
      * apply setSmoothProgress_facts. assumption.
      * intros p' st' E1 E2. inversion E1; subst. rewrite Hst in E2.
        inversion E2; subst. apply (facts_player Fw Hp Hst).
    + intros E; inversion E; subst. assumption.
  - (* ClockAdvances *)
    destruct (Qle_bool 0 dt) eqn:Hdt; [|discriminate].
    settled.
    constructor; simpl; [exact Fa|].
    intros p' st' E1 Hst. destruct (player w) as [p|] eqn:Hp; [|discriminate].
    simpl in E1. inversion E1; subst.
    apply advanceClock_facts. apply (facts_player Fw Hp Hst).
  - (* ContextSuspends *)
    discriminate.
  - (* ContextResumes *)
    destruct (player w) as [p|] eqn:Hp; [|discriminate].
    destruct (contextSuspended p) eqn:Hsusp; [|discriminate].
    destruct (inv_running Hw Hp) as [Hrun _]. congruence.
Qed.

Lemma orderlyRun_facts (evs : list Event) (w w' : World) :
  Inv w -> Facts w -> orderlyRun w evs = Some w' -> Facts w'.
Proof.
  revert w. induction evs as [|e evs IH]; simpl; intros w Hw Fw.
  - intros E; inversion E; subst. assumption.
  - destruct (orderlyStep w e) as [w1|] eqn:Hs; [|discriminate].
    apply IH; [eapply orderlyStep_inv|eapply orderlyStep_facts]; eassumption.
Qed.

Lemma orderly_facts (w : World) : orderly w -> Facts w.
Proof.
  intros [evs H].
  eapply orderlyRun_facts; [apply initialWorld_inv|apply initialWorld_facts|exact H].
Qed.

(** * The states of the page *)

(** X2.  In orderly runs, of the six members of [AppState] the page only
    ever uses three:
    it is in [READY_TO_PLAY] exactly while a story is stored, in
    [GENERATING_INITIAL_SEGMENT] exactly while a start-up is waiting for
    its replies, and in [PLANNING] otherwise. *)
Theorem page_states (w : World) :
  orderly w ->
  (appState (app w) = PLANNING \/
   appState (app w) = GENERATING_INITIAL_SEGMENT \/
   appState (app w) = READY_TO_PLAY) /\
  (appState (app w) = READY_TO_PLAY <-> story (app w) <> None) /\
  (appState (app w) = GENERATING_INITIAL_SEGMENT <-> starting (app w) <> []) /\
  (appState (app w) = PLANNING <->
   story (app w) = None /\ starting (app w) = []).
Proof.
  intros Hr.
  pose proof (inv_app (orderly_inv Hr)) as Ha.
  pose proof (facts_app (orderly_facts Hr)) as Fa.
  pose proof (af_states Fa) as Hs.
  assert (story (app w) <> None -> appState (app w) = READY_TO_PLAY) as Hready.
  { intros Hst. destruct (inv_ready Ha Hst) as [Hv _].
    destruct Hs as [E|[E|E]]; rewrite E in *; simpl in Hv; try lia.
    reflexivity. }
  split; [exact Hs|].
  split; [split; [apply (af_ready Fa)|exact Hready]|].
  split; [split; [apply (af_generating Fa)|apply (inv_starting Ha)]|].
  split.
  - intros E. split.
    + destruct (story (app w)) eqn:Hst; [|reflexivity].
      assert (appState (app w) = READY_TO_PLAY) by (apply Hready; congruence).
      congruence.
    + destruct (starting (app w)) eqn:Hst; [reflexivity|].
      assert (appState (app w) = GENERATING_INITIAL_SEGMENT)
        by (apply (inv_starting Ha); congruence).
      congruence.
  - intros [Hst Hnil].
    destruct Hs as [E|[E|E]]; [exact E| |].
    + exfalso. apply (af_generating Fa E). exact Hnil.
    + exfalso. apply (af_ready Fa E). exact Hst.
Qed.

Lemma page_states_witness :
  orderly worldJourneyStarted /\
  appState (app worldJourneyStarted) = READY_TO_PLAY /\
  story (app worldJourneyStarted) <> None.
Proof.
  split; [exact worldJourneyStarted_orderly|].
  split; [reflexivity|].
  destruct (@page_states worldJourneyStarted worldJourneyStarted_orderly)
    as [_ [[Hready _] _]].
  apply Hready. reflexivity.
Defined.

(** * The chapters of a stored story *)

(** X3.  In orderly runs the chapter count a stored story announces is the
    one computed
    from the duration of the route the page holds, so it is between two
    and four, and the story never holds more chapters than that. *)
Theorem story_matches_route (w : World) (st : AudioStory) :
  orderly w ->
  story (app w) = Some st ->
  exists r,
    route (app w) = Some r /\
    totalSegmentsEstimate st = calculateTotalSegments (durationSeconds r) /\
    2 <= totalSegmentsEstimate st <= 4 /\
    1 <= List.length (segments st) <= totalSegmentsEstimate st.
Proof.
  intros Hr Hst.
  pose proof (inv_app (orderly_inv Hr)) as Ha.
  pose proof (facts_app (orderly_facts Hr)) as Fa.
  destruct (inv_ready Ha) as [_ Hroute]; [congruence|].
  destruct (route (app w)) as [r|] eqn:E; [|congruence].
  exists r. split; [reflexivity|].
  pose proof (af_estimate Fa Hst E) as He.
  split; [exact He|].
  split; [rewrite He; apply calculateTotalSegments_range|].
  pose proof (inv_story Ha Hst) as Hwf.
  split; [apply (wf_nonempty Hwf)|apply (wf_bounded Hwf)].
Qed.

Lemma story_matches_route_witness :
  orderly worldTwoChapters /\
  story (app worldTwoChapters) = Some storyTwoChapters /\
  exists r,
    route (app worldTwoChapters) = Some r /\
    totalSegmentsEstimate storyTwoChapters
      = calculateTotalSegments (durationSeconds r) /\
    2 <= totalSegmentsEstimate storyTwoChapters <= 4 /\
    1 <= List.length (segments storyTwoChapters)
      <= totalSegmentsEstimate storyTwoChapters.
Proof.
  split; [exact worldTwoChapters_orderly|].
  split; [reflexivity|].
  apply (@story_matches_route worldTwoChapters storyTwoChapters
           worldTwoChapters_orderly eq_refl).
Defined.

(** X4.  In every run the first chapter is never displaced: array position
    0 of a
    stored story holds the chapter of index 1 with its audio, every other
    stored chapter has a larger index, and no background generation is
    ever asked for an index below 2. *)
Theorem first_chapter_stays_first (w : World) (st : AudioStory) :
  reachable w ->
  story (app w) = Some st ->
  (exists first rest,
     segments st = first :: rest /\ index first = 1 /\
     audioBuffer first <> None /\
     Forall (fun s => 2 <= index s) rest) /\
  (forall att, In att (inflight (app w)) -> 2 <= att_index att).
Proof.
  intros Hr Hst.
  pose proof (al_app (reachable_always Hr)) as Ha.
  pose proof (al_story Ha Hst) as Hwf.
  split; [|apply (al_attempt Ha)].
  pose proof (al_first Ha Hst) as Hf.
  pose proof (wf_order Hwf) as Hord.
  pose proof (wf_audio Hwf) as Haud.
  destruct (segments st) as [|first rest]; [discriminate|].
  simpl in Hf. injection Hf as Hone.
  exists first, rest. split; [reflexivity|]. split; [exact Hone|]. split.
  - inversion Haud as [|? ? Hsome _]; subst.
    destruct (audioBuffer first); [discriminate|discriminate].
  - unfold strictlyAscending in Hord. simpl in Hord.
    inversion Hord as [|? ? _ Hall]; subst.
    apply Forall_forall. intros s Hs. rewrite Forall_forall in Hall.
    assert (index first < index s) by (apply Hall, in_map, Hs). lia.
Qed.

Lemma first_chapter_stays_first_witness :
  reachable worldTwoChapters /\
  (exists first rest,
     segments storyTwoChapters = first :: rest /\ index first = 1 /\
     audioBuffer first <> None /\
     Forall (fun s => 2 <= index s) rest) /\
  (forall att, In att (inflight (app worldTwoChapters)) -> 2 <= att_index att).
Proof.
  assert (reachable worldTwoChapters) as Hr
    by (exists twoChapters; vm_compute; reflexivity).
  split; [exact Hr|].
  apply (@first_chapter_stays_first worldTwoChapters storyTwoChapters
           Hr eq_refl).
Defined.

(** * What the player shows *)

Lemma inject_nat_le (n m : nat) :
  n <= m -> (inject_Z (Z.of_nat n) <= inject_Z (Z.of_nat m))%Q.
Proof. intros H. unfold Qle. simpl. lia. Qed.

Lemma percent_le (a b e : Q) :
  (a <= b)%Q -> (0 < e)%Q -> (a / e * 100 <= b / e * 100)%Q.
Proof.
  intros Hab He.
  apply Qmult_le_compat_r; [|lra].
  unfold Qdiv. apply Qmult_le_compat_r; [exact Hab|].
  apply Qinv_le_0_compat. lra.
Qed.

(** X5.  In orderly runs the cursor of a mounted player never runs past
    the stored
    chapters and the number in the label [Chapter k / n] never exceeds
    [n]; the progress bar is never ahead of the buffer bar, and both stay
    within 0 and 100 percent. *)
Theorem player_bars (w : World) (p : Player) (st : AudioStory) :
  orderly w ->
  player w = Some p ->
  story (app w) = Some st ->
  currentSegmentIndex p <= List.length (segments st) /\
  chapterLabel p <= totalSegmentsEstimate st /\
  (0 <= progressPercent st p)%Q /\
  (progressPercent st p <= bufferPercent st)%Q /\
  (bufferPercent st <= 100)%Q.
Proof.
  intros Hr Hp Hst.
  destruct (facts_player (orderly_facts Hr) Hp Hst) as [[P1 P2 _] _].
  pose proof (inv_story (inv_app (orderly_inv Hr)) Hst) as Hwf.
  pose proof (wf_estimate Hwf) as He.
  assert (0 < inject_Z (Z.of_nat (totalSegmentsEstimate st)))%Q as Hpos
    by (apply inject_nat_pos; lia).
  split; [exact P1|].
  split; [unfold chapterLabel; lia|].
  unfold progressPercent, bufferPercent.
  split; [|split].
  - apply Q.min_glb; [lra|].
    apply (Qle_trans _ (0 / inject_Z (Z.of_nat (totalSegmentsEstimate st)) * 100)).
    + unfold Qdiv. lra.
    + apply percent_le; [apply inject_nat_nonneg|exact Hpos].
  - apply Q.min_le_compat_l.
    apply percent_le; [apply inject_nat_le; exact P1|exact Hpos].
  - apply Q.le_min_l.
Qed.

Lemma player_bars_witness :
  orderly worldPlaying /\
  currentSegmentIndex playerPlaying <= List.length (segments storyTwoChapters) /\
  chapterLabel playerPlaying <= totalSegmentsEstimate storyTwoChapters /\
  (0 <= progressPercent storyTwoChapters playerPlaying)%Q /\
  (progressPercent storyTwoChapters playerPlaying
   <= bufferPercent storyTwoChapters)%Q /\
  (bufferPercent storyTwoChapters <= 100)%Q.
Proof.
  split; [exact worldPlaying_orderly|].
  apply (@player_bars worldPlaying playerPlaying storyTwoChapters
           worldPlaying_orderly eq_refl eq_refl).
Defined.

Lemma worldBuffering_orderly : orderly worldBuffering.
Proof. exists (atFirstBoundary ++ [SourceEnded]). vm_compute. reflexivity. Qed.

(** X6.  In orderly runs, while the player is in play mode, the overlay
    [Preparing
    Chapter...] is up only for a chapter that is really missing: the
    cursor then stands right behind the last stored chapter, and a further
    chapter is still expected. *)
Theorem overlay_means_missing (w : World) (p : Player) (st : AudioStory) :
  orderly w ->
  player w = Some p ->
  story (app w) = Some st ->
  overlayShown p = true ->
  isPlaying p = true ->
  audioAt st (currentSegmentIndex p) = None /\
  currentSegmentIndex p = List.length (segments st) /\
  List.length (segments st) < totalSegmentsEstimate st.
Proof.
  intros Hr Hp Hst Hover Hplay.
  destruct (facts_player (orderly_facts Hr) Hp Hst) as [[P1 P2 _] Hdue].
  pose proof (inv_story (inv_app (orderly_inv Hr)) Hst) as Hwf.
  pose proof (Hdue Hover Hplay) as Hnone.
  split; [exact Hnone|].
  assert (List.length (segments st) <= currentSegmentIndex p) as Hge.
  { unfold audioAt in Hnone.
    destruct (nth_error (segments st) (currentSegmentIndex p)) as [seg|] eqn:Hn.
    - pose proof (wf_audio Hwf) as Hall. rewrite Forall_forall in Hall.
      assert (isSome (audioBuffer seg) = true) as Ha
        by (apply Hall; eapply nth_error_In; exact Hn).
      rewrite Hnone in Ha. discriminate.
    - apply nth_error_None. exact Hn. }
  lia.
Qed.

Lemma overlay_means_missing_witness :
  orderly worldBuffering /\
  overlayShown playerBuffering = true /\
  isPlaying playerBuffering = true /\
  audioAt storyOneChapter (currentSegmentIndex playerBuffering) = None /\
  currentSegmentIndex playerBuffering = List.length (segments storyOneChapter) /\
  List.length (segments storyOneChapter) < totalSegmentsEstimate storyOneChapter.
Proof.
  split; [exact worldBuffering_orderly|].
  split; [reflexivity|].
  split; [reflexivity|].
  apply (@overlay_means_missing worldBuffering playerBuffering storyOneChapter
           worldBuffering_orderly eq_refl eq_refl eq_refl eq_refl).
Defined.

(** X7.  In orderly runs, in which the audio context is never suspended,
    audio sounds in play mode only: while a started source has neither
    been stopped nor reached its end, the player is playing, the overlay
    is down, and the chapter under the cursor is stored with its audio.
    (After a suspension a source can sound in a paused player.) *)
Theorem sound_only_in_play_mode (w : World) (p : Player) (st : AudioStory) :
  orderly w ->
  player w = Some p ->
  story (app w) = Some st ->
  sounding p = true ->
  isPlaying p = true /\
  overlayShown p = false /\
  exists seg buf,
    nth_error (segments st) (currentSegmentIndex p) = Some seg /\
    audioBuffer seg = Some buf.
Proof.
  intros Hr Hp Hst Hsound.
  destruct (facts_player (orderly_facts Hr) Hp Hst) as [[_ _ P3 Hrun] _].
  pose proof (inv_story (inv_app (orderly_inv Hr)) Hst) as Hwf.
  destruct (P3 Hsound) as [Q1 [Q2 Q3]].
  split; [exact Q1|]. split; [exact Q2|].
  destruct (nth_error (segments st) (currentSegmentIndex p)) as [seg|] eqn:Hn.
  - pose proof (wf_audio Hwf) as Hall. rewrite Forall_forall in Hall.
    assert (isSome (audioBuffer seg) = true) as Ha
      by (apply Hall; eapply nth_error_In; exact Hn).
    destruct (audioBuffer seg) as [buf|] eqn:Hb; [|discriminate].
    exists seg, buf. split; [reflexivity|exact Hb].
  - apply nth_error_None in Hn. lia.
Qed.

Lemma sound_only_in_play_mode_witness :
  orderly worldPlaying /\
  sounding playerPlaying = true /\
  isPlaying playerPlaying = true /\
  overlayShown playerPlaying = false /\
  exists seg buf,
    nth_error (segments storyTwoChapters) (currentSegmentIndex playerPlaying)
      = Some seg /\
    audioBuffer seg = Some buf.
Proof.
  split; [exact worldPlaying_orderly|].
  split; [reflexivity|].
  apply (@sound_only_in_play_mode worldPlaying playerPlaying storyTwoChapters
           worldPlaying_orderly eq_refl eq_refl eq_refl).
Defined.

(** * Starting a journey *)

Lemma schedulerEffect_idle (a : App) :
  story a = None -> schedulerEffect a = a.
Proof.
  intros Hs. unfold schedulerEffect, schedulerTrigger. rewrite Hs. reflexivity.
Qed.

Lemma schedulerEffect_locked (a : App) :
  isGeneratingRef a = true -> schedulerEffect a = a.
Proof.
  intros Hl. unfold schedulerEffect, schedulerTrigger. rewrite Hl.
  destruct (story a), (route a); try reflexivity.
  destruct (_ <? _); [reflexivity|].
  rewrite andb_false_r. reflexivity.
Qed.

Lemma commit_hidden (a : App) (op : option Player) :
  playerVisible a = false -> commit a op = {| app := a; player := None |}.
Proof. intros Hv. unfold commit. rewrite Hv. reflexivity. Qed.

(** The fields of the App state that the look-ahead effect and the
    cursor callback leave alone. *)
Lemma onSegmentChange_static (i : nat) (a : App) :
  appState (onSegmentChange i a) = appState a /\
  route (onSegmentChange i a) = route a /\
  scriptError (onSegmentChange i a) = scriptError a /\
  isKeyRequired (onSegmentChange i a) = isKeyRequired a /\
  starting (onSegmentChange i a) = starting a /\
  generationError (onSegmentChange i a) = generationError a.
Proof.
  unfold onSegmentChange.
  destruct (i =? currentPlayingIndex a); [repeat split; reflexivity|].
  destruct (schedulerEffect_frame (setCurrentPlayingIndex i a))
    as (E1 & E2 & _ & E4 & E5 & _ & _ & E8 & E9 & _).
  simpl in *. repeat split; assumption.
Qed.

Lemma commit_static (a : App) (op : option Player) :
  appState (app (commit a op)) = appState a /\
  route (app (commit a op)) = route a /\
  scriptError (app (commit a op)) = scriptError a /\
  isKeyRequired (app (commit a op)) = isKeyRequired a /\
  starting (app (commit a op)) = starting a /\
  generationError (app (commit a op)) = generationError a.
Proof.
  unfold commit.
  destruct (playerVisible a); [|repeat split; reflexivity].
  destruct (story a); [|repeat split; reflexivity].
  destruct op; simpl; [repeat split; reflexivity|].
  apply onSegmentChange_static.
Qed.

Lemma starting_hides_page (a : App) :
  AppInv a -> starting a <> [] ->
  playerVisible a = false /\ plannerEnabled a = false.
Proof.
  intros H Hne. pose proof (inv_starting H Hne) as Hg.
  unfold playerVisible, plannerEnabled. rewrite Hg. simpl.
  rewrite !andb_false_r. split; reflexivity.
Qed.

(** X8.  In an orderly run the listener can neither cancel nor double a
    start-up: while it waits for its replies the page is in
    [GENERATING_INITIAL_SEGMENT], neither the player nor the reset button
    is rendered, and the button of the planner is disabled whatever is
    filled in, so that no further directions request can be made; exactly
    one start-up is pending. *)
Theorem startup_cannot_be_interrupted (w : World) :
  orderly w ->
  starting (app w) <> [] ->
  appState (app w) = GENERATING_INITIAL_SEGMENT /\
  player w = None /\
  step w ResetClicked = None /\
  step w PlayPauseClicked = None /\
  (forall s, RoutePlanner.calculateEnabled (appState (app w)) s = false) /\
  List.length (starting (app w)) = 1.
Proof.
  intros Hr Hne. apply orderly_inv in Hr.
  pose proof (inv_app Hr) as Ha.
  destruct (starting_hides_page Ha Hne) as [Hv Hpl].
  pose proof (hidden_no_player Hr Hv) as Hnone.
  pose proof (inv_starting Ha Hne) as Hg.
  split; [exact Hg|].
  split; [exact Hnone|].
  split; [simpl; rewrite Hv; reflexivity|].
  split; [simpl; rewrite Hnone; reflexivity|].
  split.
  { intros s. unfold RoutePlanner.calculateEnabled. rewrite Hg. simpl.
    rewrite orb_true_r. reflexivity. }
  pose proof (inv_one_start Ha).
  destruct (starting (app w)); [congruence|simpl in *; lia].
Qed.

Lemma worldStarting_orderly : orderly worldStarting.
Proof. exists [RouteFound sampleRoute]. vm_compute. reflexivity. Qed.

Lemma startup_cannot_be_interrupted_witness :
  orderly worldStarting /\
  starting (app worldStarting) = [sampleRoute] /\
  appState (app worldStarting) = GENERATING_INITIAL_SEGMENT /\
  player worldStarting = None /\
  step worldStarting ResetClicked = None /\
  step worldStarting PlayPauseClicked = None /\
  (forall s,
      RoutePlanner.calculateEnabled (appState (app worldStarting)) s = false) /\
  List.length (starting (app worldStarting)) = 1.
Proof.
  split; [exact worldStarting_orderly|].
  split; [reflexivity|].
  apply (@startup_cannot_be_interrupted worldStarting worldStarting_orderly).
  discriminate.
Defined.

Lemma failed_startup_step (w : World) (k : nat) (r : StartupReplies)
  (d : RouteDetails) (m : string) :
  Inv w -> Facts w ->
  nth_error (starting (app w)) k = Some d ->
  startupOutcome d r = Some (Thrown m) ->
  exists w',
    step w (StartupSettles k r) = Some w' /\
    appState (app w') = PLANNING /\
    story (app w') = None /\
    player w' = None /\
    starting (app w') = [] /\
    route (app w') = Some d /\
    inflight (app w') = inflight (app w) /\
    if includes m "Requested entity was not found" then
      generationError (app w')
        = Some "High-quality visuals require a paid API key."%string /\
      isKeyRequired (app w') = true
    else
      generationError (app w') = Some "Failed to start story stream."%string /\
      isKeyRequired (app w') = isKeyRequired (app w).
Proof.
  intros Hw Fw Hk Ho. pose proof (inv_app Hw) as Ha.
  destruct (startup_no_story k Ha Hk) as [Hns [Hone [Hrm Hg]]].
  assert (route (app w) = Some d) as Hroute
    by (apply (af_start (facts_app Fw)); rewrite Hone; left; reflexivity).
  simpl. unfold resumeStartup. rewrite Hk, Ho, Hrm.
  destruct (includes m "Requested entity was not found") eqn:Hi;
    (rewrite schedulerEffect_idle by (simpl; exact Hns));
    (rewrite commit_hidden
       by (unfold playerVisible; simpl; rewrite ?andb_false_r; reflexivity));
    (eexists; split; [reflexivity|]); simpl; rewrite ?Hi; auto 10.
Qed.

(** X9.  In orderly runs a start-up that fails brings the planner back:
    the page returns
    to [PLANNING] without a story or a player, and it keeps the route.  If
    the failure message contains [Requested entity was not found] the key
    prompt is raised and the error asks for a paid key; otherwise the
    error is the generic one and the key prompt is left as it was.
    Background generations still in flight are not affected. *)
Theorem startup_failure (w : World) (k : nat) (r : StartupReplies)
  (d : RouteDetails) (m : string) :
  orderly w ->
  nth_error (starting (app w)) k = Some d ->
  startupOutcome d r = Some (Thrown m) ->
  exists w',
    step w (StartupSettles k r) = Some w' /\
    appState (app w') = PLANNING /\
    story (app w') = None /\
    player w' = None /\
    starting (app w') = [] /\
    route (app w') = Some d /\
    inflight (app w') = inflight (app w) /\
    if includes m "Requested entity was not found" then
      generationError (app w')
        = Some "High-quality visuals require a paid API key."%string /\
      isKeyRequired (app w') = true
    else
      generationError (app w') = Some "Failed to start story stream."%string /\
      isKeyRequired (app w') = isKeyRequired (app w).
Proof.
  intros Hr Hk Ho.
  apply failed_startup_step;
    [apply orderly_inv|apply orderly_facts| |]; assumption.
Qed.

Lemma startup_failure_witness :
  orderly worldStarting /\
  exists w',
    step worldStarting (StartupSettles 0 startupRefused) = Some w' /\
    appState (app w') = PLANNING /\
    story (app w') = None /\
    player w' = None /\
    starting (app w') = [] /\
    route (app w') = Some sampleRoute /\
    inflight (app w') = inflight (app worldStarting) /\
    generationError (app w')
      = Some "High-quality visuals require a paid API key."%string /\
    isKeyRequired (app w') = true.
Proof.
  split; [exact worldStarting_orderly|].
  apply (@startup_failure worldStarting 0 startupRefused sampleRoute
           "Requested entity was not found." worldStarting_orderly
           eq_refl eq_refl).
Defined.

Lemma withTimeout_isLate {T : Type} (p : Settle T) (ms : N) (msg : string) :
  isLate p ms = true -> withTimeout p ms msg = Thrown msg.
Proof.
  unfold isLate, withTimeout.
  destruct p as [t v|t m|]; intros H; try reflexivity;
    apply N.leb_le in H;
    (assert ((t <? ms)%N = false) as -> by (apply N.ltb_ge; exact H));
    reflexivity.
Qed.

(** X10.  In orderly runs a start-up whose outline, first text or first
    audio is not
    there when its timer fires (60, 60 and 100 seconds) fails with the
    generic error; a timeout never raises the key prompt. *)
Theorem startup_timeout (w : World) (k : nat) (r : StartupReplies)
  (d : RouteDetails) :
  orderly w ->
  nth_error (starting (app w)) k = Some d ->
  isLate (outlineReply r) 60000 = true \/
  (exists hints,
     withTimeout (outlineReply r) 60000 "Outline timeout" = Fulfilled hints /\
     isLate (firstTextReply r) 60000 = true) \/
  (exists hints txt,
     withTimeout (outlineReply r) 60000 "Outline timeout" = Fulfilled hints /\
     withTimeout (firstTextReply r) 60000 "Initial text timeout" = Fulfilled txt /\
     isLate (firstAudioReply r) 100000 = true) ->
  exists w',
    step w (StartupSettles k r) = Some w' /\
    appState (app w') = PLANNING /\
    story (app w') = None /\
    generationError (app w') = Some "Failed to start story stream."%string /\
    isKeyRequired (app w') = isKeyRequired (app w).
Proof.
  intros Hr Hk Hlate.
  assert (exists m, startupOutcome d r = Some (Thrown m) /\
                    includes m "Requested entity was not found" = false)
    as [m [Ho Hi]].
  { unfold startupOutcome.
    destruct Hlate as [H1|[[hints [H1 H2]]|[hints [txt [H1 [H2 H3]]]]]].
    - rewrite (withTimeout_isLate _ _ "Outline timeout" H1).
      eexists. split; [reflexivity|vm_compute; reflexivity].
    - rewrite H1, (withTimeout_isLate _ _ "Initial text timeout" H2).
      eexists. split; [reflexivity|vm_compute; reflexivity].
    - rewrite H1, H2, (withTimeout_isLate _ _ "Initial audio timeout" H3).
      eexists. split; [reflexivity|vm_compute; reflexivity]. }
  destruct (@failed_startup_step w k r d m (orderly_inv Hr)
              (orderly_facts Hr) Hk Ho)
    as (w' & Hs & H1 & H2 & _ & _ & _ & _ & H3).
  rewrite Hi in H3. destruct H3 as [H3 H4].
  exists w'. repeat split; assumption.
Qed.

Lemma startup_timeout_witness :
  orderly worldStarting /\
  isLate (firstAudioReply startupSlowAudio) 100000 = true /\
  exists w',
    step worldStarting (StartupSettles 0 startupSlowAudio) = Some w' /\
    appState (app w') = PLANNING /\
    story (app w') = None /\
    generationError (app w') = Some "Failed to start story stream."%string /\
    isKeyRequired (app w') = isKeyRequired (app worldStarting).
Proof.
  split; [exact worldStarting_orderly|].
  split; [reflexivity|].
  apply (@startup_timeout worldStarting 0 startupSlowAudio sampleRoute
           worldStarting_orderly eq_refl).
  right. right. exists ["hint 1"; "hint 2"]%string, "chapter one"%string.
  repeat split; reflexivity.
Defined.

Lemma commit_locked (a : App) (op : option Player) :
  isGeneratingRef a = true ->
  inflight (app (commit a op)) = inflight a /\
  isGeneratingRef (app (commit a op)) = true.
Proof.
  intros Hl. unfold commit.
  destruct (playerVisible a); [|auto].
  destruct (story a); [|auto].
  destruct op; simpl; [auto|].
  unfold onSegmentChange.
  destruct (0 =? currentPlayingIndex a); [auto|].
  rewrite schedulerEffect_locked by exact Hl. auto.
Qed.

(** X11.  In orderly runs, when the outline, the first text and the first
    audio all arrive before their timers fire and the landmark images are
    there, the journey starts: the story holds the announced chapter
    count, the
    outline, the landmark images and exactly chapter 1 with its audio;
    the page is in [READY_TO_PLAY]; unless the key prompt or the maps
    error is up, a fresh player is mounted, paused at the first chapter;
    and if no generation of an earlier journey is still in flight, the
    generation of chapter 2 starts at once. *)
Theorem startup_success (w : World) (k : nat) (d : RouteDetails)
  (r : StartupReplies) (t1 t2 t3 t4 : N) (hints : list string) (txt : string)
  (buf : AudioBuffer) (images : list string) :
  orderly w ->
  nth_error (starting (app w)) k = Some d ->
  outlineReply r = Resolves t1 hints -> (t1 < 60000)%N ->
  firstTextReply r = Resolves t2 txt -> (t2 < 60000)%N ->
  firstAudioReply r = Resolves t3 buf -> (t3 < 100000)%N ->
  landmarksReply r = Resolves t4 images ->
  exists w',
    step w (StartupSettles k r) = Some w' /\
    appState (app w') = READY_TO_PLAY /\
    story (app w') =
      Some {| totalSegmentsEstimate := calculateTotalSegments (durationSeconds d);
              outline := hints;
              segments := [ {| index := 1; text := txt; audioBuffer := Some buf |} ];
              landmarkImages := images |} /\
    (isKeyRequired (app w) = false -> scriptError (app w) = false ->
     player w' = Some initialPlayer) /\
    (inflight (app w) = [] ->
     inflight (app w') = [ {| att_index := 2; att_phase := AwaitingText |} ] /\
     isGeneratingRef (app w') = true).
Proof.
  intros Hr Hk Ho1 Ht1 Ho2 Ht2 Ho3 Ht3 Ho4.
  pose proof (orderly_inv Hr) as Hw. pose proof (inv_app Hw) as Ha.
  pose proof (facts_app (orderly_facts Hr)) as Fa.
  destruct (startup_no_story k Ha Hk) as [Hns [Hone [Hrm Hg]]].
  assert (route (app w) = Some d) as Hroute
    by (apply (af_start Fa); rewrite Hone; left; reflexivity).
  assert (player w = None) as Hnone.
  { apply hidden_no_player; [exact Hw|].
    apply starting_hides_page; [exact Ha|]. rewrite Hone. discriminate. }
  apply N.ltb_lt in Ht1, Ht2, Ht3.
  assert (startupOutcome d r =
          Some (Fulfilled
            {| totalSegmentsEstimate := calculateTotalSegments (durationSeconds d);
               outline := hints;
               segments := [ {| index := 1; text := txt; audioBuffer := Some buf |} ];
               landmarkImages := images |})) as Hout.
  { unfold startupOutcome, withTimeout.
    rewrite Ho1, Ht1, Ho2, Ht2, Ho3, Ht3, Ho4. reflexivity. }
  simpl. unfold resumeStartup. rewrite Hk, Hout, Hrm.
  match goal with
  | |- exists w', Some (commit (schedulerEffect ?a) _) = Some w' /\ _ =>
      set (a1 := a)
  end.
  exists (commit (schedulerEffect a1) (player w)).
  split; [reflexivity|].
  destruct (commit_static (schedulerEffect a1) (player w)) as (C1 & _).
  destruct (schedulerEffect_frame a1) as (E1 & _).
  split; [rewrite C1, E1; reflexivity|].
  split; [rewrite commit_story, schedulerEffect_story; reflexivity|].
  split.
  - intros Hkey Hse. unfold commit.
    rewrite schedulerEffect_visible, schedulerEffect_story, Hnone.
    assert (playerVisible a1 = true) as ->.
    { unfold playerVisible, a1. simpl. rewrite Hkey, Hse, Hroute. reflexivity. }
    reflexivity.
  - intros Hnil.
    assert (isGeneratingRef (app w) = false) as Hfree
      by (rewrite (inv_lock Ha), Hnil; reflexivity).
    pose proof (calculateTotalSegments_range (durationSeconds d)) as Hrange.
    assert (schedulerEffect a1 =
            setInflight [ {| att_index := 2; att_phase := AwaitingText |} ]
              (setGenerating true a1)) as Hsched.
    { unfold schedulerEffect, schedulerTrigger, a1. simpl.
      rewrite Hroute, Hfree.
      assert ((1 <? currentPlayingIndex (app w) + 2) = true) as ->
        by (apply Nat.ltb_lt; lia).
      assert ((1 <? calculateTotalSegments (durationSeconds d)) = true) as ->
        by (apply Nat.ltb_lt; lia).
      simpl. unfold generateNextSegment. simpl.
      rewrite Hroute, Hfree, Hnil. reflexivity. }
    rewrite Hsched.
    apply commit_locked. reflexivity.
Qed.

Lemma startup_success_witness :
  orderly worldStarting /\
  exists w',
    step worldStarting (StartupSettles 0 (startupOk "chapter one")) = Some w' /\
    appState (app w') = READY_TO_PLAY /\
    story (app w') =
      Some {| totalSegmentsEstimate := calculateTotalSegments 200;
              outline := ["hint 1"; "hint 2"]%string;
              segments := [ {| index := 1; text := "chapter one";
                               audioBuffer := Some sampleAudio |} ];
              landmarkImages := [] |} /\
    (isKeyRequired (app worldStarting) = false ->
     scriptError (app worldStarting) = false ->
     player w' = Some initialPlayer) /\
    (inflight (app worldStarting) = [] ->
     inflight (app w') = [ {| att_index := 2; att_phase := AwaitingText |} ] /\
     isGeneratingRef (app w') = true).
Proof.
  split; [exact worldStarting_orderly|].
  apply (@startup_success worldStarting 0 sampleRoute (startupOk "chapter one")
           900 1500 4000 7000 ["hint 1"; "hint 2"]%string "chapter one"
           sampleAudio [] worldStarting_orderly eq_refl
           eq_refl eq_refl eq_refl eq_refl eq_refl eq_refl eq_refl).
Defined.

(** * The failure of the maps script *)

Lemma schedulerEffect_scriptError (a : App) :
  scriptError (schedulerEffect a) = scriptError a.
Proof. destruct (schedulerEffect_frame a) as (_ & _ & _ & E & _). exact E. Qed.

Lemma resumeStartup_scriptError (k : nat) (r : StartupReplies) (a a' : App) :
  resumeStartup k r a = Some a' -> scriptError a' = scriptError a.
Proof.
  unfold resumeStartup.
  destruct (nth_error (starting a) k) as [d|]; [|discriminate].
  destruct (startupOutcome d r) as [[st|m]|]; [| |discriminate].
  - settled. reflexivity.
  - destruct (includes m _); settled; reflexivity.
Qed.

Lemma resumeAfterText_scriptError (k : nat) (reply : Settle string)
  (a a' : App) :
  resumeAfterText k reply a = Some a' -> scriptError a' = scriptError a.
Proof.
  unfold resumeAfterText.
  destruct (nth_error (inflight a) k) as [[i [|data]]|]; try discriminate.
  destruct (withTimeout reply _ _); settled; reflexivity.
Qed.

Lemma resumeAfterAudio_scriptError (k : nat) (reply : Settle AudioBuffer)
  (a a' : App) (replaced : bool) :
  resumeAfterAudio k reply a = Some (a', replaced) ->
  scriptError a' = scriptError a.
Proof.
  unfold resumeAfterAudio.
  destruct (nth_error (inflight a) k) as [[i [|data]]|]; try discriminate.
  destruct (withTimeout reply _ _); settled; reflexivity.
Qed.





(** * How far the generation runs ahead of the listener *)

Lemma initialApp_ahead : Ahead initialApp.
Proof. constructor; simpl; try discriminate. reflexivity. Qed.

Lemma schedulerEffect_ahead (a : App) :
  AppInv a -> Ahead a -> Ahead (schedulerEffect a).
Proof.
  intros H [A1 A2 A3]. unfold schedulerEffect.
  destruct (schedulerTrigger a) as [i|] eqn:T; [|constructor; assumption].
  apply schedulerTrigger_some in T.
  destruct T as [st [Hst [Hr [_ [_ [Hshort [_ Hfree]]]]]]].
  unfold generateNextSegment. rewrite Hst.
  destruct (route a); [|congruence].
  rewrite Hfree.
  constructor; simpl; auto.
  intros st' Hst' _. rewrite Hst in Hst'. inversion Hst'; subst. lia.
Qed.

Lemma onSegmentChange_ahead (i : nat) (a : App) :
  AppInv a -> Ahead a -> story a <> None -> currentPlayingIndex a <= i ->
  Ahead (onSegmentChange i a).
Proof.
  intros H [A1 A2 A3] Hs Hle. unfold onSegmentChange.
  destruct (i =? currentPlayingIndex a); [constructor; assumption|].
  apply schedulerEffect_ahead.
  - destruct H. constructor; simpl; auto.
  - constructor; simpl.
    + intros st Hst. specialize (A1 st Hst). lia.
    + intros st Hst Hin. specialize (A2 st Hst Hin). lia.
    + intros E. congruence.
Qed.

Lemma handleGenerateStory_ahead (d : RouteDetails) (a : App) :
  AppInv a -> Ahead a -> plannerEnabled a = true ->
  Ahead (handleGenerateStory d a).
Proof.
  intros H [A1 A2 A3] Hen.
  destruct (planner_no_story H Hen) as [Hns _].
  constructor; simpl; auto.
Qed.

Lemma resumeStartup_cursor (k : nat) (r : StartupReplies) (a a' : App) :
  resumeStartup k r a = Some a' ->
  currentPlayingIndex a' = currentPlayingIndex a /\
  inflight a' = inflight a.
Proof.
  unfold resumeStartup.
  destruct (nth_error (starting a) k) as [d|]; [|discriminate].
  destruct (startupOutcome d r) as [[st|m]|]; [| |discriminate].
  - settled. split; reflexivity.
  - destruct (includes m _); settled; split; reflexivity.
Qed.

Lemma resumeStartup_ahead (k : nat) (r : StartupReplies) (a a' : App) :
  AppInv a -> Ahead a -> resumeStartup k r a = Some a' -> Ahead a'.
Proof.
  intros H [A1 A2 A3]. unfold resumeStartup.
  destruct (nth_error (starting a) k) as [d|] eqn:Hk; [|discriminate].
  destruct (startup_no_story k H Hk) as [Hns _].
  destruct (startupOutcome d r) as [[st|m]|] eqn:Ho; [| |discriminate].
  - settled. apply startupOutcome_wf in Ho. destruct Ho as [_ [Hlen _]].
    constructor; simpl.
    + intros st' E. inversion E; subst. lia.
    + intros st' E _. inversion E; subst. lia.
    + discriminate.
  - destruct (includes m _); settled; constructor; simpl; auto.
Qed.

Lemma resumeAfterText_ahead (k : nat) (reply : Settle string) (a a' : App) :
  AppInv a -> Ahead a -> resumeAfterText k reply a = Some a' -> Ahead a'.
Proof.
  intros H [A1 A2 A3]. unfold resumeAfterText.
  destruct (nth_error (inflight a) k) as [[i [|data]]|] eqn:Hk; try discriminate.
  destruct (nth_error_single _ _ (inv_single H) Hk) as [Hone Hrm].
  assert (inflight a <> []) as Hne by (rewrite Hone; discriminate).
  destruct (withTimeout reply _ _); settled; constructor; simpl; auto.
Qed.

Lemma insertChapter_length (i : nat) (seg : StorySegment) (st st' : AudioStory) :
  insertChapter i seg (Some st) = Some st' ->
  List.length (segments st') <= List.length (segments st) + 1.
Proof.
  unfold insertChapter.
  destruct (hasIndex i (segments st)); settled; simpl.
  - lia.
  - rewrite sortByIndex_length, length_app. simpl. lia.
Qed.

Lemma resumeAfterAudio_ahead (k : nat) (reply : Settle AudioBuffer)
  (a a' : App) (replaced : bool) :
  AppInv a -> Ahead a ->
  resumeAfterAudio k reply a = Some (a', replaced) -> Ahead a'.
Proof.
  intros H [A1 A2 A3]. unfold resumeAfterAudio.
  destruct (nth_error (inflight a) k) as [[i [|data]]|] eqn:Hk; try discriminate.
  destruct (nth_error_single _ _ (inv_single H) Hk) as [Hone Hrm].
  assert (inflight a <> []) as Hne by (rewrite Hone; discriminate).
  destruct (withTimeout reply _ _) as [buf|m]; settled;
    constructor; simpl; rewrite ?Hrm; auto; try congruence.
  - intros st' E. destruct (story a) as [st|] eqn:Hst; [|discriminate].
    apply insertChapter_length in E. specialize (A2 st eq_refl Hne). lia.
  - intros E. apply A3. destruct (story a); [|reflexivity].
    simpl in E. destruct (hasIndex _ _); discriminate.
Qed.

Lemma handleReset_ahead (a : App) : Ahead (handleReset a).
Proof. constructor; simpl; try discriminate. reflexivity. Qed.

Lemma setIsKeyRequired_ahead (v : bool) (a : App) :
  Ahead a -> Ahead (setIsKeyRequired v a).
Proof. intros [A1 A2 A3]. constructor; simpl; auto. Qed.

Lemma setScriptError_ahead (v : bool) (a : App) :
  Ahead a -> Ahead (setScriptError v a).
Proof. intros [A1 A2 A3]. constructor; simpl; auto. Qed.

Lemma setSmoothProgress_ahead (v : Q) (a : App) :
  Ahead a -> Ahead (setSmoothProgress v a).
Proof. intros [A1 A2 A3]. constructor; simpl; auto. Qed.

(** A render keeps the bound: a player that it mounts starts at the
    cursor the page already has. *)
Lemma commit_lookahead (a : App) (op : option Player) :
  AppInv a -> Ahead a ->
  (op = None -> scriptError a = true \/ currentPlayingIndex a = 0) ->
  (op <> None -> playerVisible a = false ->
   scriptError a = true \/ currentPlayingIndex a = 0) ->
  LookAhead (commit a op).
Proof.
  intros Ha A Hnone Hsome. unfold commit.
  destruct (playerVisible a) eqn:Hv.
  - destruct (story a) as [st|] eqn:Hst.
    + destruct op as [pl|].
      * constructor; simpl; [exact A|discriminate].
      * destruct (playerVisible_spec a Hv) as [_ [Hse _]].
        destruct (Hnone eq_refl) as [E|E]; [congruence|].
        unfold onSegmentChange. rewrite E. simpl.
        constructor; simpl; [exact A|discriminate].
    + constructor; simpl; [exact A|].
      intros _. right. apply (ah_idle A). exact Hst.
  - constructor; simpl; [exact A|].
    intros _. destruct op; [apply Hsome; [discriminate|reflexivity]|].
    apply Hnone. reflexivity.
Qed.

Lemma handleSegmentEnd_cursor_le (closure : AudioStory) (p : Player) :
  indexRef p = currentSegmentIndex p ->
  currentSegmentIndex p <= currentSegmentIndex (handleSegmentEnd closure p).
Proof.
  intros Hidx. unfold handleSegmentEnd. rewrite Hidx.
  destruct (_ || _); [|simpl; lia].
  destruct (nth_error _ _) as [next|]; [|simpl; lia].
  destruct (isSome (audioBuffer next)); [|simpl; lia].
  match goal with
  | |- _ <= currentSegmentIndex (playSegment ?c ?s ?o ?q) =>
      destruct (playSegment_cursor c s o q) as [E _]; rewrite E
  end.
  simpl. lia.
Qed.

Lemma onended_cursor_le (src : Source) (p : Player) :
  indexRef p = currentSegmentIndex p ->
  currentSegmentIndex p <= currentSegmentIndex (onended src p).
Proof.
  intros Hidx. unfold onended.
  destruct (audioContextRef p); [|lia].
  destruct (Qle_bool _ _); [|lia].
  apply handleSegmentEnd_cursor_le. exact Hidx.
Qed.

Lemma orderlyStep_lookahead (w w' : World) (e : Event) :
  Inv w -> LookAhead w -> keyCheckIsEarly w e = true ->
  orderlyStep w e = Some w' -> LookAhead w'.
Proof.
  intros Hw [A Hh] Hearly. pose proof (inv_app Hw) as Ha.
  unfold orderlyStep. destruct e; simpl.
  - (* ApiKeyMissing *)
    settled. simpl in Hearly. apply negb_true_iff in Hearly.
    assert (story (app w) = None) as Hns
      by (destruct (story (app w)); [discriminate|reflexivity]).
    apply commit_lookahead.
    + apply setIsKeyRequired_inv. assumption.
    + apply setIsKeyRequired_ahead. assumption.
    + intros _. right. simpl. apply (ah_idle A Hns).
    + intros _ _. right. simpl. apply (ah_idle A Hns).
  - (* KeySelected *)
    destruct (isKeyRequired (app w)) eqn:Hkey; [|discriminate].
    settled.
    assert (player w = None) as Hnone.
    { apply hidden_no_player; [exact Hw|].
      unfold playerVisible. rewrite Hkey. reflexivity. }
    apply commit_lookahead.
    + apply setIsKeyRequired_inv. assumption.
    + apply setIsKeyRequired_ahead. assumption.
    + intros _. simpl. apply Hh. exact Hnone.
    + intros Hp. congruence.
  - (* MapsScriptFailed *)
    settled.
    apply commit_lookahead.
    + apply setScriptError_inv. assumption.
    + apply setScriptError_ahead. assumption.
    + intros _. left. reflexivity.
    + intros _ _. left. reflexivity.
  - (* RouteFound *)
    destruct (plannerEnabled (app w)) eqn:Hen; [|discriminate].
    settled.
    destruct (planner_no_story Ha Hen) as [Hns _].
    pose proof (handleGenerateStory_inv details Ha Hen) as Ha'.
    assert (currentPlayingIndex
              (schedulerEffect (handleGenerateStory details (app w))) = 0) as Hc.
    { rewrite schedulerEffect_cursor. simpl. apply (ah_idle A Hns). }
    apply commit_lookahead.
    + apply schedulerEffect_inv. assumption.
    + apply schedulerEffect_ahead; [assumption|].
      apply handleGenerateStory_ahead; assumption.
    + intros _. right. exact Hc.
    + intros _ _. right. exact Hc.
  - (* StartupSettles *)
    destruct (resumeStartup k r (app w)) as [a'|] eqn:Hr; [|discriminate].
    settled.
    pose proof (@resumeStartup_inv k r _ a' Ha Hr) as Ha'.
    destruct (@resumeStartup_cursor k r _ a' Hr) as [Hc _].
    pose proof (@resumeStartup_scriptError k r _ a' Hr) as Hse.
    assert (player w = None) as Hnone.
    { destruct (player w) as [p|] eqn:Hp; [|reflexivity]. exfalso.
      pose proof (visible_no_startup Ha (@inv_visible _ Hw _ Hp)) as Hnil.
      unfold resumeStartup in Hr. rewrite Hnil in Hr.
      destruct k; discriminate. }
    apply commit_lookahead.
    + apply schedulerEffect_inv. assumption.
    + apply schedulerEffect_ahead; [assumption|].
      apply (@resumeStartup_ahead k r (app w) a' Ha A Hr).
    + intros _. rewrite schedulerEffect_scriptError, schedulerEffect_cursor,
        Hse, Hc.
      apply Hh. exact Hnone.
    + intros Hp. congruence.
  - (* TextSettles *)
    destruct (resumeAfterText k reply (app w)) as [a'|] eqn:Hr; [|discriminate].
    settled.
    destruct (@resumeAfterText_story _ _ _ _ Hr) as [Es [Ev Ec]].
    pose proof (@resumeAfterText_scriptError _ _ _ _ Hr) as Hse.
    apply commit_lookahead.
    + eapply resumeAfterText_inv; eassumption.
    + apply (@resumeAfterText_ahead k reply (app w) a' Ha A Hr).
    + intros Hp. rewrite Hse, Ec. apply Hh. exact Hp.
    + intros Hp Hv. exfalso. rewrite Ev in Hv.
      destruct (player w) as [p|] eqn:Hpl; [|congruence].
      pose proof (@inv_visible _ Hw _ Hpl). congruence.
  - (* AudioSettles *)
    destruct (resumeAfterAudio k reply (app w)) as [[a' b]|] eqn:Hr;
      [|discriminate].
    settled.
    pose proof (@resumeAfterAudio_inv _ _ _ _ _ Ha Hr) as Ha'.
    pose proof (@resumeAfterAudio_ahead k reply (app w) a' b Ha A Hr) as A'.
    destruct (@resumeAfterAudio_story _ _ _ _ _ Hr) as [Ec Hs].
    pose proof (@resumeAfterAudio_scriptError _ _ _ _ _ Hr) as Hse.
    assert (scriptError (if b then schedulerEffect a' else a')
            = scriptError (app w)) as Hse'.
    { destruct b; rewrite ?schedulerEffect_scriptError; exact Hse. }
    assert (currentPlayingIndex (if b then schedulerEffect a' else a')
            = currentPlayingIndex (app w)) as Hc'.
    { destruct b; rewrite ?schedulerEffect_cursor; exact Ec. }
    assert (AppInv (if b then schedulerEffect a' else a')) as Ha''
      by (destruct b; [apply schedulerEffect_inv|]; assumption).
    assert (Ahead (if b then schedulerEffect a' else a')) as A''
      by (destruct b; [apply schedulerEffect_ahead|]; assumption).
    apply commit_lookahead; try assumption.
    + intros Hp. rewrite Hc', Hse'. apply Hh. exact Hp.
    + intros Hp Hv. exfalso.
      destruct (player w) as [p|] eqn:Hpl; [|congruence].
      pose proof (@inv_visible _ Hw _ Hpl) as Hvis.
      destruct (playerVisible_spec _ Hvis) as [_ [_ [_ [Hst _]]]].
      destruct (story (app w)) as [st|] eqn:Est; [|congruence].
      assert (story a' <> None) as Hst'.
      { unfold resumeAfterAudio in Hr.
        destruct (nth_error (inflight (app w)) k) as [[i [|data]]|];
          try discriminate.
        destruct (withTimeout reply _ _); inversion Hr; subst; simpl;
          rewrite Est; simpl; [|discriminate].
        destruct (hasIndex _ _); discriminate. }
      pose proof (@resumeAfterAudio_visible _ _ _ _ _ Hr Hst') as Ev.
      destruct b; rewrite ?schedulerEffect_visible in Hv; congruence.
  - (* ResetClicked *)
    destruct (playerVisible (app w)) eqn:Hv; [|discriminate].
    settled.
    pose proof (handleReset_inv Ha Hv) as Ha'.
    assert (currentPlayingIndex (schedulerEffect (handleReset (app w))) = 0)
      as Hc by (rewrite schedulerEffect_cursor; reflexivity).
    apply commit_lookahead.
    + apply schedulerEffect_inv. assumption.
    + apply schedulerEffect_ahead; [assumption|apply handleReset_ahead].
    + intros _. right. exact Hc.
    + intros _ _. right. exact Hc.
  - (* PlayPauseClicked *)
    destruct (player w) as [p|] eqn:Hp; [|discriminate].
    destruct (story (app w)) as [st|] eqn:Hst; [|discriminate].
    settled. constructor; simpl; [exact A|discriminate].
  - (* SourceEnded *)
    destruct (player w) as [p|] eqn:Hp; [|discriminate].
    destruct (story (app w)) as [st|] eqn:Hst; [|discriminate].
    destruct (sourceRef p) as [src|] eqn:Hsrc; [|discriminate].
    destruct (src_ended src) eqn:Hended; [discriminate|].
    destruct (contextSuspended p); [discriminate|].
    settled.
    destruct (inv_player Hw Hp) as [O1 O2 O3].
    constructor; simpl; [|discriminate].
    apply onSegmentChange_ahead; [assumption|assumption|congruence|].
    rewrite O2.
    apply (@onended_cursor_le src (setSource (Some (markEnded src)) p)).
    simpl. exact O1.
  - (* AnimationFrame *)
    destruct (player w) as [p|] eqn:Hp; [|discriminate].
    destruct (story (app w)) as [st|] eqn:Hst; [|discriminate].
    destruct (updateProgress st p) as [v|].
    + settled. constructor; simpl; [|discriminate].
      apply setSmoothProgress_ahead. assumption.
    + intros E; inversion E; subst. constructor; [exact A|].
      intros Hn. congruence.
  - (* ClockAdvances *)
    destruct (Qle_bool 0 dt); [|discriminate].
    settled. constructor; simpl; [exact A|].
    intros Hnone. apply Hh.
    destruct (player w); [discriminate|reflexivity].
  - (* ContextSuspends *)
    discriminate.
  - (* ContextResumes *)
    destruct (player w) as [p|] eqn:Hp; [|discriminate].
    destruct (contextSuspended p) eqn:Hsusp; [|discriminate].
    destruct (inv_running Hw Hp) as [Hrun _]. congruence.
Qed.

Lemma earlyRun_orderlyRun (evs : list Event) (w w' : World) :
  earlyRun w evs = Some w' -> orderlyRun w evs = Some w'.
Proof.
  revert w. induction evs as [|e evs IH]; simpl; intros w H.
  - exact H.
  - destruct (keyCheckIsEarly w e); [|discriminate].
    destruct (orderlyStep w e) as [w1|]; [|discriminate].
    apply IH. exact H.
Qed.

Lemma earlyRun_lookahead (evs : list Event) (w w' : World) :
  Inv w -> LookAhead w -> earlyRun w evs = Some w' -> LookAhead w'.
Proof.
  revert w. induction evs as [|e evs IH]; simpl; intros w Hw L.
  - intros E; inversion E; subst. exact L.
  - destruct (keyCheckIsEarly w e) eqn:Hearly; [|discriminate].
    destruct (orderlyStep w e) as [w1|] eqn:Hs; [|discriminate].
    apply IH; [eapply orderlyStep_inv|eapply orderlyStep_lookahead]; eassumption.
Qed.

Lemma initialWorld_lookahead : LookAhead initialWorld.
Proof.
  constructor; simpl; [apply initialApp_ahead|]. intros _. right. reflexivity.
Qed.

(** X13.  The generation never runs more than two chapters ahead of the
    listener.  In every state reached by an orderly run in which the
    answer of the key check does not arrive in the middle of a journey,
    the number of
    stored chapters is at most the cursor plus two, and at most the cursor
    plus one while a background generation is in flight. *)
Theorem lookahead_is_bounded (w : World) (st : AudioStory) :
  earlyReachable w ->
  story (app w) = Some st ->
  List.length (segments st) <= currentPlayingIndex (app w) + 2 /\
  (inflight (app w) <> [] ->
   List.length (segments st) <= currentPlayingIndex (app w) + 1) /\
  (forall p, player w = Some p ->
     List.length (segments st) <= currentSegmentIndex p + 2).
Proof.
  intros [evs Hrun] Hst.
  pose proof (earlyRun_lookahead evs initialWorld_inv initialWorld_lookahead Hrun)
    as [[A1 A2 _] _].
  pose proof (orderlyRun_inv evs initialWorld_inv (earlyRun_orderlyRun evs _ Hrun)) as Hw.
  split; [apply A1; exact Hst|].
  split; [apply A2; exact Hst|].
  intros p Hp. rewrite <- (ok_cursor (inv_player Hw Hp)).
  apply A1. exact Hst.
Qed.

Lemma lookahead_is_bounded_witness :
  earlyReachable worldTwoChapters /\
  List.length (segments storyTwoChapters) = 2 /\
  currentPlayingIndex (app worldTwoChapters) = 1 /\
  List.length (segments storyTwoChapters)
    <= currentPlayingIndex (app worldTwoChapters) + 2 /\
  (inflight (app worldTwoChapters) <> [] ->
   List.length (segments storyTwoChapters)
     <= currentPlayingIndex (app worldTwoChapters) + 1) /\
  (forall p, player worldTwoChapters = Some p ->
     List.length (segments storyTwoChapters) <= currentSegmentIndex p + 2).
Proof.
  assert (earlyReachable worldTwoChapters) as He
    by (exists twoChapters; vm_compute; reflexivity).
  split; [exact He|].
  split; [reflexivity|].
  split; [reflexivity|].
  apply (@lookahead_is_bounded worldTwoChapters storyTwoChapters He eq_refl).
Defined.

(** * The marker of the inline map *)

Section Marker.

Variable Point : Type.
Variable computeDistanceBetween : Point -> Point -> Q.
Hypothesis distance_nonneg : forall a b, (0 <= computeDistanceBetween a b)%Q.

Lemma legTotals_length (path : list Point) (t : Q) :
  List.length (legTotals computeDistanceBetween t path)
  = pred (List.length path).
Proof.
  revert t. induction path as [|a rest IH]; intros t; [reflexivity|].
  destruct rest as [|b rest']; [reflexivity|].
  change (legTotals computeDistanceBetween t (a :: b :: rest'))
    with ((t + computeDistanceBetween a b)%Q
          :: legTotals computeDistanceBetween (t + computeDistanceBetween a b)%Q
               (b :: rest')).
  transitivity
    (S (List.length
          (legTotals computeDistanceBetween
             (t + computeDistanceBetween a b)%Q (b :: rest'))));
    [reflexivity|].
  rewrite IH. reflexivity.
Qed.

Lemma distancesOf_length (path : list Point) :
  path <> [] ->
  List.length (distancesOf computeDistanceBetween path) = List.length path.
Proof.
  intros Hne. unfold distancesOf. simpl. rewrite legTotals_length.
  destruct path; [congruence|reflexivity].
Qed.

Lemma legTotals_last_ge (path : list Point) (t d : Q) :
  (t <= last (t :: legTotals computeDistanceBetween t path) d)%Q.
Proof.
  revert t d. induction path as [|a rest IH]; intros t d; [simpl; lra|].
  destruct rest as [|b rest']; [simpl; lra|].
  change (legTotals computeDistanceBetween t (a :: b :: rest'))
    with ((t + computeDistanceBetween a b)%Q
          :: legTotals computeDistanceBetween (t + computeDistanceBetween a b)%Q
               (b :: rest')).
  change (last (t :: ?x :: ?l) d) with (last (x :: l) d).
  eapply Qle_trans; [|apply IH].
  pose proof (distance_nonneg a b). lra.
Qed.

Lemma totalDistanceOf_nonneg (path : list Point) :
  (0 <= totalDistanceOf computeDistanceBetween path)%Q.
Proof. unfold totalDistanceOf, distancesOf. apply legTotals_last_ge. Qed.

End Marker.

(** The search finds a leg that brackets the target whenever the target
    lies between the first and the last running total. *)
Lemma findSegment_bracket (distances : list Q) (target : Q) (i : nat) :
  2 <= List.length distances ->
  (hd 0 distances <= target)%Q ->
  (target <= last distances 0)%Q ->
  exists j,
    findSegment target i distances = Some (i + j) /\
    S j < List.length distances /\
    (nth j distances 0 <= target)%Q /\
    (target <= nth (S j) distances 0)%Q.
Proof.
  revert i. induction distances as [|d0 rest IH]; intros i Hlen Hlo Hhi;
    [simpl in Hlen; lia|].
  destruct rest as [|d1 rest']; [simpl in Hlen; lia|].
  simpl in Hlo.
  change (findSegment target i (d0 :: d1 :: rest'))
    with (if Qle_bool d0 target && Qle_bool target d1 then Some i
          else findSegment target (S i) (d1 :: rest')).
  destruct (Qle_bool target d1) eqn:E1.
  - apply Qle_bool_iff in E1.
    assert (Qle_bool d0 target = true) as -> by (apply Qle_bool_iff; exact Hlo).
    exists 0. rewrite Nat.add_0_r.
    split; [reflexivity|]. split; [simpl; lia|].
    split; simpl; assumption.
  - rewrite andb_false_r.
    assert (~ (target <= d1)%Q) as Hgt.
    { intros H. apply Qle_bool_iff in H. congruence. }
    destruct rest' as [|d2 rest''].
    + simpl in Hhi. contradiction.
    + destruct (IH (S i)) as [j [Hf [Hj [Hl Hh]]]].
      * simpl. lia.
      * simpl. lra.
      * exact Hhi.
      * exists (S j). rewrite Hf.
        split; [f_equal; lia|].
        split; [simpl in *; lia|].
        split; assumption.
Qed.

Lemma placeMarker_unfold (Point : Type) (dist : Point -> Point -> Q)
  (path : list Point) (smoothProgress : Q) :
  path <> [] ->
  placeMarker dist path smoothProgress =
  let distances := distancesOf dist path in
  let targetDistance :=
    (totalDistanceOf dist path * clampProgress smoothProgress)%Q in
  let segmentIdx :=
    match findSegment targetDistance 0 distances with
    | Some i => i
    | None => 0
    end in
  let span :=
    match nth_error distances (S segmentIdx) with
    | Some segEndDist => (segEndDist - nth segmentIdx distances 0)%Q
    | None => 0%Q
    end in
  Some {| segmentIdx := segmentIdx;
          segFraction :=
            ((targetDistance - nth segmentIdx distances 0)
             / (if Qeq_bool span 0 then 1 else span))%Q |}.
Proof. destruct path; [congruence|reflexivity]. Qed.

Lemma clampProgress_range (v : Q) : (0 <= clampProgress v <= 1)%Q.
Proof.
  unfold clampProgress. split.
  - apply Q.le_max_l.
  - apply Q.max_lub; [lra|apply Q.le_min_l].
Qed.

(** X14.  On a route of at least two points the marker is put on a leg
    of the route, at a fraction between 0 and 1 of it, and the distance
    from the start at which that places it is the clamped progress times
    the length of the route; a leg of length zero does not break this. *)
Theorem marker_follows_progress (Point : Type) (dist : Point -> Point -> Q)
  (path : list Point) (smoothProgress : Q) :
  (forall a b, (0 <= dist a b)%Q) ->
  2 <= List.length path ->
  exists m,
    placeMarker dist path smoothProgress = Some m /\
    S (segmentIdx m) < List.length path /\
    (0 <= segFraction m <= 1)%Q /\
    (placedAt (distancesOf dist path) m
     == totalDistanceOf dist path * clampProgress smoothProgress)%Q.
Proof.
  intros Hnn Hlen.
  assert (path <> []) as Hne by (destruct path; [simpl in Hlen; lia|discriminate]).
  rewrite (placeMarker_unfold dist smoothProgress Hne).
  pose proof (distancesOf_length dist Hne) as Hdl.
  pose proof (totalDistanceOf_nonneg dist Hnn path) as Htot.
  pose proof (clampProgress_range smoothProgress) as [Hp0 Hp1].
  set (ds := distancesOf dist path) in *.
  set (total := totalDistanceOf dist path) in *.
  set (target := (total * clampProgress smoothProgress)%Q).
  assert (0 <= target)%Q as Ht0 by (unfold target; nra).
  assert (target <= total)%Q as Ht1 by (unfold target; nra).
  destruct (@findSegment_bracket ds target 0) as [j [Hf [Hj [Hl Hh]]]].
  - rewrite Hdl. exact Hlen.
  - unfold ds, distancesOf. simpl. exact Ht0.
  - exact Ht1.
  - cbv zeta. rewrite Hf. simpl Nat.add.
    rewrite (nth_error_nth' ds 0%Q Hj).
    eexists. split; [reflexivity|].
    unfold placedAt. cbn [segmentIdx segFraction].
    set (s := nth j ds 0%Q) in *. set (e := nth (S j) ds 0%Q) in *.
    split; [rewrite <- Hdl; exact Hj|].
    destruct (Qeq_bool (e - s) 0) eqn:Ez.
    + apply Qeq_bool_iff in Ez.
      assert (target - s == 0)%Q as Hzero by lra.
      split.
      * rewrite Hzero. unfold Qdiv. split; lra.
      * rewrite Hzero. unfold Qdiv. lra.
    + assert (~ (e - s == 0)%Q) as Hnz.
      { intros H. apply Qeq_bool_iff in H. congruence. }
      assert (0 < e - s)%Q as Hpos by lra.
      split; [split|].
      * apply Qle_shift_div_l; [exact Hpos|lra].
      * apply Qle_shift_div_r; [exact Hpos|lra].
      * field. exact Hnz.
Qed.

Lemma lineDistance_nonneg (a b : Q) : (0 <= lineDistance a b)%Q.
Proof. unfold lineDistance. apply Qabs_nonneg. Qed.

Lemma marker_follows_progress_witness :
  placeMarker lineDistance samplePath (1 # 2)
    = Some {| segmentIdx := 2; segFraction := 1 # 8 |} /\
  exists m,
    placeMarker lineDistance samplePath (1 # 2) = Some m /\
    S (segmentIdx m) < List.length samplePath /\
    (0 <= segFraction m <= 1)%Q /\
    (placedAt (distancesOf lineDistance samplePath) m
     == totalDistanceOf lineDistance samplePath * clampProgress (1 # 2))%Q.
Proof.
  split.
  - vm_compute. reflexivity.
  - apply (@marker_follows_progress Q lineDistance samplePath (1 # 2)
             lineDistance_nonneg).
    simpl. lia.
Defined.

(** X15.  The marker effect at its edges: it does nothing on an empty
    path, and it parks the marker at the very start of the first leg both
    for a progress of zero or less and for a route of a single point,
    where the missing second running total is replaced by the [|| 1]
    guard. *)
Theorem marker_at_start (Point : Type) (dist : Point -> Point -> Q)
  (path : list Point) (smoothProgress : Q) :
  (forall a b, (0 <= dist a b)%Q) ->
  path <> [] ->
  (smoothProgress <= 0)%Q \/ List.length path = 1 ->
  placeMarker dist [] smoothProgress = None /\
  exists m,
    placeMarker dist path smoothProgress = Some m /\
    segmentIdx m = 0 /\
    (segFraction m == 0)%Q.
Proof.
  intros Hnn Hne Hedge. split; [reflexivity|].
  rewrite (placeMarker_unfold dist smoothProgress Hne).
  destruct path as [|p0 [|p1 rest]]; [congruence| |].
  - (* a single point *)
    eexists. split; [reflexivity|]. split; [reflexivity|].
    cbn. unfold Qdiv. ring.
  - destruct Hedge as [Hle|Hone]; [|simpl in Hone; lia].
    assert (clampProgress smoothProgress == 0)%Q as Hc.
    { unfold clampProgress. rewrite (Q.min_r 1 smoothProgress) by lra.
      apply Q.max_l. exact Hle. }
    cbv zeta.
    set (total := totalDistanceOf dist (p0 :: p1 :: rest)).
    set (target := (total * clampProgress smoothProgress)%Q).
    assert (target == 0)%Q as Ht by (unfold target; rewrite Hc; ring).
    change (distancesOf dist (p0 :: p1 :: rest))
      with (0%Q :: (0 + dist p0 p1)%Q
            :: legTotals dist (0 + dist p0 p1)%Q (p1 :: rest)).
    change (findSegment target 0 (0%Q :: (0 + dist p0 p1)%Q :: ?l))
      with (if Qle_bool 0 target && Qle_bool target (0 + dist p0 p1)
            then Some 0
            else findSegment target 1 ((0 + dist p0 p1)%Q :: l)).
    pose proof (Hnn p0 p1) as Hd.
    assert (Qle_bool 0 target = true) as -> by (apply Qle_bool_iff; lra).
    assert (Qle_bool target (0 + dist p0 p1) = true) as ->
      by (apply Qle_bool_iff; lra).
    eexists. split; [reflexivity|]. split; [reflexivity|].
    cbn [segFraction nth andb].
    assert (target - 0 == 0)%Q as -> by lra.
    unfold Qdiv. ring.
Qed.

Lemma marker_at_start_witness :
  placeMarker lineDistance samplePath (-1 # 3)
    = Some {| segmentIdx := 0; segFraction := 0 # 3 |} /\
  placeMarker lineDistance [5%Q] (3 # 4)
    = Some {| segmentIdx := 0; segFraction := 0 # 4 |} /\
  placeMarker lineDistance [] (-1 # 3) = None /\
  exists m,
    placeMarker lineDistance samplePath (-1 # 3) = Some m /\
    segmentIdx m = 0 /\
    (segFraction m == 0)%Q.
Proof.
  split; [vm_compute; reflexivity|].
  split; [vm_compute; reflexivity|].
  apply (@marker_at_start Q lineDistance samplePath (-1 # 3)
           lineDistance_nonneg).
  - discriminate.
  - left. unfold Qle. simpl. lia.
Defined.

(** * Landmark images *)

Lemma kept_images_length (results : list (option string)) :
  List.length
    (flat_map (fun img => match img with Some s => [s] | None => [] end) results)
  <= List.length results.
Proof.
  induction results as [|[s|] l IH]; simpl; lia.
Qed.

Lemma firstInlineImage_is_png (parts : list (option (option string)))
  (img : string) :
  firstInlineImage parts = Some img ->
  prefix "data:image/png;base64," img = true.
Proof.
  induction parts as [|[data|] rest IH]; simpl; intros H.
  - discriminate.
  - inversion H; subst. simpl.
    repeat (destruct (Ascii.ascii_dec _ _) as [_|Hneq]; [|congruence]).
    destruct (spliced data); reflexivity.
  - apply IH. exact H.
Qed.

Lemma kept_images_are_png (imageReply : nat -> ImageReply) (ks : list nat) :
  Forall (fun img => prefix "data:image/png;base64," img = true)
    (flat_map (fun img => match img with Some s => [s] | None => [] end)
       (map (fun k => generateLandmarkImage (imageReply k)) ks)).
Proof.
  induction ks as [|k ks IH]; simpl; [constructor|].
  destruct (generateLandmarkImage (imageReply k)) as [img|] eqn:E; simpl;
    [|exact IH].
  constructor; [|exact IH].
  unfold generateLandmarkImage in E.
  destruct (imageReply k); try discriminate.
  eapply firstInlineImage_is_png. exact E.
Qed.

(** X16.  Whatever the model answers, a journey gets at most four
    landmark images, each of them a PNG data URL; the chain only fails
    when the answer to the landmark request parses to a JSON string, on
    which [names.map] is no function. *)
Theorem landmark_images_bounded (reply : LandmarksReply)
  (imageReply : nat -> ImageReply) :
  match landmarkImagesOf (getFamousLandmarks reply) imageReply with
  | Fulfilled images =>
      List.length images <= 4 /\
      Forall (fun img => prefix "data:image/png;base64," img = true) images
  | Thrown _ => exists s, reply = LandmarksParsed (JString s)
  end.
Proof.
  assert (forall items,
            List.length items <= 4 ->
            match landmarkImagesOf (JArray items) imageReply with
            | Fulfilled images =>
                List.length images <= 4 /\
                Forall (fun img => prefix "data:image/png;base64," img = true)
                  images
            | Thrown _ => exists s, reply = LandmarksParsed (JString s)
            end) as Harr.
  { intros items Hlen. unfold landmarkImagesOf. split.
    - eapply Nat.le_trans; [apply kept_images_length|].
      rewrite length_map, length_seq. exact Hlen.
    - apply kept_images_are_png. }
  destruct reply as [| | |[|b|q|s|items|fields]].
  - apply (Harr [JString "Holy Temple"; JString "Historical Gate";
                 JString "Sacred River"]). simpl. lia.
  - apply (Harr []). simpl. lia.
  - apply (Harr [JString "Holy Temple"; JString "Historical Gate";
                 JString "Sacred River"]). simpl. lia.
  - apply (Harr [JString "Holy Temple"; JString "Historical Gate";
                 JString "Sacred River"]). simpl. lia.
  - apply (Harr [JString "Holy Temple"; JString "Historical Gate";
                 JString "Sacred River"]). simpl. lia.
  - apply (Harr [JString "Holy Temple"; JString "Historical Gate";
                 JString "Sacred River"]). simpl. lia.
  - exists s. reflexivity.
  - apply (Harr (firstn 4 items)). rewrite length_firstn. lia.
  - apply (Harr [JString "Holy Temple"; JString "Historical Gate";
                 JString "Sacred River"]). simpl. lia.
Qed.

(** X17.  In orderly runs, if the answer to the landmark request parses to
    a JSON string,
    the journey does not start although the outline, the first text and
    the first audio all arrive in time: the rejection of the landmark
    chain is caught and the planner comes back with the generic error. *)
Theorem stringy_landmarks_fail_startup (w : World) (k : nat)
  (d : RouteDetails) (r : StartupReplies) (t1 t2 t3 t4 : N)
  (hints : list string) (txt : string) (buf : AudioBuffer) (s : string)
  (imageReply : nat -> ImageReply) :
  orderly w ->
  nth_error (starting (app w)) k = Some d ->
  outlineReply r = Resolves t1 hints -> (t1 < 60000)%N ->
  firstTextReply r = Resolves t2 txt -> (t2 < 60000)%N ->
  firstAudioReply r = Resolves t3 buf -> (t3 < 100000)%N ->
  landmarksReply r =
    settlesAt t4
      (landmarkImagesOf (getFamousLandmarks (LandmarksParsed (JString s)))
         imageReply) ->
  exists w',
    step w (StartupSettles k r) = Some w' /\
    appState (app w') = PLANNING /\
    story (app w') = None /\
    generationError (app w') = Some "Failed to start story stream."%string /\
    isKeyRequired (app w') = isKeyRequired (app w).
Proof.
  intros Hr Hk Ho1 Ht1 Ho2 Ht2 Ho3 Ht3 Ho4.
  apply N.ltb_lt in Ht1, Ht2, Ht3.
  assert (startupOutcome d r = Some (Thrown "names.map is not a function"))
    as Hout.
  { unfold startupOutcome, withTimeout.
    rewrite Ho1, Ht1, Ho2, Ht2, Ho3, Ht3, Ho4. reflexivity. }
  destruct (@failed_startup_step w k r d _ (orderly_inv Hr)
              (orderly_facts Hr) Hk Hout)
    as (w' & Hs & H1 & H2 & _ & _ & _ & _ & H3).
  assert (includes "names.map is not a function"
            "Requested entity was not found" = false) as Hi
    by (vm_compute; reflexivity).
  rewrite Hi in H3. destruct H3 as [H3 H4].
  exists w'. repeat split; assumption.
Qed.

Lemma stringy_landmarks_fail_startup_witness :
  orderly worldStarting /\
  exists w',
    step worldStarting (StartupSettles 0 startupStringyLandmarks) = Some w' /\
    appState (app w') = PLANNING /\
    story (app w') = None /\
    generationError (app w') = Some "Failed to start story stream."%string /\
    isKeyRequired (app w') = isKeyRequired (app worldStarting).
Proof.
  split; [exact worldStarting_orderly|].
  apply (@stringy_landmarks_fail_startup worldStarting 0 sampleRoute
           startupStringyLandmarks
           900 1500 4000 800 ["hint 1"; "hint 2"]%string "chapter one"
           sampleAudio "Kashi" (fun _ => ImageRequestFails)
           worldStarting_orderly eq_refl
           eq_refl eq_refl eq_refl eq_refl eq_refl eq_refl eq_refl).
Defined.

(** * The route planner *)

Lemma eqb_empty_false (s : string) :
  String.eqb s "" = false <-> s <> ""%string.
Proof.
  split.
  - intros H E. subst. discriminate.
  - intros H. destruct (String.eqb s "") eqn:E; [|reflexivity].
    apply String.eqb_eq in E. contradiction.
Qed.

Lemma orElse_nonempty (a b : string) :
  b <> ""%string -> RoutePlanner.orElse a b <> ""%string.
Proof.
  intros Hb. unfold RoutePlanner.orElse.
  destruct (String.eqb a "") eqn:E; [exact Hb|].
  apply eqb_empty_false. exact E.
Qed.

Lemma calculateEnabled_spec (appState : AppState) (s : RoutePlanner.State) :
  RoutePlanner.calculateEnabled appState s = true ->
  RoutePlanner.isLoading s = false /\
  RoutePlanner.isLocked appState = false /\
  RoutePlanner.startAddress s <> ""%string /\
  RoutePlanner.endAddress s <> ""%string.
Proof.
  unfold RoutePlanner.calculateEnabled. intros H.
  apply negb_true_iff in H.
  apply orb_false_elim in H. destruct H as [H H4].
  apply orb_false_elim in H. destruct H as [H H3].
  apply orb_false_elim in H. destruct H as [H1 H2].
  repeat split; try assumption; apply eqb_empty_false; assumption.
Qed.

Lemma handleCalculate_sends (s : RoutePlanner.State) :
  RoutePlanner.startAddress s <> ""%string ->
  RoutePlanner.endAddress s <> ""%string ->
  RoutePlanner.handleCalculate s =
  RoutePlanner.setPending
    (RoutePlanner.pending s ++
     [ {| RoutePlanner.origin :=
            RoutePlanner.orElse (RoutePlanner.startInput s)
              (RoutePlanner.startAddress s);
          RoutePlanner.destination :=
            RoutePlanner.orElse (RoutePlanner.endInput s)
              (RoutePlanner.endAddress s);
          RoutePlanner.googleMode :=
            match RoutePlanner.travelMode s with
            | RoutePlanner.TRAIN => RoutePlanner.GOOGLE_TRANSIT
            | _ => RoutePlanner.GOOGLE_DRIVING
            end;
          RoutePlanner.req_travelMode := RoutePlanner.travelMode s;
          RoutePlanner.req_selectedVoice := RoutePlanner.selectedVoice s;
          RoutePlanner.req_selectedStyle := RoutePlanner.selectedStyle s;
          RoutePlanner.req_withFamily := RoutePlanner.withFamily s;
          RoutePlanner.req_kidsCount := RoutePlanner.kidsCount s |} ])
    (RoutePlanner.setIsLoading true (RoutePlanner.setError None s)).
Proof.
  intros Hs He. unfold RoutePlanner.handleCalculate.
  pose proof (orElse_nonempty (RoutePlanner.startInput s) Hs) as H1.
  pose proof (orElse_nonempty (RoutePlanner.endInput s) He) as H2.
  apply eqb_empty_false in H1, H2. rewrite H1, H2. reflexivity.
Qed.

(** X18.  The check for missing locations in [handleCalculate] never
    fires from the button: whenever the button is enabled, a click clears
    the error, raises the loading flag and sends exactly one directions
    request, whose origin and destination are not empty: the text in the
    input box if there is any, else the address picked from the list. *)
Theorem enabled_button_sends_request (appState : AppState)
  (s : RoutePlanner.State) :
  RoutePlanner.calculateEnabled appState s = true ->
  RoutePlanner.error (RoutePlanner.handleCalculate s) = None /\
  RoutePlanner.isLoading (RoutePlanner.handleCalculate s) = true /\
  exists req,
    RoutePlanner.pending (RoutePlanner.handleCalculate s)
      = RoutePlanner.pending s ++ [req] /\
    RoutePlanner.origin req
      = RoutePlanner.orElse (RoutePlanner.startInput s)
          (RoutePlanner.startAddress s) /\
    RoutePlanner.destination req
      = RoutePlanner.orElse (RoutePlanner.endInput s)
          (RoutePlanner.endAddress s) /\
    RoutePlanner.origin req <> ""%string /\
    RoutePlanner.destination req <> ""%string.
Proof.
  intros Hen.
  destruct (calculateEnabled_spec appState s Hen) as [_ [_ [Hs He]]].
  rewrite (handleCalculate_sends s Hs He). simpl.
  split; [reflexivity|]. split; [reflexivity|].
  eexists. split; [reflexivity|]. simpl.
  split; [reflexivity|]. split; [reflexivity|].
  split; apply orElse_nonempty; assumption.
Qed.

Lemma enabled_button_sends_request_witness :
  RoutePlanner.calculateEnabled PLANNING RoutePlanner.stateFilledIn = true /\
  RoutePlanner.error (RoutePlanner.handleCalculate RoutePlanner.stateFilledIn)
    = None /\
  RoutePlanner.isLoading (RoutePlanner.handleCalculate RoutePlanner.stateFilledIn)
    = true /\
  exists req,
    RoutePlanner.pending (RoutePlanner.handleCalculate RoutePlanner.stateFilledIn)
      = RoutePlanner.pending RoutePlanner.stateFilledIn ++ [req] /\
    RoutePlanner.origin req
      = RoutePlanner.orElse (RoutePlanner.startInput RoutePlanner.stateFilledIn)
          (RoutePlanner.startAddress RoutePlanner.stateFilledIn) /\
    RoutePlanner.destination req
      = RoutePlanner.orElse (RoutePlanner.endInput RoutePlanner.stateFilledIn)
          (RoutePlanner.endAddress RoutePlanner.stateFilledIn) /\
    RoutePlanner.origin req <> ""%string /\
    RoutePlanner.destination req <> ""%string.
Proof.
  split; [reflexivity|].
  apply (@enabled_button_sends_request PLANNING RoutePlanner.stateFilledIn).
  reflexivity.
Defined.

Lemma planner_initial_invariant :
  RoutePlanner.Invariant RoutePlanner.initialState.
Proof.
  constructor; simpl; try lia; try reflexivity; intros req [].
Qed.

Lemma planner_step_invariant (appState : AppState)
  (s s' : RoutePlanner.State) (e : RoutePlanner.Event)
  (found : option RouteDetails) :
  RoutePlanner.Invariant s ->
  RoutePlanner.step appState s e = Some (s', found) ->
  RoutePlanner.Invariant s'.
Proof.
  intros [I1 I2 I3 I4].
  destruct e; simpl.
  - destruct (RoutePlanner.isLocked appState); [discriminate|].
    destruct which; settled; constructor; assumption.
  - settled. unfold RoutePlanner.placeChanged.
    destruct (RoutePlanner.hasLocation place); [|constructor; assumption].
    destruct which; constructor; assumption.
  - settled. constructor; assumption.
  - destruct (RoutePlanner.withFamily s); [|discriminate].
    settled. constructor; simpl; try assumption. lia.
  - destruct (RoutePlanner.withFamily s); [|discriminate].
    settled. constructor; simpl; try assumption. lia.
  - destruct (RoutePlanner.isLocked appState); [discriminate|].
    settled. constructor; assumption.
  - destruct (RoutePlanner.isLocked appState); [discriminate|].
    settled. constructor; assumption.
  - destruct (RoutePlanner.isLocked appState); [discriminate|].
    settled. constructor; assumption.
  - destruct (RoutePlanner.calculateEnabled appState s) eqn:Hen; [|discriminate].
    settled.
    destruct (calculateEnabled_spec appState s Hen) as [Hl [_ [Hs He]]].
    assert (RoutePlanner.pending s = []) as Hnil.
    { rewrite Hl in I3. destruct (RoutePlanner.pending s); [reflexivity|].
      discriminate. }
    rewrite (handleCalculate_sends s Hs He), Hnil.
    constructor; simpl; try assumption; try lia; try reflexivity.
    intros req [E|[]]. subst req. simpl.
    split; apply orElse_nonempty; assumption.
  - destruct (nth_error (RoutePlanner.pending s) k) as [req|] eqn:Hk;
      [|discriminate].
    destruct (nth_error_single _ _ I2 Hk) as [_ Hrm].
    unfold RoutePlanner.directionsCallback.
    destruct result; settled; constructor; simpl; rewrite ?Hrm;
      simpl; try assumption; try lia; try reflexivity; intros r [].
  - destruct (String.eqb msg ""); settled; constructor; assumption.
Qed.

Lemma planner_run_invariant (evs : list (AppState * RoutePlanner.Event))
  (s s' : RoutePlanner.State) (routes : list RouteDetails) :
  RoutePlanner.Invariant s ->
  RoutePlanner.run s evs = Some (s', routes) ->
  RoutePlanner.Invariant s'.
Proof.
  revert s routes. induction evs as [|[appState e] evs IH]; simpl;
    intros s routes Hi.
  - settled. assumption.
  - destruct (RoutePlanner.step appState s e) as [[s1 found]|] eqn:Hs;
      [|discriminate].
    destruct (RoutePlanner.run s1 evs) as [[s2 routes2]|] eqn:Hr;
      [|discriminate].
    settled. eapply IH; [|exact Hr].
    eapply planner_step_invariant; eassumption.
Qed.

Lemma planner_reachable_invariant (s : RoutePlanner.State) :
  RoutePlanner.reachable s -> RoutePlanner.Invariant s.
Proof.
  intros [evs [routes H]].
  eapply planner_run_invariant; [apply planner_initial_invariant|exact H].
Qed.

(** X19.  The planner never has two directions requests in flight: the
    loading flag is up exactly while one request waits for its answer,
    the button takes no click during that time, and the request that
    waits has an origin and a destination. *)
Theorem planner_single_request (s : RoutePlanner.State) :
  RoutePlanner.reachable s ->
  List.length (RoutePlanner.pending s) <= 1 /\
  (RoutePlanner.isLoading s = true <-> RoutePlanner.pending s <> []) /\
  (RoutePlanner.pending s <> [] ->
   forall appState,
     RoutePlanner.step appState s RoutePlanner.CalculateClicked = None) /\
  (forall req, In req (RoutePlanner.pending s) ->
     RoutePlanner.origin req <> ""%string /\
     RoutePlanner.destination req <> ""%string).
Proof.
  intros Hr. destruct (planner_reachable_invariant Hr) as [I1 I2 I3 I4].
  assert (RoutePlanner.isLoading s = true <-> RoutePlanner.pending s <> [])
    as Hflag.
  { rewrite I3. destruct (RoutePlanner.pending s); simpl; split; intros;
      congruence. }
  split; [exact I2|]. split; [exact Hflag|]. split; [|exact I4].
  intros Hne appState. apply Hflag in Hne. simpl.
  unfold RoutePlanner.calculateEnabled. rewrite Hne. reflexivity.
Qed.

Lemma stateSearching_reachable :
  RoutePlanner.reachable (RoutePlanner.handleCalculate RoutePlanner.stateFilledIn).
Proof.
  exists (RoutePlanner.filledIn ++ [(PLANNING, RoutePlanner.CalculateClicked)]).
  exists []. vm_compute. reflexivity.
Qed.

Lemma planner_single_request_witness :
  RoutePlanner.reachable (RoutePlanner.handleCalculate RoutePlanner.stateFilledIn) /\
  List.length
    (RoutePlanner.pending (RoutePlanner.handleCalculate RoutePlanner.stateFilledIn))
    = 1 /\
  RoutePlanner.step PLANNING
    (RoutePlanner.handleCalculate RoutePlanner.stateFilledIn)
    RoutePlanner.CalculateClicked = None.
Proof.
  split; [exact stateSearching_reachable|].
  split; [reflexivity|].
  destruct (@planner_single_request
              (RoutePlanner.handleCalculate RoutePlanner.stateFilledIn)
              stateSearching_reachable) as [_ [_ [Hblocked _]]].
  apply Hblocked. discriminate.
Defined.

(** X20.  The kid counter never drops below zero, whatever is clicked. *)
Theorem planner_kids_nonneg (s : RoutePlanner.State) :
  RoutePlanner.reachable s -> (0 <= RoutePlanner.kidsCount s)%Z.
Proof.
  intros Hr. apply (RoutePlanner.kids_nonneg (planner_reachable_invariant Hr)).
Qed.

Lemma planner_kids_nonneg_witness :
  RoutePlanner.reachable RoutePlanner.stateAfterMinus /\
  RoutePlanner.kidsCount RoutePlanner.stateAfterMinus = 0%Z /\
  (0 <= RoutePlanner.kidsCount RoutePlanner.stateAfterMinus)%Z.
Proof.
  assert (RoutePlanner.reachable RoutePlanner.stateAfterMinus) as Hr.
  { exists [(PLANNING, RoutePlanner.KidsMinusClicked)], [].
    vm_compute. reflexivity. }
  split; [exact Hr|]. split; [reflexivity|].
  apply (@planner_kids_nonneg RoutePlanner.stateAfterMinus Hr).
Defined.

Lemma selection_keeps_pending (appState : AppState)
  (s s' : RoutePlanner.State) (e : RoutePlanner.Event)
  (found : option RouteDetails) :
  RoutePlanner.isSelection e = true ->
  RoutePlanner.step appState s e = Some (s', found) ->
  RoutePlanner.pending s' = RoutePlanner.pending s /\ found = None.
Proof.
  intros Hsel. destruct e; try discriminate; simpl; intros H;
    try match type of H with
        | (if ?c then _ else _) = _ => destruct c
        end;
    try discriminate; inversion H; subst; split; reflexivity.
Qed.

Lemma selections_keep_pending (evs : list (AppState * RoutePlanner.Event))
  (s s' : RoutePlanner.State) (routes : list RouteDetails) :
  Forall (fun ae => RoutePlanner.isSelection (snd ae) = true) evs ->
  RoutePlanner.run s evs = Some (s', routes) ->
  RoutePlanner.pending s' = RoutePlanner.pending s /\ routes = [].
Proof.
  intros Hall. revert s routes.
  induction Hall as [|[appState e] evs Hsel _ IH]; simpl; intros s routes.
  - settled. split; reflexivity.
  - destruct (RoutePlanner.step appState s e) as [[s1 found]|] eqn:Hs;
      [|discriminate].
    destruct (RoutePlanner.run s1 evs) as [[s2 routes2]|] eqn:Hr;
      [|discriminate].
    settled.
    destruct (@selection_keeps_pending _ _ _ _ _ Hsel Hs) as [Hp Hf].
    destruct (IH _ _ Hr) as [Hp' Hr'].
    subst. split; [congruence|reflexivity].
Qed.

(** X21.  A journey starts with the choices made when the button was
    clicked.  Whatever voice, style, travel mode, family switch or kid
    count is picked while the directions request is waiting, the route
    handed to [onRouteFound] carries the selections of the click, next to
    the addresses and the duration of the leg found; the loading flag
    goes down and no request is left waiting. *)
Theorem route_uses_selections_at_click (appState appState' : AppState)
  (s s' : RoutePlanner.State) (evs : list (AppState * RoutePlanner.Event))
  (routes : list RouteDetails) (leg : RoutePlanner.Leg) :
  RoutePlanner.reachable s ->
  RoutePlanner.calculateEnabled appState s = true ->
  Forall (fun ae => RoutePlanner.isSelection (snd ae) = true) evs ->
  RoutePlanner.run (RoutePlanner.handleCalculate s) evs = Some (s', routes) ->
  exists s'' d,
    RoutePlanner.step appState' s'
      (RoutePlanner.DirectionsArrive 0 (RoutePlanner.StatusOK leg))
      = Some (s'', Some d) /\
    d = {| startAddress := RoutePlanner.start_address leg;
           endAddress := RoutePlanner.end_address leg;
           distance := RoutePlanner.distance_text leg;
           duration := RoutePlanner.duration_text leg;
           durationSeconds := RoutePlanner.duration_value leg;
           travelMode := RoutePlanner.modeName (RoutePlanner.travelMode s);
           voiceName := RoutePlanner.selectedVoice s;
           storyStyle := RoutePlanner.selectedStyle s;
           withFamily := RoutePlanner.withFamily s;
           kidsCount := Z.to_nat (RoutePlanner.kidsCount s) |} /\
    Z.of_nat (kidsCount d) = RoutePlanner.kidsCount s /\
    RoutePlanner.isLoading s'' = false /\
    RoutePlanner.pending s'' = [] /\
    routes = [].
Proof.
  intros Hr Hen Hall Hrun.
  destruct (planner_reachable_invariant Hr) as [I1 I2 I3 I4].
  destruct (calculateEnabled_spec appState s Hen) as [Hl [_ [Hs He]]].
  assert (RoutePlanner.pending s = []) as Hnil.
  { rewrite Hl in I3. destruct (RoutePlanner.pending s); [reflexivity|].
    discriminate. }
  destruct (@selections_keep_pending _ _ _ _ Hall Hrun) as [Hp Hroutes].
  rewrite (handleCalculate_sends s Hs He), Hnil in Hp. simpl in Hp.
  simpl. rewrite Hp. simpl.
  eexists. eexists. split; [reflexivity|].
  split; [reflexivity|]. simpl.
  split; [apply Z2Nat.id; exact I1|].
  split; [reflexivity|]. split; [reflexivity|exact Hroutes].
Qed.

Lemma stateFilledIn_reachable : RoutePlanner.reachable RoutePlanner.stateFilledIn.
Proof. exists RoutePlanner.filledIn, []. vm_compute. reflexivity. Qed.

Lemma route_uses_selections_at_click_witness :
  RoutePlanner.selectedVoice RoutePlanner.stateFilledIn = "Kore"%string /\
  RoutePlanner.selectedVoice RoutePlanner.stateChangedMind = "Puck"%string /\
  RoutePlanner.kidsCount RoutePlanner.stateChangedMind = 2%Z /\
  exists s'' d,
    RoutePlanner.step GENERATING_INITIAL_SEGMENT RoutePlanner.stateChangedMind
      (RoutePlanner.DirectionsArrive 0
         (RoutePlanner.StatusOK RoutePlanner.sampleLeg))
      = Some (s'', Some d) /\
    voiceName d = "Kore"%string /\
    storyStyle d = GUIDE /\
    kidsCount d = 1.
Proof.
  split; [reflexivity|]. split; [reflexivity|]. split; [reflexivity|].
  destruct (@route_uses_selections_at_click PLANNING GENERATING_INITIAL_SEGMENT
              RoutePlanner.stateFilledIn RoutePlanner.stateChangedMind
              RoutePlanner.changedMind [] RoutePlanner.sampleLeg
              stateFilledIn_reachable eq_refl)
    as (s'' & d & Hstep & Hd & _).
  - repeat constructor.
  - vm_compute. reflexivity.
  - exists s'', d. split; [exact Hstep|]. rewrite Hd. simpl.
    repeat split; reflexivity.
Defined.

(** * From one chapter to the next *)

(** X22.  In orderly runs, when the chapter being played reaches its end
    and the next chapter is stored, playback goes on without a pause: in
    the same step
    the cursor moves on, the overlay stays down, a new source is started
    at offset 0 and the page is told the new cursor.  This also holds when
    the next chapter arrived while the current one was playing, so that
    the [onended] handler still sees the story without it: the handler
    then raises the buffering flag and the buffering effect takes it down
    again at once.  The audio that is started is the one the handler's own
    story holds for the next position, if it holds one, and the stored
    one otherwise. *)
Theorem seamless_continuation (w : World) (p : Player) (st : AudioStory)
  (src : Source) (now : Q) (buf : AudioBuffer) :
  orderly w ->
  player w = Some p ->
  story (app w) = Some st ->
  sourceRef p = Some src ->
  src_ended src = false ->
  audioContextRef p = Some now ->
  (bufferDuration (src_buffer src) - (1 # 2) <= now - startTimeRef p)%Q ->
  audioAt st (currentSegmentIndex p + 1) = Some buf ->
  exists w1 p1 src1,
    step w SourceEnded = Some w1 /\
    player w1 = Some p1 /\
    isPlaying p1 = true /\
    overlayShown p1 = false /\
    currentSegmentIndex p1 = currentSegmentIndex p + 1 /\
    currentPlayingIndex (app w1) = currentSegmentIndex p + 1 /\
    sourceRef p1 = Some src1 /\
    src_offset src1 = 0%Q /\
    src_ended src1 = false /\
    startTimeRef p1 = (now - 0)%Q /\
    match audioAt (src_story src) (currentSegmentIndex p + 1) with
    | Some held => src_buffer src1 = held
    | None => src_buffer src1 = buf
    end.
Proof.
  intros Hr Hp Hst Hsrc Hended Hc Hle Hnext.
  pose proof (orderly_inv Hr) as Hw.
  destruct (inv_player Hw Hp) as [O1 O2 O3].
  pose proof (rinv_closure (pinv_refs (O3 st Hst)) Hsrc) as [He Hl].
  pose proof (inv_story (inv_app Hw) Hst) as Hwf.
  destruct (facts_player (orderly_facts Hr) Hp Hst) as [[_ _ P3 Hrun] _].
  destruct P3 as [Hplay [Hbuf _]];
    [unfold sounding; rewrite Hsrc, Hended; reflexivity|].
  set (n := currentSegmentIndex p + 1) in *.
  set (p0 := setSource (Some (markEnded src)) p).
  assert (n < totalSegmentsEstimate (src_story src)) as Hroom.
  { unfold audioAt in Hnext.
    destruct (nth_error (segments st) n) eqn:Hn; [|discriminate].
    apply nth_error_length in Hn. pose proof (wf_bounded Hwf). lia. }
  assert (step w SourceEnded =
          Some {| app := onSegmentChange
                           (currentSegmentIndex
                              (syncIndexRef (handleSegmentEnd (src_story src) p0)))
                           (app w);
                  player := Some (bufferingEffect st
                              (syncIndexRef (handleSegmentEnd (src_story src) p0))) |})
    as Hstep.
  { unfold step. cbv beta iota zeta. rewrite Hp, Hst, Hsrc, Hended, Hrun.
    fold p0. rewrite (@onended_fires src p0 now Hc Hle). reflexivity. }
  assert (indexRef p0 + 1 = n) as Hidx by (unfold p0, n; simpl; lia).
  assert (exists q src1,
            bufferingEffect st (syncIndexRef (handleSegmentEnd (src_story src) p0))
              = q /\
            isPlaying q = true /\ isBuffering q = false /\
            currentSegmentIndex q = n /\
            currentSegmentIndex
              (syncIndexRef (handleSegmentEnd (src_story src) p0)) = n /\
            sourceRef q = Some src1 /\ src_offset src1 = 0%Q /\
            src_ended src1 = false /\ startTimeRef q = (now - 0)%Q /\
            match audioAt (src_story src) n with
            | Some held => src_buffer src1 = held
            | None => src_buffer src1 = buf
            end) as (q & src1 & Hq & Q1 & Q2 & Q3 & Q4 & Q5 & Q6 & Q7 & Q8 & Q9).
  { unfold audioAt. unfold handleSegmentEnd. rewrite Hidx.
    assert ((n <? totalSegmentsEstimate (src_story src)) = true) as ->
      by (apply Nat.ltb_lt; exact Hroom).
    cbn [orb].
    destruct (nth_error (segments (src_story src)) n) as [next|] eqn:Hn.
    - destruct (audioBuffer next) as [held|] eqn:Hheld; cbn [isSome].
      + unfold playSegment. rewrite Hheld. simpl. rewrite Hrun.
        eexists. eexists.
        split; [apply bufferingEffect_idle; right; simpl; exact Hbuf|].
        simpl. rewrite Hc. repeat split; auto.
      + match goal with
        | |- context [bufferingEffect st ?x] =>
            destruct (@bufferingEffect_resumes st x buf) as [seg [_ Hres]];
              [simpl; exact Hrun|simpl; exact Hplay|reflexivity
              |simpl; exact Hnext|]
        end.
        rewrite Hres. eexists. eexists. split; [reflexivity|].
        simpl. rewrite Hc. repeat split; auto.
    - match goal with
      | |- context [bufferingEffect st ?x] =>
          destruct (@bufferingEffect_resumes st x buf) as [seg [_ Hres]];
            [simpl; exact Hrun|simpl; exact Hplay|reflexivity
            |simpl; exact Hnext|]
      end.
      rewrite Hres. eexists. eexists. split; [reflexivity|].
      simpl. rewrite Hc. repeat split; auto. }
  rewrite Hq, Q4 in Hstep.
  eexists. exists q, src1. split; [exact Hstep|].
  destruct (onSegmentChange_view n (app w)) as [_ [_ Ecur]].
  simpl. unfold overlayShown. repeat split; auto.
Qed.

Lemma worldEndOfFirst_orderly : orderly worldEndOfFirst.
Proof. exists chapterArrivesWhilePlaying. vm_compute. reflexivity. Qed.

Lemma seamless_continuation_witness :
  orderly worldEndOfFirst /\
  story (app worldEndOfFirst) = Some storyTwoChapters /\
  List.length (segments (src_story sourceEndOfFirst)) = 1 /\
  exists w1 p1 src1,
    step worldEndOfFirst SourceEnded = Some w1 /\
    player w1 = Some p1 /\
    isPlaying p1 = true /\
    overlayShown p1 = false /\
    currentSegmentIndex p1 = 1 /\
    currentPlayingIndex (app w1) = 1 /\
    sourceRef p1 = Some src1 /\
    src_offset src1 = 0%Q /\
    src_ended src1 = false /\
    startTimeRef p1 = (20 - 0)%Q /\
    src_buffer src1 = sampleAudio.
Proof.
  split; [exact worldEndOfFirst_orderly|].
  split; [reflexivity|].
  split; [reflexivity|].
  apply (@seamless_continuation worldEndOfFirst playerEndOfFirst
           storyTwoChapters sourceEndOfFirst 20 sampleAudio
           worldEndOfFirst_orderly eq_refl eq_refl eq_refl eq_refl eq_refl).
  - vm_compute. discriminate.
  - reflexivity.
Defined.

Lemma handleSegmentEnd_advances (closure : AudioStory) (p : Player) :
  indexRef p + 1 < totalSegmentsEstimate closure ->
  currentSegmentIndex (handleSegmentEnd closure p) = indexRef p + 1.
Proof.
  intros Hlt. unfold handleSegmentEnd.
  assert ((indexRef p + 1 <? totalSegmentsEstimate closure) = true) as ->
    by (apply Nat.ltb_lt; exact Hlt).
  cbn [orb].
  destruct (nth_error _ _) as [next|]; [|reflexivity].
  destruct (isSome (audioBuffer next)); [|reflexivity].
  match goal with
  | |- currentSegmentIndex (playSegment ?c ?s ?o ?q) = _ =>
      destruct (playSegment_cursor c s o q) as [E _]; rewrite E
  end.
  reflexivity.
Qed.

(** X23.  A generation that failed is asked for again when the listener
    reaches the next chapter boundary.  In orderly runs, when the chapter
    being played
    ends, nothing is in flight, the story is still short of its announced
    length and holds fewer than three chapters from the cursor on, then
    the step that moves the cursor also starts the generation of the
    first missing chapter. *)
Theorem generation_restarts_at_boundary (w : World) (p : Player)
  (st : AudioStory) (src : Source) (now : Q) :
  orderly w ->
  player w = Some p ->
  story (app w) = Some st ->
  sourceRef p = Some src ->
  src_ended src = false ->
  audioContextRef p = Some now ->
  (bufferDuration (src_buffer src) - (1 # 2) <= now - startTimeRef p)%Q ->
  inflight (app w) = [] ->
  List.length (segments st) < totalSegmentsEstimate st ->
  List.length (segments st) < currentSegmentIndex p + 3 ->
  exists w1,
    step w SourceEnded = Some w1 /\
    story (app w1) = Some st /\
    currentPlayingIndex (app w1) = currentSegmentIndex p + 1 /\
    inflight (app w1) =
      [ {| att_index := List.length (segments st) + 1;
           att_phase := AwaitingText |} ] /\
    isGeneratingRef (app w1) = true.
Proof.
  intros Hr Hp Hst Hsrc Hended Hc Hle Hnil Hshort Hnear.
  pose proof (orderly_inv Hr) as Hw. pose proof (inv_app Hw) as Ha.
  destruct (inv_player Hw Hp) as [O1 O2 O3].
  pose proof (rinv_closure (pinv_refs (O3 st Hst)) Hsrc) as [He Hl].
  destruct (facts_player (orderly_facts Hr) Hp Hst) as [[_ _ P3 Hrun] _].
  destruct P3 as [_ [_ Hin]];
    [unfold sounding; rewrite Hsrc, Hended; reflexivity|].
  set (p0 := setSource (Some (markEnded src)) p).
  assert (currentSegmentIndex
            (syncIndexRef (handleSegmentEnd (src_story src) p0))
          = currentSegmentIndex p + 1) as Hcur.
  { simpl. rewrite handleSegmentEnd_advances; unfold p0; simpl; lia. }
  assert (step w SourceEnded =
          Some {| app := onSegmentChange (currentSegmentIndex p + 1) (app w);
                  player := Some (bufferingEffect st
                              (syncIndexRef (handleSegmentEnd (src_story src) p0))) |})
    as Hstep.
  { unfold step. cbv beta iota zeta. rewrite Hp, Hst, Hsrc, Hended, Hrun.
    fold p0. rewrite (@onended_fires src p0 now Hc Hle), Hcur. reflexivity. }
  eexists. split; [exact Hstep|]. simpl.
  destruct (onSegmentChange_view (currentSegmentIndex p + 1) (app w))
    as [Es [_ Ec]].
  split; [congruence|]. split; [exact Ec|].
  unfold onSegmentChange.
  assert ((currentSegmentIndex p + 1 =? currentPlayingIndex (app w)) = false)
    as -> by (apply Nat.eqb_neq; lia).
  set (a1 := setCurrentPlayingIndex (currentSegmentIndex p + 1) (app w)).
  assert (AppInv a1) as Ha1 by (destruct Ha; constructor; simpl; auto).
  assert (isGeneratingRef (app w) = false) as Hfree
    by (rewrite (inv_lock Ha), Hnil; reflexivity).
  unfold schedulerEffect.
  rewrite (@schedulerTrigger_ready a1 st Ha1 Hst).
  assert ((List.length (segments st) <? currentPlayingIndex a1 + 2) = true)
    as -> by (apply Nat.ltb_lt; unfold a1; simpl; lia).
  assert ((List.length (segments st) <? totalSegmentsEstimate st) = true)
    as -> by (apply Nat.ltb_lt; exact Hshort).
  assert (isGeneratingRef a1 = false) as -> by exact Hfree.
  cbn [andb negb].
  unfold generateNextSegment.
  assert (story a1 = Some st) as -> by exact Hst.
  destruct (inv_ready Ha) as [_ Hroute]; [congruence|].
  assert (route a1 = route (app w)) as -> by reflexivity.
  destruct (route (app w)); [|congruence].
  assert (isGeneratingRef a1 = false) as -> by exact Hfree.
  simpl. rewrite Hnil. split; reflexivity.
Qed.

Lemma worldRetryDue_orderly : orderly worldRetryDue.
Proof. exists playedAfterTimeout. vm_compute. reflexivity. Qed.

Lemma generation_restarts_at_boundary_witness :
  orderly worldRetryDue /\
  inflight (app worldRetryDue) = [] /\
  exists w1,
    step worldRetryDue SourceEnded = Some w1 /\
    story (app w1) = Some storyShortJourney /\
    currentPlayingIndex (app w1) = 1 /\
    inflight (app w1) = [ {| att_index := 2; att_phase := AwaitingText |} ] /\
    isGeneratingRef (app w1) = true.
Proof.
  split; [exact worldRetryDue_orderly|].
  split; [reflexivity|].
  apply (@generation_restarts_at_boundary worldRetryDue playerRetryDue
           storyShortJourney sourceRetryDue 20
           worldRetryDue_orderly eq_refl eq_refl eq_refl eq_refl eq_refl).
  - vm_compute. discriminate.
  - reflexivity.
  - simpl. lia.
  - simpl. lia.
Defined.

(** * The progress value, chapter by chapter *)

(** X24.  In orderly runs every progress value the player hands up lies in
    the slice of
    the journey that belongs to the chapter under the cursor: between
    [k / n] and [(k + 1) / n] for cursor [k] and [n] announced chapters.
    So the marker on the map never leaves the stretch of the current
    chapter while that chapter plays. *)
Theorem progress_within_chapter (w : World) (p : Player) (st : AudioStory)
  (v : Q) :
  orderly w ->
  player w = Some p ->
  story (app w) = Some st ->
  updateProgress st p = Some v ->
  (inject_Z (Z.of_nat (currentSegmentIndex p))
   / inject_Z (Z.of_nat (totalSegmentsEstimate st)) <= v)%Q /\
  (v <= inject_Z (Z.of_nat (currentSegmentIndex p + 1))
        / inject_Z (Z.of_nat (totalSegmentsEstimate st)))%Q.
Proof.
  intros Hr Hp Hst Hv.
  pose proof (orderly_inv Hr) as Hw.
  pose proof (inv_story (inv_app Hw) Hst) as Hwf.
  pose proof (wf_estimate Hwf) as He.
  assert (0 < inject_Z (Z.of_nat (totalSegmentsEstimate st)))%Q as Hpos
    by (apply inject_nat_pos; lia).
  unfold updateProgress in Hv.
  destruct (isPlaying p) eqn:Hplay; [|discriminate].
  destruct (isBuffering p) eqn:Hbuf; [discriminate|]. simpl in Hv.
  destruct (audioContextRef p) as [now|] eqn:Hc; [|discriminate].
  destruct (nth_error (segments st) (currentSegmentIndex p)) as [seg|];
    [|discriminate].
  destruct (audioBuffer seg) as [buf|]; [|discriminate].
  injection Hv as Hv. subst v.
  pose proof (rinv_clock (pinv_refs (ok_inv (inv_player Hw Hp) Hst)) Hc)
    as Hclock.
  destruct (@fraction_in_unit (now - startTimeRef p) (bufferDuration buf))
    as [F0 F1]; [lra|apply bufferDuration_pos|].
  assert (inject_Z (Z.of_nat (currentSegmentIndex p + 1))
          == inject_Z (Z.of_nat (currentSegmentIndex p)) + 1)%Q as Hsucc.
  { rewrite Nat2Z.inj_add, inject_Z_plus. reflexivity. }
  set (f := Qmin 1 ((now - startTimeRef p) / bufferDuration buf)) in *.
  assert (0 <= / inject_Z (Z.of_nat (totalSegmentsEstimate st)))%Q as Hinv
    by (apply Qinv_le_0_compat; lra).
  split; unfold Qdiv; apply Qmult_le_compat_r; try exact Hinv; lra.
Qed.

Lemma progress_within_chapter_witness :
  orderly worldPlaying /\
  exists v,
    updateProgress storyTwoChapters playerPlaying = Some v /\
    (inject_Z (Z.of_nat (currentSegmentIndex playerPlaying))
     / inject_Z (Z.of_nat (totalSegmentsEstimate storyTwoChapters)) <= v)%Q /\
    (v <= inject_Z (Z.of_nat (currentSegmentIndex playerPlaying + 1))
          / inject_Z (Z.of_nat (totalSegmentsEstimate storyTwoChapters)))%Q.
Proof.
  split; [exact worldPlaying_orderly|].
  eexists. split; [vm_compute; reflexivity|].
  apply (@progress_within_chapter worldPlaying playerPlaying storyTwoChapters _
           worldPlaying_orderly eq_refl eq_refl).
  vm_compute. reflexivity.
Defined.

(** * The key prompt *)

(** X25.  The key prompt is modal for what the page shows.  In every run,
    while it is up nothing else is rendered: no player is mounted, neither
    the planner nor the loading panel is displayed, and nothing can be
    reset or played.  Selecting a key takes it down and leaves the story
    as it is; if a journey is open (story, route, [READY_TO_PLAY]) and the
    maps script has not failed, the player comes back as a fresh one,
    paused at the first chapter, whatever was playing before; without a
    story no player is mounted. *)
Theorem key_prompt_is_modal (w : World) :
  reachable w ->
  isKeyRequired (app w) = true ->
  player w = None /\
  plannerShown (app w) = false /\
  loadingShown (app w) = false /\
  step w ResetClicked = None /\
  step w PlayPauseClicked = None /\
  exists w',
    step w KeySelected = Some w' /\
    isKeyRequired (app w') = false /\
    story (app w') = story (app w) /\
    (journeyOpen (app w) -> scriptError (app w) = false ->
     player w' = Some initialPlayer /\ currentPlayingIndex (app w') = 0) /\
    (story (app w) = None -> player w' = None).
Proof.
  intros Hr Hkey. apply reachable_always in Hr.
  assert (playerVisible (app w) = false) as Hv
    by (unfold playerVisible; rewrite Hkey; reflexivity).
  pose proof (always_hidden Hr Hv) as Hnone.
  split; [exact Hnone|].
  split; [unfold plannerShown; rewrite Hkey; reflexivity|].
  split; [unfold loadingShown; rewrite Hkey; reflexivity|].
  split; [simpl; rewrite Hv; reflexivity|].
  split; [simpl; rewrite Hnone; reflexivity|].
  simpl. rewrite Hkey, Hnone.
  eexists. split; [reflexivity|].
  destruct (commit_static (setIsKeyRequired false (app w)) None)
    as (_ & _ & _ & Ek & _).
  split; [rewrite Ek; reflexivity|].
  split; [rewrite commit_story; reflexivity|].
  split.
  - intros [Hst [Hroute Hready]] Hse. unfold commit.
    assert (playerVisible (setIsKeyRequired false (app w)) = true) as ->.
    { unfold playerVisible. simpl. rewrite Hse.
      apply Nat.leb_le in Hready. simpl in Hready. rewrite Hready.
      destruct (story (app w)); [|congruence].
      destruct (route (app w)); [|congruence]. reflexivity. }
    simpl story.
    destruct (story (app w)) as [st|]; [|congruence].
    simpl. split; [reflexivity|].
    apply (onSegmentChange_view 0 (setIsKeyRequired false (app w))).
  - intros Hns. unfold commit. simpl story. rewrite Hns.
    destruct (playerVisible (setIsKeyRequired false (app w))); reflexivity.
Qed.

Lemma worldKeyPrompt_reachable : reachable worldKeyPrompt.
Proof. exists keyPromptOverJourney. vm_compute. reflexivity. Qed.

Lemma key_prompt_is_modal_witness :
  reachable worldKeyPrompt /\
  isKeyRequired (app worldKeyPrompt) = true /\
  story (app worldKeyPrompt) = Some storyOneChapter /\
  player worldKeyPrompt = None /\
  exists w',
    step worldKeyPrompt KeySelected = Some w' /\
    isKeyRequired (app w') = false /\
    story (app w') = Some storyOneChapter /\
    player w' = Some initialPlayer.
Proof.
  split; [exact worldKeyPrompt_reachable|].
  split; [reflexivity|]. split; [reflexivity|].
  destruct (@key_prompt_is_modal worldKeyPrompt worldKeyPrompt_reachable eq_refl)
    as (Hnone & _ & _ & _ & _ & w' & Hs & Hk & Hst & Hsome & _).
  split; [exact Hnone|].
  exists w'. split; [exact Hs|]. split; [exact Hk|].
  split; [rewrite Hst; reflexivity|].
  apply Hsome; [|reflexivity].
  unfold journeyOpen. simpl. repeat split; try discriminate. lia.
Defined.

(** * What the page shows *)

(** X26.  In orderly runs, unless the key prompt or the maps error is up,
    the page shows
    exactly one of three views: the planner ready for input under the
    hero, the locked planner with the loading panel under the hero, or
    the player alone.  In particular the page is never blank: whenever the
    state is [READY_TO_PLAY] the story and the route are there and a
    player is mounted. *)
Theorem one_view_at_a_time (w : World) :
  orderly w ->
  isKeyRequired (app w) = false ->
  scriptError (app w) = false ->
  (appState (app w) = PLANNING /\
   isHeroVisible (app w) = true /\ plannerShown (app w) = true /\
   plannerEnabled (app w) = true /\ loadingShown (app w) = false /\
   playerVisible (app w) = false /\ player w = None) \/
  (appState (app w) = GENERATING_INITIAL_SEGMENT /\
   isHeroVisible (app w) = true /\ plannerShown (app w) = true /\
   plannerEnabled (app w) = false /\ loadingShown (app w) = true /\
   playerVisible (app w) = false /\ player w = None) \/
  (appState (app w) = READY_TO_PLAY /\
   isHeroVisible (app w) = false /\ plannerShown (app w) = false /\
   plannerEnabled (app w) = false /\ loadingShown (app w) = false /\
   playerVisible (app w) = true /\ player w <> None).
Proof.
  intros Hr Hkey Hse.
  pose proof (orderly_inv Hr) as Hw. pose proof (inv_app Hw) as Ha.
  pose proof (facts_app (orderly_facts Hr)) as Fa.
  unfold isHeroVisible, plannerShown, plannerEnabled, loadingShown.
  destruct (af_states Fa) as [E|[E|E]].
  - left. assert (playerVisible (app w) = false) as Hv
      by (unfold playerVisible; rewrite E; simpl; rewrite !andb_false_r;
          reflexivity).
    rewrite E, Hkey, Hse, Hv. simpl.
    repeat split. apply hidden_no_player; assumption.
  - right. left. assert (playerVisible (app w) = false) as Hv
      by (unfold playerVisible; rewrite E; simpl; rewrite !andb_false_r;
          reflexivity).
    rewrite E, Hkey, Hse, Hv. simpl.
    repeat split. apply hidden_no_player; assumption.
  - right. right.
    pose proof (af_ready Fa E) as Hst.
    destruct (inv_ready Ha Hst) as [_ Hroute].
    assert (playerVisible (app w) = true) as Hv.
    { unfold playerVisible. rewrite E, Hkey, Hse. simpl.
      destruct (story (app w)); [|congruence].
      destruct (route (app w)); [|congruence]. reflexivity. }
    rewrite E, Hkey, Hse, Hv. simpl.
    repeat split. apply (inv_mounted Hw Hv).
Qed.

Lemma one_view_at_a_time_witness :
  orderly worldStarting /\
  appState (app worldStarting) = GENERATING_INITIAL_SEGMENT /\
  loadingShown (app worldStarting) = true /\
  ((appState (app worldStarting) = PLANNING /\
    isHeroVisible (app worldStarting) = true /\
    plannerShown (app worldStarting) = true /\
    plannerEnabled (app worldStarting) = true /\
    loadingShown (app worldStarting) = false /\
    playerVisible (app worldStarting) = false /\ player worldStarting = None) \/
   (appState (app worldStarting) = GENERATING_INITIAL_SEGMENT /\
    isHeroVisible (app worldStarting) = true /\
    plannerShown (app worldStarting) = true /\
    plannerEnabled (app worldStarting) = false /\
    loadingShown (app worldStarting) = true /\
    playerVisible (app worldStarting) = false /\ player worldStarting = None) \/
   (appState (app worldStarting) = READY_TO_PLAY /\
    isHeroVisible (app worldStarting) = false /\
    plannerShown (app worldStarting) = false /\
    plannerEnabled (app worldStarting) = false /\
    loadingShown (app worldStarting) = false /\
    playerVisible (app worldStarting) = true /\ player worldStarting <> None)).
Proof.
  split; [exact worldStarting_orderly|].
  split; [reflexivity|]. split; [reflexivity|].
  apply (@one_view_at_a_time worldStarting worldStarting_orderly
           eq_refl eq_refl).
Defined.








(** * Chapter numbers *)

(** X28.  In orderly runs without a reset during a generation no chapter
    number
    beyond the announced count ever occurs: every stored chapter has an
    index between 1 and the announced count, and a generation in flight
    was asked for an index between 2 and that count. *)
Theorem chapter_numbers_within_estimate (w : World) (st : AudioStory) :
  calmlyReachable w ->
  story (app w) = Some st ->
  (forall seg, In seg (segments st) ->
     1 <= index seg <= totalSegmentsEstimate st) /\
  (forall att, In att (inflight (app w)) ->
     2 <= att_index att <= totalSegmentsEstimate st).
Proof.
  intros Hc Hst.
  pose proof (orderly_inv (calmlyReachable_orderly Hc)) as Hw.
  pose proof (inv_app Hw) as Ha.
  pose proof (inv_story Ha Hst) as Hwf.
  destruct Hc as [evs Hrun].
  pose proof (calmRun_contiguous evs initialWorld_inv initialApp_contiguous Hrun)
    as [C1 C2].
  split.
  - intros seg Hin.
    assert (In (index seg) (seq 1 (List.length (segments st)))) as Hidx
      by (rewrite <- (C1 st Hst); apply in_map; exact Hin).
    apply in_seq in Hidx. pose proof (wf_bounded Hwf). lia.
  - intros att Hin.
    destruct (C2 att Hin) as [st' [Hst' Hi]].
    rewrite Hst in Hst'. inversion Hst'; subst st'.
    assert (List.length (segments st) < totalSegmentsEstimate st) as Hroom.
    { apply (inv_room Ha Hst). intros E. rewrite E in Hin. destruct Hin. }
    pose proof (wf_nonempty Hwf). lia.
Qed.

Lemma chapter_numbers_within_estimate_witness :
  calmlyReachable worldTwoChapters /\
  totalSegmentsEstimate storyTwoChapters = 4 /\
  (forall seg, In seg (segments storyTwoChapters) ->
     1 <= index seg <= totalSegmentsEstimate storyTwoChapters) /\
  (forall att, In att (inflight (app worldTwoChapters)) ->
     2 <= att_index att <= totalSegmentsEstimate storyTwoChapters).
Proof.
  assert (calmlyReachable worldTwoChapters) as Hc
    by (exists twoChapters; vm_compute; reflexivity).
  split; [exact Hc|]. split; [reflexivity|].
  apply (@chapter_numbers_within_estimate worldTwoChapters storyTwoChapters
           Hc eq_refl).
Defined.
